(** * The event player, watch dog, test block and selection validator of
    orion-core, embedded from [src/serve/event/Player.js],
    [src/serve/orion.js] and [src/serve/future/Component.js].

    JavaScript objects that are shared and mutated (playables, wrapped
    elements, watch dogs) live in stores addressed by index; every method
    is a function from the state before the call to the state after it.
    What the program does to the outside (events fired on the player,
    DOM events handed to the injector, user callbacks invoked) is
    appended to a trace. *)

From Stdlib Require Import ZArith Lia Bool.
From stdpp Require Import base list strings.

Open Scope Z_scope.

(** ** JavaScript truthiness of the values the code tests *)

Definition truthyZ (z : Z) : bool := negb (z =? 0).

Definition truthyOptZ (o : option Z) : bool :=
  match o with Some z => truthyZ z | None => false end.

Definition truthyStr (s : string) : bool :=
  match s with EmptyString => false | _ => true end.

Definition isSome {A} (o : option A) : bool :=
  match o with Some _ => true | None => false end.

(** [a || b] on optional numbers: the first operand when it is truthy. *)
Definition orZ (a : option Z) (b : option Z) : option Z :=
  if truthyOptZ a then a else b.

(** ** ST.options *)

Record Options := mkOptions {
  opt_timeout : Z;
  opt_handleExceptions : bool
}.

(** ** The host scheduler

    Modelled from the spec: [ST.defer] and [ST.deferCancel] are not part
    of the sources; section 6 gives the contract [defer(fn, delayMs) ->
    cancelHandle], [cancel(cancelHandle)].  A handle is a positive
    number, as the callers' tests [timerId > 0] and [if (eventTimer)]
    expect; the host numbers its timers one after the other. *)

Section HostScheduler.
Context {A : Type}.

Record Timer := mkTimer {
  timer_id : Z;
  timer_delay : Z;
  timer_action : A
}.

Record Host := mkHost {
  next_timer : positive;
  timers : list Timer
}.

Definition host0 : Host := mkHost 1%positive [].

Definition defer (fn : A) (ms : Z) (h : Host) : Z * Host :=
  (Z.pos (next_timer h),
   mkHost (Pos.succ (next_timer h))
          (timers h ++ [mkTimer (Z.pos (next_timer h)) ms fn])).

Definition deferCancel (id : Z) (h : Host) : Host :=
  mkHost (next_timer h)
         (filter (fun t => timer_id t <> id) (timers h)).

Definition pendingTimer (id : Z) (h : Host) : option Timer :=
  find (fun t => timer_id t =? id) (timers h).

(** The host runs a deferred function: the timer leaves the host. *)
Definition hostFires (id : Z) (h : Host) : option (A * Host) :=
  match pendingTimer id h with
  | Some t => Some (timer_action t, deferCancel id h)
  | None => None
  end.

(** ** ST.timeout and ST.doTimeout (orion.js) *)

(** The function [ST.timeout] returns: [ST.emptyFn], or the [cancelFn]
    of [ST.doTimeout] with its [timerId] and [timeout] properties. *)
Inductive TimerFn :=
| emptyFn
| cancelFn (timerId : Z) (timeout : Z).

Definition ST_doTimeout (fn : A) (ms : Z) (h : Host) : TimerFn * Host :=
  let '(id, h') := defer fn ms h in (cancelFn id ms, h').

Definition ST_timeout (o : Options) (fn : A) (millisec : option Z) (h : Host)
  : TimerFn * Host :=
  let ms := opt_timeout o in
  let ms := match millisec with
            | Some m => if negb (ms =? 0) then m else ms
            | None => ms
            end in
  if truthyZ ms then ST_doTimeout fn ms h else (emptyFn, h).

(** Calling the function that [ST.timeout] returned. *)
Definition callTimerFn (t : TimerFn) (h : Host) : Host :=
  match t with
  | emptyFn => h
  | cancelFn id _ => if 0 <? id then deferCancel id h else h
  end.

Definition timerFn_timeout (t : TimerFn) : option Z :=
  match t with emptyFn => None | cancelFn _ ms => Some ms end.

End HostScheduler.

Arguments Timer : clear implicits.
Arguments Host : clear implicits.

(** ** ST.WatchDog (orion.js) *)

(** What a watch dog passes to its callback: [null] from [done], an
    error from [fail], or the time-out message of [onTick].  The message
    text divides the time-out by 1000; the number and whether the hint
    about a forgotten [done()] is appended are kept instead. *)
Inductive WdArg :=
| wd_null
| wd_error (message : string)
| wd_timed_out (timeout : option Z) (hint : bool).

Definition truthyArg (e : WdArg) : bool :=
  match e with wd_null => false | _ => true end.

Section WatchDog.
Context {A C S : Type}.
Variable opts : Options.
(** The deferred function [me.onTick] bound to this watch dog. *)
Variable tick : A.

Record WatchDog := mkWatchDog {
  wd_callback : option C;
  wd_scope : option S;
  wd_timer : option TimerFn;
  wd_timeout : option Z
}.

(** A callback invocation the watch dog performs: [callback.call(scope
    || me, e)]. *)
Definition Invocation : Type := C * WdArg.

Definition wd_cancel (w : WatchDog) (h : Host A) : WatchDog * Host A :=
  match wd_timer w with
  | Some t => (mkWatchDog (wd_callback w) (wd_scope w) None None,
               callTimerFn t h)
  | None => (w, h)
  end.

Definition wd_destroy (w : WatchDog) (h : Host A) : WatchDog * Host A :=
  let '(w1, h1) := wd_cancel w h in
  (mkWatchDog None None (wd_timer w1) (wd_timeout w1), h1).

Definition wd_fire (e : WdArg) (w : WatchDog) (h : Host A)
  : WatchDog * Host A * option Invocation :=
  let callback := wd_callback w in
  let '(w1, h1) := wd_cancel w h in
  match callback with
  | Some cb => (mkWatchDog None (wd_scope w1) (wd_timer w1) (wd_timeout w1),
                h1, Some (cb, e))
  | None => (w1, h1, None)
  end.

Definition wd_onTick (w : WatchDog) (h : Host A)
  : WatchDog * Host A * option Invocation :=
  let hasTimeout := truthyOptZ (wd_timeout w) in
  match wd_timer w with
  | Some t =>
      let timeout := orZ (wd_timeout w) (timerFn_timeout t) in
      let w1 := mkWatchDog (wd_callback w) (wd_scope w) None None in
      wd_fire (wd_timed_out timeout (negb hasTimeout)) w1 h
  | None => (w, h, None)
  end.

Definition wd_set (timeout : option Z) (w : WatchDog) (h : Host A)
  : WatchDog * Host A :=
  let '(w1, h1) := wd_cancel w h in
  let '(t, h2) := ST_timeout opts tick timeout h1 in
  (mkWatchDog (wd_callback w1) (wd_scope w1) (Some t) timeout, h2).

(** [me.done] and [me.fail], the functions handed to user code. *)
Definition wd_done (w : WatchDog) (h : Host A) := wd_fire wd_null w h.

(** [e] is [None] for a missing or falsy argument, which [fail] replaces
    by [new Error('Test failed')]. *)
Definition wd_fail (e : option string) (w : WatchDog) (h : Host A) :=
  wd_fire (wd_error (default "Test failed" e)) w h.

(** The constructor; no adapter [init] hook is installed. *)
Definition newWatchDog (callback : C) (scope : option S) (timeout : option Z)
  (h : Host A) : WatchDog * Host A :=
  wd_set timeout (mkWatchDog (Some callback) scope None None) h.

(** What may happen to a watch dog once it is constructed: user code
    calls [done] or [fail], the host runs the deferred [onTick] of timer
    [id], the owner calls [destroy]. *)
Inductive WdOp :=
| wo_done
| wo_fail (e : option string)
| wo_tick (id : Z)
| wo_destroy.

Definition wdStep (op : WdOp) (w : WatchDog) (h : Host A)
  : WatchDog * Host A * option Invocation :=
  match op with
  | wo_done => wd_done w h
  | wo_fail e => wd_fail e w h
  | wo_tick id =>
      match hostFires id h with
      | Some (_, h') => wd_onTick w h'
      | None => (w, h, None)
      end
  | wo_destroy => let '(w', h') := wd_destroy w h in (w', h', None)
  end.

(** The callback invocations of a sequence of operations, in order. *)
Fixpoint wdRun (ops : list WdOp) (w : WatchDog) (h : Host A)
  : list Invocation :=
  match ops with
  | [] => []
  | op :: rest =>
      let '(w', h', invocation) := wdStep op w h in
      match invocation with
      | Some i => i :: wdRun rest w' h'
      | None => wdRun rest w' h'
      end
  end.

(** Whichever of [done], [fail] and the tick of the armed timer comes
    first invokes the callback and leaves neither callback nor timer. *)
Definition firstReport (w0 : WatchDog) (op : WdOp) : Prop :=
  match op with
  | wo_done | wo_fail _ => True
  | wo_tick id => exists ms, wd_timer w0 = Some (cancelFn id ms)
  | wo_destroy => False
  end.

(** What the callback is given. *)
Definition reportArg (w0 : WatchDog) (op : WdOp) : WdArg :=
  match op with
  | wo_fail e => wd_error (default "Test failed" e)
  | wo_tick _ =>
      wd_timed_out (orZ (wd_timeout w0)
                        (match wd_timer w0 with
                         | Some t => timerFn_timeout t
                         | None => None
                         end))
                   (negb (truthyOptZ (wd_timeout w0)))
  | _ => wd_null
  end.

End WatchDog.

Arguments WatchDog : clear implicits.

(** ** The selection validator (future/Component.js) *)

Inductive SelType :=
| sel_all | sel_id | sel_index | sel_range | sel_query
| sel_other.   (* any other value of [type], or none *)

Inductive SelMode :=
| mode_select
| mode_other.  (* 'deselect', and whatever else is not 'select' *)

Section Selection.
(** Records are compared by identity ([indexOf]); [K] are record ids and
    [V] the values of record properties. *)
Context {R K V : Type} `{EqDecision R} `{EqDecision V}.

(** The component's store.  The Ext JS store is a collaborator outside
    the sources; its methods are taken as they are called. *)
Record Store := mkStore {
  getById : K -> option R;
  getAt : Z -> option R;
  getRange : option Z -> option Z -> list R;
  each : list R;                       (* the records [store.each] visits *)
  get : R -> string -> option V
}.

Record SelConfig := mkSelConfig {
  sel_type : SelType;
  sel_ids : option (list K);
  sel_indexes : option (list Z);
  sel_start : option Z;
  sel_end : option Z;
  sel_propertyName : string;
  sel_propertyValue : option V;
  sel_mode : SelMode
}.

(** The loop of the 'id' and 'index' cases: found records are pushed,
    missing ones skipped. *)
Fixpoint lookupAll {I} (fn : I -> option R) (items : list I) : list R :=
  match items with
  | [] => []
  | i :: rest =>
      match fn i with
      | Some record => record :: lookupAll fn rest
      | None => lookupAll fn rest
      end
  end.

(** The callback of [store.each] in the 'query' case: [value !==
    undefined && value === propertyValue]. *)
Fixpoint queryAll (store : Store) (propertyName : string)
  (propertyValue : option V) (visited : list R) : list R :=
  match visited with
  | [] => []
  | record :: rest =>
      match get store record propertyName with
      | Some value =>
          if bool_decide (propertyValue = Some value)
          then record :: queryAll store propertyName propertyValue rest
          else queryAll store propertyName propertyValue rest
      | None => queryAll store propertyName propertyValue rest
      end
  end.

(** [_getRecords]; [None] is the TypeError of [items.length] when the
    list the type asks for is missing. *)
Definition getRecords (store : Store) (options : SelConfig) : option (list R) :=
  match sel_type options with
  | sel_all => Some (getRange store None None)
  | sel_id =>
      match sel_ids options with
      | Some items => Some (lookupAll (getById store) items)
      | None => None
      end
  | sel_index =>
      match sel_indexes options with
      | Some items => Some (lookupAll (getAt store) items)
      | None => None
      end
  | sel_range => Some (getRange store (sel_start options) (sel_end options))
  | sel_query =>
      Some (queryAll store (sel_propertyName options)
                      (sel_propertyValue options) (each store))
  | sel_other => Some []
  end.

(** [(config.ids && config.ids.length) || (config.indexes &&
    config.indexes.length)]: a number, or [None] for [undefined]. *)
Definition expectedLength (config : SelConfig) : option nat :=
  match sel_ids config with
  | Some ((_ :: _) as ids) => Some (length ids)
  | _ => match sel_indexes config with
         | Some indexes => Some (length indexes)
         | None => None
         end
  end.

(** The counting loop over [records]. *)
Fixpoint countSelected (selections records : list R) : nat :=
  match records with
  | [] => 0%nat
  | r :: rest =>
      if bool_decide (r ∈ selections)
      then S (countSelected selections rest)
      else countSelected selections rest
  end.

(** Whether the abort test [ST.isNumber(expectedLength) && expectedLength
    !== len] holds. *)
Definition lengthMismatch (config : SelConfig) (len : nat) : bool :=
  match expectedLength config with
  | Some n => negb (n =? len)%nat
  | None => false
  end.

Definition validateSelections (store : Store) (selections : list R)
  (config : SelConfig) : option bool :=
  match getRecords store config with
  | None => None
  | Some records =>
      let useLength := match sel_mode config with
                       | mode_select => true
                       | mode_other => false
                       end in
      let len := length records in
      if lengthMismatch config len then Some false
      else Some (countSelected selections records =?
                 (if useLength then len else 0))%nat
  end.

End Selection.

Arguments Store : clear implicits.
Arguments SelConfig : clear implicits.

(** ** Playables (event/Player.js, class ST.event.Playable) *)

(** The [state] property; the prototype holds ['init'], and the player
    assigns ['queued'], ['pending'], ['playing'] and ['done']. *)
Inductive PState := st_init | st_queued | st_pending | st_playing | st_done.

Definition state_name (s : PState) : string :=
  match s with
  | st_init => "init"
  | st_queued => "queued"
  | st_pending => "pending"
  | st_playing => "playing"
  | st_done => "done"
  end.

(** Addresses: of a playable object, of an [ST.Element] wrapper, and the
    identity of a DOM node. *)
Abbreviation ref := nat.
Abbreviation elref := nat.
Abbreviation node := nat.

(** What locates an element without going through another playable. *)
Inductive Locator :=
| loc_str (s : string)     (* locator string *)
| loc_fn (src : string)    (* function returning a node; [src] is its text *)
| loc_node (n : node)      (* a DOM node *)
| loc_el (e : elref)       (* an ST.Element: has [dom] and [$ST] *)
| loc_dom (n : node).      (* another object with a [dom] property *)

(** A [target] or [relatedTarget] as a config object gives it. *)
Inductive CfgTarget :=
| ct_num (n : Z)           (* relative reference to an earlier entry *)
| ct_playable (r : ref)
| ct_loc (l : Locator).

(** The same once [add] has promoted numbers. *)
Inductive Target :=
| tgt_playable (r : ref)
| tgt_loc (l : Locator).

Definition truthyTarget (t : option Target) : bool :=
  match t with
  | None => false
  | Some (tgt_loc (loc_str s)) => truthyStr s
  | Some _ => true
  end.

(** [visible] and [available]: [false], [null], or anything else
    ([undefined] and [true] are not told apart by the code). *)
Inductive Tri := tri_default | tri_false | tri_null.

(** A [ready] config replacing the prototype's method: the tap tail
    [isTapGestureReady], or a user function, known by a number under
    which the environment reports what it returns. *)
Inductive ReadyFn := rd_tapGesture | rd_custom (k : nat).

(** The fields an event carries to the injector. *)
Record Payload := mkPayload {
  pay_x : option Z;
  pay_y : option Z;
  pay_metaKey : option bool;
  pay_shiftKey : option bool;
  pay_ctrlKey : option bool;
  pay_button : option Z;
  pay_detail : option Z;
  pay_text : option string;
  pay_key : option string;
  pay_caret : option Z
}.

Definition noPayload : Payload :=
  mkPayload None None None None None None None None None None.

Record Config_ (F : Type) := mkConfig {
  cfg_type : option string;
  cfg_target : option CfgTarget;
  cfg_relatedTarget : option CfgTarget;
  cfg_delay : option Z;
  cfg_timeout : option Z;
  cfg_animation : option bool;
  cfg_visible : Tri;
  cfg_available : Tri;
  cfg_ready : option ReadyFn;
  cfg_fn : option F;
  cfg_payload : Payload
}.

Arguments mkConfig {F}.
Arguments cfg_type {F}.
Arguments cfg_target {F}.
Arguments cfg_relatedTarget {F}.
Arguments cfg_delay {F}.
Arguments cfg_timeout {F}.
Arguments cfg_animation {F}.
Arguments cfg_visible {F}.
Arguments cfg_available {F}.
Arguments cfg_ready {F}.
Arguments cfg_fn {F}.
Arguments cfg_payload {F}.

(** An element of the array passed to [add]. *)
Inductive Entry_ (F : Type) :=
| ent_falsy                       (* null, undefined, false, '' *)
| ent_number (n : Z)              (* a delay *)
| ent_function (f : F)
| ent_config (c : Config_ F)
| ent_playable (r : ref).         (* already an ST.event.Playable *)

Arguments ent_falsy {F}.
Arguments ent_number {F}.
Arguments ent_function {F}.
Arguments ent_config {F}.
Arguments ent_playable {F}.

(** User functions.  What matters of one is its declared arity
    ([fn.length]), whether it returns a thenable, and what it does to the
    player while it runs: the calls it makes, in order. *)
Inductive Fn :=
| mkFn (fn_length : nat) (fn_body : list Action) (fn_thenable : bool)
with Action :=
| act_add (index : option nat) (entries : list (Entry_ Fn))
| act_pause
| act_resume
| act_done                        (* calls [done()] *)
| act_fail (e : option string)    (* calls [done.fail(e)] *)
| act_throw (e : string).

Definition Config := Config_ Fn.
Definition Entry := Entry_ Fn.

Definition fn_length (f : Fn) : nat := let 'mkFn n _ _ := f in n.
Definition fn_body (f : Fn) : list Action := let 'mkFn _ b _ := f in b.
Definition fn_thenable (f : Fn) : bool := let 'mkFn _ _ t := f in t.

Record Playable := mkPlayable {
  p_type : option string;
  p_target : option Target;
  p_relatedTarget : option Target;
  p_targetEl : option elref;
  p_relatedEl : option elref;
  p_relatedTargetEl : option elref;
  p_delay : option Z;
  p_timeout : option Z;
  p_animation : option bool;
  p_visible : Tri;
  p_available : Tri;
  p_ready : option ReadyFn;
  p_fn : option Fn;
  p_payload : Payload;
  p_id : option Z;
  p_state : PState;
  p_waitStartTime : Z;
  p_waitingFor : option string;
  p_waitingState : option string
}.

Definition set_p_target (v : option Target) (x : Playable) : Playable :=
  mkPlayable (p_type x) v (p_relatedTarget x) (p_targetEl x) (p_relatedEl x) (p_relatedTargetEl x) (p_delay x) (p_timeout x) (p_animation x) (p_visible x) (p_available x) (p_ready x) (p_fn x) (p_payload x) (p_id x) (p_state x) (p_waitStartTime x) (p_waitingFor x) (p_waitingState x).

Definition set_p_relatedTarget (v : option Target) (x : Playable) : Playable :=
  mkPlayable (p_type x) (p_target x) v (p_targetEl x) (p_relatedEl x) (p_relatedTargetEl x) (p_delay x) (p_timeout x) (p_animation x) (p_visible x) (p_available x) (p_ready x) (p_fn x) (p_payload x) (p_id x) (p_state x) (p_waitStartTime x) (p_waitingFor x) (p_waitingState x).

Definition set_p_targetEl (v : option elref) (x : Playable) : Playable :=
  mkPlayable (p_type x) (p_target x) (p_relatedTarget x) v (p_relatedEl x) (p_relatedTargetEl x) (p_delay x) (p_timeout x) (p_animation x) (p_visible x) (p_available x) (p_ready x) (p_fn x) (p_payload x) (p_id x) (p_state x) (p_waitStartTime x) (p_waitingFor x) (p_waitingState x).

Definition set_p_relatedEl (v : option elref) (x : Playable) : Playable :=
  mkPlayable (p_type x) (p_target x) (p_relatedTarget x) (p_targetEl x) v (p_relatedTargetEl x) (p_delay x) (p_timeout x) (p_animation x) (p_visible x) (p_available x) (p_ready x) (p_fn x) (p_payload x) (p_id x) (p_state x) (p_waitStartTime x) (p_waitingFor x) (p_waitingState x).

Definition set_p_relatedTargetEl (v : option elref) (x : Playable) : Playable :=
  mkPlayable (p_type x) (p_target x) (p_relatedTarget x) (p_targetEl x) (p_relatedEl x) v (p_delay x) (p_timeout x) (p_animation x) (p_visible x) (p_available x) (p_ready x) (p_fn x) (p_payload x) (p_id x) (p_state x) (p_waitStartTime x) (p_waitingFor x) (p_waitingState x).

Definition set_p_delay (v : option Z) (x : Playable) : Playable :=
  mkPlayable (p_type x) (p_target x) (p_relatedTarget x) (p_targetEl x) (p_relatedEl x) (p_relatedTargetEl x) v (p_timeout x) (p_animation x) (p_visible x) (p_available x) (p_ready x) (p_fn x) (p_payload x) (p_id x) (p_state x) (p_waitStartTime x) (p_waitingFor x) (p_waitingState x).

Definition set_p_timeout (v : option Z) (x : Playable) : Playable :=
  mkPlayable (p_type x) (p_target x) (p_relatedTarget x) (p_targetEl x) (p_relatedEl x) (p_relatedTargetEl x) (p_delay x) v (p_animation x) (p_visible x) (p_available x) (p_ready x) (p_fn x) (p_payload x) (p_id x) (p_state x) (p_waitStartTime x) (p_waitingFor x) (p_waitingState x).

Definition set_p_animation (v : option bool) (x : Playable) : Playable :=
  mkPlayable (p_type x) (p_target x) (p_relatedTarget x) (p_targetEl x) (p_relatedEl x) (p_relatedTargetEl x) (p_delay x) (p_timeout x) v (p_visible x) (p_available x) (p_ready x) (p_fn x) (p_payload x) (p_id x) (p_state x) (p_waitStartTime x) (p_waitingFor x) (p_waitingState x).

Definition set_p_id (v : option Z) (x : Playable) : Playable :=
  mkPlayable (p_type x) (p_target x) (p_relatedTarget x) (p_targetEl x) (p_relatedEl x) (p_relatedTargetEl x) (p_delay x) (p_timeout x) (p_animation x) (p_visible x) (p_available x) (p_ready x) (p_fn x) (p_payload x) v (p_state x) (p_waitStartTime x) (p_waitingFor x) (p_waitingState x).

Definition set_p_state (v : PState) (x : Playable) : Playable :=
  mkPlayable (p_type x) (p_target x) (p_relatedTarget x) (p_targetEl x) (p_relatedEl x) (p_relatedTargetEl x) (p_delay x) (p_timeout x) (p_animation x) (p_visible x) (p_available x) (p_ready x) (p_fn x) (p_payload x) (p_id x) v (p_waitStartTime x) (p_waitingFor x) (p_waitingState x).

Definition set_p_waitStartTime (v : Z) (x : Playable) : Playable :=
  mkPlayable (p_type x) (p_target x) (p_relatedTarget x) (p_targetEl x) (p_relatedEl x) (p_relatedTargetEl x) (p_delay x) (p_timeout x) (p_animation x) (p_visible x) (p_available x) (p_ready x) (p_fn x) (p_payload x) (p_id x) (p_state x) v (p_waitingFor x) (p_waitingState x).

Definition set_p_waitingFor (v : option string) (x : Playable) : Playable :=
  mkPlayable (p_type x) (p_target x) (p_relatedTarget x) (p_targetEl x) (p_relatedEl x) (p_relatedTargetEl x) (p_delay x) (p_timeout x) (p_animation x) (p_visible x) (p_available x) (p_ready x) (p_fn x) (p_payload x) (p_id x) (p_state x) (p_waitStartTime x) v (p_waitingState x).

Definition set_p_waitingState (v : option string) (x : Playable) : Playable :=
  mkPlayable (p_type x) (p_target x) (p_relatedTarget x) (p_targetEl x) (p_relatedEl x) (p_relatedTargetEl x) (p_delay x) (p_timeout x) (p_animation x) (p_visible x) (p_available x) (p_ready x) (p_fn x) (p_payload x) (p_id x) (p_state x) (p_waitStartTime x) (p_waitingFor x) v.


(** The prototype's defaults under a config's properties. *)
Definition protoPlayable : Playable :=
  mkPlayable None None None None None None None None None
             tri_default tri_default None None noPayload None st_init 0
             None None.

(** ** The player and what surrounds it *)

(** What a deferred function does when the host runs it. *)
Inductive TimerAction :=
| ta_playEvent (r : ref)     (* the closure of [playEventSoon] *)
| ta_wdTick (d : nat).       (* [onTick] of the watch dog of a [playFn] *)

(** The watch dog [playFn] creates.  Its callback closes over the event
    and over the local [failed], which the [catch] sets. *)
Record PlayDog := mkPlayDog {
  dog_wd : WatchDog ref unit;
  dog_failed : bool
}.

(** What leaves the player. *)
Inductive Emit :=
| ev_error (message : string)   (* fireEvent('error', {player, message}) *)
| ev_end                        (* fireEvent('end', me) *)
| ev_inject (r : ref) (type : string)
            (target : option (elref * node)) (related : option (elref * node))
                                (* injector.injectEvent(event, target, related) *)
| ev_call (r : ref)             (* event.fn.call(event, done) *)
| ev_activate                   (* ST.gestureQueue.activate() *)
| ev_deactivate                 (* ST.gestureQueue.deactivate() *)
| ev_uncaught (e : string).     (* an exception reaches the host *)

(** What a custom [ready] does when called. *)
Inductive ReadyResult := rr_true | rr_false | rr_throw (e : string).

(** The page and the clock as one host callback sees them. *)
Record Env := mkEnv {
  now : Z;                              (* +new Date() on entry *)
  stampNow : Z;                         (* the later reading kept as a stamp *)
  st_find : Locator -> option node;     (* ST.find(target, false, root, direction) *)
  isDetached : node -> bool;
  isVisible : node -> bool;
  animating : bool;                     (* Ext.fx.Manager.items.getCount() *)
  customReady : nat -> ReadyResult;
  gestureComplete : option Z -> bool;   (* ST.gestureQueue.complete(id, 'tap') *)
  focusNode : node -> option node;      (* the input element expandType looks up *)
  dom_id : node -> string;
  dom_tagName : node -> string
}.

Record World := mkWorld {
  options : Options;
  gestureQueue : bool;
  store : list Playable;
  els : list node;
  events : list ref;
  pendingEvent : option ref;
  pendingFn : option nat;
  paused : nat;
  eventTimer : Z;
  active : bool;
  nextId : Z;
  pl_timeout : option Z;
  eventDelay : option Z;
  typingDelay : option Z;
  pauseForAnimations : bool;
  waitInterval : Z;
  touchCount : Z;
  lastGestureEndTime : Z;
  host : Host TimerAction;
  dogs : list PlayDog;
  trace : list Emit
}.

Definition set_store (v : list Playable) (x : World) : World :=
  mkWorld (options x) (gestureQueue x) v (els x) (events x) (pendingEvent x) (pendingFn x) (paused x) (eventTimer x) (active x) (nextId x) (pl_timeout x) (eventDelay x) (typingDelay x) (pauseForAnimations x) (waitInterval x) (touchCount x) (lastGestureEndTime x) (host x) (dogs x) (trace x).

Definition set_els (v : list node) (x : World) : World :=
  mkWorld (options x) (gestureQueue x) (store x) v (events x) (pendingEvent x) (pendingFn x) (paused x) (eventTimer x) (active x) (nextId x) (pl_timeout x) (eventDelay x) (typingDelay x) (pauseForAnimations x) (waitInterval x) (touchCount x) (lastGestureEndTime x) (host x) (dogs x) (trace x).

Definition set_events (v : list ref) (x : World) : World :=
  mkWorld (options x) (gestureQueue x) (store x) (els x) v (pendingEvent x) (pendingFn x) (paused x) (eventTimer x) (active x) (nextId x) (pl_timeout x) (eventDelay x) (typingDelay x) (pauseForAnimations x) (waitInterval x) (touchCount x) (lastGestureEndTime x) (host x) (dogs x) (trace x).

Definition set_pendingEvent (v : option ref) (x : World) : World :=
  mkWorld (options x) (gestureQueue x) (store x) (els x) (events x) v (pendingFn x) (paused x) (eventTimer x) (active x) (nextId x) (pl_timeout x) (eventDelay x) (typingDelay x) (pauseForAnimations x) (waitInterval x) (touchCount x) (lastGestureEndTime x) (host x) (dogs x) (trace x).

Definition set_pendingFn (v : option nat) (x : World) : World :=
  mkWorld (options x) (gestureQueue x) (store x) (els x) (events x) (pendingEvent x) v (paused x) (eventTimer x) (active x) (nextId x) (pl_timeout x) (eventDelay x) (typingDelay x) (pauseForAnimations x) (waitInterval x) (touchCount x) (lastGestureEndTime x) (host x) (dogs x) (trace x).

Definition set_paused (v : nat) (x : World) : World :=
  mkWorld (options x) (gestureQueue x) (store x) (els x) (events x) (pendingEvent x) (pendingFn x) v (eventTimer x) (active x) (nextId x) (pl_timeout x) (eventDelay x) (typingDelay x) (pauseForAnimations x) (waitInterval x) (touchCount x) (lastGestureEndTime x) (host x) (dogs x) (trace x).

Definition set_eventTimer (v : Z) (x : World) : World :=
  mkWorld (options x) (gestureQueue x) (store x) (els x) (events x) (pendingEvent x) (pendingFn x) (paused x) v (active x) (nextId x) (pl_timeout x) (eventDelay x) (typingDelay x) (pauseForAnimations x) (waitInterval x) (touchCount x) (lastGestureEndTime x) (host x) (dogs x) (trace x).

Definition set_active (v : bool) (x : World) : World :=
  mkWorld (options x) (gestureQueue x) (store x) (els x) (events x) (pendingEvent x) (pendingFn x) (paused x) (eventTimer x) v (nextId x) (pl_timeout x) (eventDelay x) (typingDelay x) (pauseForAnimations x) (waitInterval x) (touchCount x) (lastGestureEndTime x) (host x) (dogs x) (trace x).

Definition set_nextId (v : Z) (x : World) : World :=
  mkWorld (options x) (gestureQueue x) (store x) (els x) (events x) (pendingEvent x) (pendingFn x) (paused x) (eventTimer x) (active x) v (pl_timeout x) (eventDelay x) (typingDelay x) (pauseForAnimations x) (waitInterval x) (touchCount x) (lastGestureEndTime x) (host x) (dogs x) (trace x).

Definition set_touchCount (v : Z) (x : World) : World :=
  mkWorld (options x) (gestureQueue x) (store x) (els x) (events x) (pendingEvent x) (pendingFn x) (paused x) (eventTimer x) (active x) (nextId x) (pl_timeout x) (eventDelay x) (typingDelay x) (pauseForAnimations x) (waitInterval x) v (lastGestureEndTime x) (host x) (dogs x) (trace x).

Definition set_lastGestureEndTime (v : Z) (x : World) : World :=
  mkWorld (options x) (gestureQueue x) (store x) (els x) (events x) (pendingEvent x) (pendingFn x) (paused x) (eventTimer x) (active x) (nextId x) (pl_timeout x) (eventDelay x) (typingDelay x) (pauseForAnimations x) (waitInterval x) (touchCount x) v (host x) (dogs x) (trace x).

Definition set_host (v : Host TimerAction) (x : World) : World :=
  mkWorld (options x) (gestureQueue x) (store x) (els x) (events x) (pendingEvent x) (pendingFn x) (paused x) (eventTimer x) (active x) (nextId x) (pl_timeout x) (eventDelay x) (typingDelay x) (pauseForAnimations x) (waitInterval x) (touchCount x) (lastGestureEndTime x) v (dogs x) (trace x).

Definition set_dogs (v : list PlayDog) (x : World) : World :=
  mkWorld (options x) (gestureQueue x) (store x) (els x) (events x) (pendingEvent x) (pendingFn x) (paused x) (eventTimer x) (active x) (nextId x) (pl_timeout x) (eventDelay x) (typingDelay x) (pauseForAnimations x) (waitInterval x) (touchCount x) (lastGestureEndTime x) (host x) v (trace x).

Definition set_trace (v : list Emit) (x : World) : World :=
  mkWorld (options x) (gestureQueue x) (store x) (els x) (events x) (pendingEvent x) (pendingFn x) (paused x) (eventTimer x) (active x) (nextId x) (pl_timeout x) (eventDelay x) (typingDelay x) (pauseForAnimations x) (waitInterval x) (touchCount x) (lastGestureEndTime x) (host x) (dogs x) v.

(** *** Reading and updating the stores *)

Definition getP (r : ref) (w : World) : Playable :=
  default protoPlayable (store w !! r).

Definition updP (r : ref) (f : Playable -> Playable) (w : World) : World :=
  set_store (alter f r (store w)) w.

Definition newP (p : Playable) (w : World) : ref * World :=
  (length (store w), set_store (store w ++ [p]) w).

(** [el.dom] *)
Definition elDom (e : elref) (w : World) : node := default 0%nat (els w !! e).

(** [new ST.Element(dom)] *)
Definition newElement (dom : node) (w : World) : elref * World :=
  (length (els w), set_els (els w ++ [dom]) w).

Definition emit (e : Emit) (w : World) : World := set_trace (trace w ++ [e]) w.

(** *** cleanup, onEnd, fail, doError *)

Definition cleanup (w : World) : World :=
  let timer := eventTimer w in
  let w := set_pendingFn None (set_pendingEvent None w) in
  let w := if truthyZ timer
           then set_host (deferCancel timer (host w)) (set_eventTimer 0 w)
           else w in
  set_events [] w.

Definition onEnd (w : World) : World :=
  let w := if gestureQueue w then emit ev_deactivate w else w in
  emit ev_end w.

Definition fail (message : string) (w : World) : World :=
  if isSome (pendingEvent w) || negb (length (events w) =? 0)%nat
  then onEnd (emit (ev_error message) (cleanup w))
  else w.

(** The double quote character of the message of [doError]. *)
Definition dquote : string :=
  String (Ascii.Ascii false true false false false true false false)
         EmptyString.

Definition doError (err : string) (w : World) : World :=
  fail ("Failed with error " +:+ dquote +:+ err +:+ dquote) w.

(** *** doTimeout *)

Inductive Which := which_target | which_related.

Definition whichName (which : Which) : string :=
  match which with
  | which_target => "target"
  | which_related => "relatedTarget"
  end.

(** [me[name]] *)
Definition getTarget (which : Which) (p : Playable) : option Target :=
  match which with
  | which_target => p_target p
  | which_related => p_relatedTarget p
  end.

(** The loop of [doTimeout] that follows targets through playables to a
    locator; it yields [dom] and [sel].  The loop runs while it meets
    playables, at most once per playable of the store unless targets
    form a cycle; [fuel] bounds it. *)
Fixpoint walkLocator (fuel : nat) (which : Which) (src : ref) (w : World)
  : option node * option string :=
  match fuel with
  | O => (None, None)
  | S fuel' =>
      let p := getP src w in
      let locator := getTarget which p in
      if negb (truthyTarget locator) then
        (* locator = src[s + 'El']; dom = locator && locator.dom *)
        let el := match which with
                  | which_target => p_targetEl p
                  | which_related => p_relatedTargetEl p
                  end in
        (match el with Some e => Some (elDom e w) | None => None end, None)
      else
        match locator with
        | Some (tgt_playable t) => walkLocator fuel' which t w
        | Some (tgt_loc (loc_el e)) => (Some (elDom e w), None)
        | Some (tgt_loc (loc_dom n)) => (Some n, None)
        | Some (tgt_loc (loc_node n)) => (Some n, None)
        | Some (tgt_loc (loc_str s)) => (None, Some s)
        | Some (tgt_loc (loc_fn src)) => (None, Some src)
        | None => (None, None)
        end
  end.

Definition orStr (a : option string) (b : string) : string :=
  match a with
  | Some s => if truthyStr s then s else b
  | None => b
  end.

Definition timeoutMessage (env : Env) (event : ref) (w : World) : string :=
  let p := getP event w in
  let s := orStr (p_waitingFor p) "event" in
  let toBe := orStr (p_waitingState p) "ready" in
  let described (which : Which) :=
    let '(dom, sel) := walkLocator (S (length (store w))) which event w in
    let sel := match dom with
               | Some d => Some (if truthyStr (dom_id env d)
                                 then "#" +:+ dom_id env d
                                 else dom_tagName env d)
               | None => sel
               end in
    match sel with
    | Some sel => if truthyStr sel then s +:+ " (" +:+ sel +:+ ")" else s
    | None => s
    end in
  let s := if String.eqb s "target" then described which_target
           else if String.eqb s "relatedTarget" then described which_related
           else s in
  let toBe := match p_type p with
              | Some type => if truthyStr type then toBe +:+ " for " +:+ type
                             else toBe
              | None => toBe
              end in
  "Timeout waiting for " +:+ s +:+ " to be " +:+ toBe.

Definition doTimeout (env : Env) (event : ref) (w : World) : World :=
  match p_state (getP event w) with
  | st_pending | st_playing =>
      let w := updP event (set_p_state st_done) w in
      fail (timeoutMessage env event w) w
  | _ => w
  end.

(** *** playEventSoon, playNext *)

(** [delay] is [None] when the argument is left out: the poll interval. *)
Definition playEventSoon (event : ref) (delay : option Z) (w : World) : World :=
  let '(id, h) := defer (ta_playEvent event)
                        (default (waitInterval w) delay) (host w) in
  set_eventTimer id (set_host h w).

Definition playNext (w : World) : World :=
  if negb (isSome (pendingEvent w)) && (paused w =? 0)%nat then
    match events w with
    | [] => onEnd w
    | event :: rest =>
        let w := set_events rest w in
        let w := set_pendingEvent (Some event) w in
        let w := updP event (set_p_state st_pending) w in
        playEventSoon event (Some (default 0 (p_delay (getP event w)))) w
    end
  else w.

(** *** The Playable constructor and add *)

Definition ofConfig (c : Config) : Playable :=
  mkPlayable (cfg_type c) None None None None None
             (match cfg_delay c with
              | None => if isSome (cfg_fn c) then Some 0 else None
              | d => d
              end)
             (cfg_timeout c) (cfg_animation c) (cfg_visible c)
             (cfg_available c) (cfg_ready c) (cfg_fn c) (cfg_payload c)
             None st_init 0 None None.

Definition liftTarget (t : option Target) : option CfgTarget :=
  match t with
  | Some (tgt_playable r) => Some (ct_playable r)
  | Some (tgt_loc l) => Some (ct_loc l)
  | None => None
  end.

(** The playable an entry stands for, with the [target] and
    [relatedTarget] it carries before promotion.  [None] for an entry
    the loop skips. *)
Definition entryPlayable (e : Entry) (w : World)
  : option (ref * option CfgTarget * option CfgTarget * World) :=
  match e with
  | ent_falsy => None
  | ent_number n =>
      let '(r, w) := newP (set_p_delay (Some n) protoPlayable) w in
      Some (r, None, None, w)
  | ent_function f =>
      let '(r, w) := newP (ofConfig (mkConfig None None None (Some 0) None None
                                       tri_default tri_default None (Some f)
                                       noPayload)) w in
      Some (r, None, None, w)
  | ent_config c =>
      let '(r, w) := newP (ofConfig c) w in
      Some (r, cfg_target c, cfg_relatedTarget c, w)
  | ent_playable r =>
      Some (r, liftTarget (p_target (getP r w)),
            liftTarget (p_relatedTarget (getP r w)), w)
  end.

(** [queue[queue.length + t]] *)
Definition relativeEntry (queue : list ref) (t : Z) : option ref :=
  let i := Z.of_nat (length queue) + t in
  if (0 <=? i) then queue !! Z.to_nat i else None.

(** Promotion of a [target] or [relatedTarget]: the value the property
    ends with, and the element to store next to it, if any. *)
Definition promote (queue : list ref) (t : option CfgTarget) (w : World)
  : option Target * option elref * World :=
  match t with
  | Some (ct_num n) =>
      (match relativeEntry queue n with
       | Some r => Some (tgt_playable r)
       | None => None
       end, None, w)
  | Some (ct_loc (loc_el e)) => (Some (tgt_loc (loc_el e)), Some e, w)
  | Some (ct_loc (loc_dom n)) =>
      let '(e, w) := newElement n w in (Some (tgt_loc (loc_dom n)), Some e, w)
  | Some (ct_loc l) => (Some (tgt_loc l), None, w)
  | Some (ct_playable r) => (Some (tgt_playable r), None, w)
  | None => (None, None, w)
  end.

Definition isEventType (type : option string) : bool :=
  match type with
  | Some t => truthyStr t && negb (String.eqb t "wait")
  | None => false
  end.

(** The two blocks of the loop of [add] that promote [target] and
    [relatedTarget] and store the element a target with a [dom] gives. *)
Definition promoteTargets (queue : list ref) (r : ref)
  (target related : option CfgTarget) (w : World) : World :=
  let '(t, tEl, w) := promote queue target w in
  let w := updP r (set_p_target t) w in
  let w := match tEl with
           | Some el => updP r (set_p_targetEl (Some el)) w
           | None => w
           end in
  let '(t, tEl, w) := promote queue related w in
  let w := updP r (set_p_relatedTarget t) w in
  match tEl with
  | Some el => updP r (set_p_relatedTargetEl (Some el)) w
  | None => w
  end.

(** The defaults of [delay], [animation] and [timeout]. *)
Definition applyDefaults (r : ref) (w : World) : World :=
  let p := getP r w in
  let w := if negb (isSome (p_delay p)) && isEventType (p_type p)
           then updP r (set_p_delay (eventDelay w)) w else w in
  let w := if negb (isSome (p_animation p))
           then updP r (set_p_animation (Some (pauseForAnimations w))) w
           else w in
  let timeout := opt_timeout (options w) in
  if negb (truthyZ timeout)
  then updP r (set_p_timeout (Some 0)) w
  else if negb (isSome (p_timeout p))
       then updP r (set_p_timeout (Some (default timeout (pl_timeout w)))) w
       else w.

(** [e.id = me._nextId++; e.state = 'queued'] *)
Definition enlist (r : ref) (w : World) : World :=
  let w := updP r (set_p_id (Some (nextId w))) w in
  let w := set_nextId (nextId w + 1) w in
  updP r (set_p_state st_queued) w.

(** One round of the loop of [add]: the world, the queue being built and
    the playables pushed so far. *)
Definition addEntry (acc : World * list ref * list ref) (e : Entry)
  : World * list ref * list ref :=
  let '(w, queue, added) := acc in
  match entryPlayable e w with
  | None => acc
  | Some (r, target, related, w) =>
      let w := promoteTargets queue r target related w in
      let w := applyDefaults r w in
      let w := enlist r w in
      (w, queue ++ [r], added ++ [r])
  end.

(** Where [add] puts the new playables: the explicit [index], else the
    marker [pendingFn] when a playable's function is running, which then
    advances by the number of entries, else the end of the queue. *)
Definition insertIndex (index : option nat) (count : nat) (w : World)
  : nat * World :=
  match index with
  | Some i => (i, w)
  | None =>
      match pendingFn w with
      | None => (length (events w), w)
      | Some marker => (marker, set_pendingFn (Some (marker + count)%nat) w)
      end
  end.

(** [add(index, events)] up to its last statement; [index] is [None]
    when the first argument is not a number.  Besides the world the
    function yields the playables it pushed, which the source leaves in
    the [events] array. *)
Definition enqueue (index : option nat) (entries : list Entry) (w : World)
  : World * list ref :=
  let _events := events w in
  let len := length _events in
  let count := length entries in
  let '(index, w) := insertIndex index count w in
  let inserting := (index <? len)%nat in
  let queue := if inserting then take index _events else _events in
  let '(w, queue, added) := fold_left addEntry entries (w, queue, []) in
  let queue := if inserting then queue ++ drop index _events else queue in
  (set_events queue w, added).

(** [add]: the player goes on at once when it is active and has no
    pending event. *)
Definition add (index : option nat) (entries : list Entry) (w : World)
  : World * list ref :=
  let '(w, added) := enqueue index entries w in
  let w := if active w && negb (isSome (pendingEvent w))
           then playNext w else w in
  (w, added).

(** *** pause, resume *)

(** Truthiness of [me.pendingFn], which holds [false] or a number. *)
Definition truthyMarker (m : option nat) : bool :=
  match m with
  | Some (S _) => true
  | _ => false
  end.

Definition pause (w : World) : World :=
  let timer := eventTimer w in
  let event := pendingEvent w in
  let w := set_paused (S (paused w)) w in
  let w := if truthyZ timer
           then set_host (deferCancel timer (host w)) (set_eventTimer 0 w)
           else w in
  match event with
  | Some e =>
      if negb (truthyMarker (pendingFn w))
      then updP e (set_p_state st_queued) (set_events (e :: events w) w)
      else w
  | None => w
  end.

Definition resume (w : World) : World :=
  match paused w with
  | O => w
  | S n =>
      let w := set_paused n w in
      if (n =? 0)%nat then playNext w else w
  end.

(** *** The watch dog of playFn *)

(** The callback [playFn] gives its watch dog. *)
Definition playFnCallback (env : Env) (d : nat) (event : ref) (err : WdArg)
  (w : World) : World :=
  match dogs w !! d with
  | Some dog =>
      if dog_failed dog then w
      else if truthyArg err then doTimeout env event w
      else
        let w := set_pendingEvent None w in
        let w := updP event (set_p_state st_done) w in
        playNext w
  | None => w
  end.

(** A method of watch dog [d] runs, and then the callback if the method
    invoked it. *)
Definition withDog (env : Env) (d : nat)
  (method : WatchDog ref unit -> Host TimerAction ->
            WatchDog ref unit * Host TimerAction * option (ref * WdArg))
  (w : World) : World :=
  match dogs w !! d with
  | Some dog =>
      let '(wd, h, invocation) := method (dog_wd dog) (host w) in
      let w := set_dogs (<[d := mkPlayDog wd (dog_failed dog)]> (dogs w)) w in
      let w := set_host h w in
      match invocation with
      | Some (event, err) => playFnCallback env d event err w
      | None => w
      end
  | None => w
  end.

Definition dogDone (env : Env) (d : nat) : World -> World :=
  withDog env d wd_done.

Definition dogFail (env : Env) (d : nat) (e : option string) : World -> World :=
  withDog env d (wd_fail e).

Definition dogTick (env : Env) (d : nat) : World -> World :=
  withDog env d wd_onTick.

(** *** Readiness: setWaiting, animationsDone, targetReady, ready, isReady *)

(** [setWaiting(waitingFor, waitingState)]; [setWaiting(false)] is
    [setWaiting r None None]. *)
Definition setWaiting (r : ref) (waitingFor waitingState : option string)
  (w : World) : bool * World :=
  (negb (isSome waitingFor),
   updP r (fun p => set_p_waitingState waitingState
                      (set_p_waitingFor waitingFor p)) w).

Definition animationsDone (env : Env) (r : ref) (w : World) : bool * World :=
  match p_animation (getP r w) with
  | Some true =>
      if animating env
      then setWaiting r (Some "animations") (Some "complete") w
      else setWaiting r None None w
  | _ => setWaiting r None None w
  end.

(** [me[elName]]: the cache is [targetEl] for the target and [relatedEl]
    for the related target. *)
Definition getEl (which : Which) (p : Playable) : option elref :=
  match which with
  | which_target => p_targetEl p
  | which_related => p_relatedEl p
  end.

Definition setEl (which : Which) (el : option elref) (p : Playable) : Playable :=
  match which with
  | which_target => set_p_targetEl el p
  | which_related => set_p_relatedEl el p
  end.

Definition isTriFalse (t : Tri) : bool :=
  match t with tri_false => true | _ => false end.

Definition isTriNull (t : Tri) : bool :=
  match t with tri_null => true | _ => false end.

(** The visibility test that ends [targetReady]. *)
Definition visibilityReady (env : Env) (name : string) (r : ref)
  (el : option elref) (w : World) : bool * World :=
  let visibility := p_visible (getP r w) in
  match el with
  | Some e =>
      if isTriNull visibility then setWaiting r None None w
      else if isTriFalse visibility then
        if isVisible env (elDom e w)
        then setWaiting r (Some name) (Some "not visible") w
        else setWaiting r None None w
      else if negb (isVisible env (elDom e w))
        then setWaiting r (Some name) (Some "visible") w
        else setWaiting r None None w
  | None => setWaiting r None None w
  end.

Definition targetReady (env : Env) (which : Which) (r : ref) (w : World)
  : bool * World :=
  let name := whichName which in
  let me := getP r w in
  let target := getTarget which me in
  let availability := p_available me in
  let absent := isTriFalse availability in
  if negb (truthyTarget target) then setWaiting r None None w
  else
    (* if (!(el = me[elName])) { if (target.isPlayable) me[elName] = el = target[elName] } *)
    let '(el, w) :=
      match getEl which me, target with
      | None, Some (tgt_playable t) =>
          let el := getEl which (getP t w) in
          (el, updP r (setEl which el) w)
      | el, _ => (el, w)
      end in
    match el with
    | Some e =>
        if absent then
          if isDetached env (elDom e w)
          then setWaiting r (Some name) (Some "absent") w
          else setWaiting r None None w
        else
          let w :=
            match target with
            | Some (tgt_loc (loc_str s)) =>
                match st_find env (loc_str s) with
                | Some dom =>
                    if bool_decide (elDom e w = dom) then w
                    else set_els (<[e := dom]> (els w)) w
                | None => w
                end
            | _ => w
            end in
          visibilityReady env name r el w
    | None =>
        let dom :=
          match target with
          | Some (tgt_playable t) =>
              match getEl which (getP t w) with
              | Some e => Some (elDom e w)
              | None => None
              end
          | Some (tgt_loc l) => st_find env l
          | None => None
          end in
        match dom with
        | Some d =>
            let '(e, w) := newElement d w in
            let w := updP r (setEl which (Some e)) w in
            if absent then setWaiting r (Some name) (Some "absent") w
            else visibilityReady env name r (Some e) w
        | None =>
            if absent then setWaiting r None None w
            else if negb (isTriNull availability)
                 then setWaiting r (Some name) (Some "available") w
                 else visibilityReady env name r None w
        end
    end.

(** The prototype's [ready]. *)
Definition defaultReady (env : Env) (r : ref) (w : World) : bool * World :=
  let '(a, w) := animationsDone env r w in
  if a then
    let '(t, w) := targetReady env which_target r w in
    if t then targetReady env which_related r w else (false, w)
  else (false, w).

(** [isTapGestureReady]; reading [this.target.id] of a missing target is
    a TypeError. *)
Definition isTapGestureReady (env : Env) (r : ref) (w : World) : ReadyResult :=
  if negb (gestureQueue w) then rr_true
  else
    match p_target (getP r w) with
    | None => rr_throw "TypeError"
    | Some (tgt_playable t) =>
        if gestureComplete env (p_id (getP t w)) then rr_true else rr_false
    | Some (tgt_loc _) =>
        if gestureComplete env None then rr_true else rr_false
    end.

(** [this.ready()] *)
Definition callReady (env : Env) (r : ref) (w : World) : ReadyResult * World :=
  match p_ready (getP r w) with
  | None =>
      let '(b, w) := defaultReady env r w in
      (if b then rr_true else rr_false, w)
  | Some rd_tapGesture => (isTapGestureReady env r w, w)
  | Some (rd_custom k) => (customReady env k, w)
  end.

(** [isReady]; [None] when the exception of [ready] is not handled and
    leaves [isReady]. *)
Definition isReady (env : Env) (r : ref) (w : World) : option bool * World :=
  match callReady env r w with
  | (rr_true, w) => (Some true, w)
  | (rr_false, w) => (Some false, w)
  | (rr_throw e, w) =>
      if opt_handleExceptions (options w)
      then (Some false, doError e w)
      else (None, emit (ev_uncaught e) w)
  end.

(** *** expandTap *)

(** Modelled from the spec: [ST.applyIf] is not in the sources; a
    property is copied unless the target has it.  The [options] of
    [expandTap] hold the five modifier properties. *)
Definition applyIfOptions (target options : Payload) : Payload :=
  let pick {T} (a b : option T) := if isSome a then a else b in
  mkPayload (pay_x target) (pay_y target)
            (pick (pay_metaKey target) (pay_metaKey options))
            (pick (pay_shiftKey target) (pay_shiftKey options))
            (pick (pay_ctrlKey target) (pay_ctrlKey options))
            (pick (pay_button target) (pay_button options))
            (pick (pay_detail target) (pay_detail options))
            (pay_text target) (pay_key target) (pay_caret target).

Definition eventConfig (type : string) (target : option CfgTarget)
  (delay : option Z) (ready : option ReadyFn) (payload : Payload) : Config :=
  mkConfig (Some type) target None delay None None tri_default tri_default
           ready None payload.

Definition tapEvents (event : Playable) : list Config :=
  let xy := mkPayload (pay_x (p_payload event)) (pay_y (p_payload event))
                      None None None None None None None None in
  let options := p_payload event in
  map (fun c : Config =>
         mkConfig (cfg_type c) (cfg_target c) (cfg_relatedTarget c)
                  (cfg_delay c) (cfg_timeout c) (cfg_animation c)
                  (cfg_visible c) (cfg_available c) (cfg_ready c) (cfg_fn c)
                  (applyIfOptions (cfg_payload c) options))
      [ eventConfig "pointerdown" (liftTarget (p_target event))
                    (p_delay event) None xy;
        eventConfig "pointerup" (Some (ct_num (-1))) (Some 0) None xy;
        eventConfig "click" (Some (ct_num (-2))) (Some 0) None xy;
        eventConfig "wait" (Some (ct_num (-2))) (Some 0)
                    (Some rd_tapGesture) xy ].

Definition expandTap (event : ref) (w : World) : World :=
  let tap := tapEvents (getP event w) in
  let w := if gestureQueue w then emit ev_activate w else w in
  fst (add (Some 0%nat) (map ent_config tap) w).

(** *** expandType *)

(** [text.charAt(i)] for each [i] *)
Fixpoint chars (s : string) : list string :=
  match s with
  | EmptyString => []
  | String c rest => String c EmptyString :: chars rest
  end.

Definition keyConfig (type : string) (target : option elref)
  (key : string) (delay : option Z) : Config :=
  eventConfig type
              (match target with
               | Some e => Some (ct_loc (loc_el e))
               | None => None
               end)
              delay None
              (mkPayload None None None None None None None None (Some key) None).

Definition withFirst (delay : option Z) (caret : option Z)
  (events : list Config) : list Config :=
  match events with
  | [] => []
  | c :: rest =>
      let pay := cfg_payload c in
      mkConfig (cfg_type c) (cfg_target c) (cfg_relatedTarget c) delay
               (cfg_timeout c) (cfg_animation c) (cfg_visible c)
               (cfg_available c) (cfg_ready c) (cfg_fn c)
               (match caret with
                | Some _ =>
                    mkPayload (pay_x pay) (pay_y pay) (pay_metaKey pay)
                              (pay_shiftKey pay) (pay_ctrlKey pay)
                              (pay_button pay) (pay_detail pay) (pay_text pay)
                              (pay_key pay) caret
                | None => pay
                end) :: rest
  end.

(** [expandType]; [None] is the TypeError of [target.getComponent()]
    when the target is a string that resolved to no element. *)
Definition expandType (env : Env) (event : ref) (w : World) : option World :=
  let p := getP event w in
  let text := pay_text (p_payload p) in
  let key := pay_key (p_payload p) in
  let typingDelay := typingDelay w in
  let caret := pay_caret (p_payload p) in
  let retarget :=
    match p_target p, p_targetEl p with
    | Some (tgt_loc (loc_str _)), Some e =>
        match focusNode env (elDom e w) with
        | Some n => let '(e', w) := newElement n w in Some (Some e', w)
        | None => Some (Some e, w)
        end
    | Some (tgt_loc (loc_str _)), None => None
    | _, target => Some (target, w)
    end in
  match retarget with
  | None => None
  | Some (target, w) =>
      let events :=
        if truthyStr (default EmptyString text) then
          Some (concat (map (fun k => [keyConfig "keydown" target k typingDelay;
                                       keyConfig "keyup" target k (Some 0)])
                            (chars (default EmptyString text))))
        else if truthyStr (default EmptyString key) then
          Some [keyConfig "keydown" target (default EmptyString key) None;
                keyConfig "keyup" target (default EmptyString key) (Some 0)]
        else None in
      match events with
      | None => Some (playNext w)
      | Some events =>
          let events := withFirst (orZ (p_delay p) (eventDelay w)) caret events in
          Some (fst (add (Some 0%nat) (map ent_config events) w))
      end
  end.

(** *** playFn *)

(** The user function runs: its calls into the player, in order.  The
    second component is the exception it throws, if it throws. *)
Fixpoint runBody (env : Env) (d : nat) (body : list Action) (w : World)
  : World * option string :=
  match body with
  | [] => (w, None)
  | act_throw e :: _ => (w, Some e)
  | act_add index entries :: rest =>
      runBody env d rest (fst (add index entries w))
  | act_pause :: rest => runBody env d rest (pause w)
  | act_resume :: rest => runBody env d rest (resume w)
  | act_done :: rest => runBody env d rest (dogDone env d w)
  | act_fail e :: rest => runBody env d rest (dogFail env d e w)
  end.

Definition playFn (env : Env) (event : ref) (w : World) : World :=
  match p_fn (getP event w) with
  | None => w
  | Some f =>
      let d := length (dogs w) in
      let '(wd, h) := newWatchDog (options w) (ta_wdTick d) event None
                                  (p_timeout (getP event w)) (host w) in
      let w := set_host h (set_dogs (dogs w ++ [mkPlayDog wd false]) w) in
      let w := set_pendingFn (Some 0%nat) w in
      let w := emit (ev_call event) w in
      let '(w, thrown) := runBody env d (fn_body f) w in
      match thrown with
      | Some e =>
          if opt_handleExceptions (options w) then
            let w := set_dogs (alter (fun dog => mkPlayDog (dog_wd dog) true)
                                     d (dogs w)) w in
            doError e w
          else emit (ev_uncaught e) w
      | None =>
          let w := set_pendingFn None w in
          let w := set_pendingEvent None w in
          if fn_thenable f then w
          else if (fn_length f =? 0)%nat then dogDone env d w
          else w
      end
  end.

(** *** playEvent *)

Definition gestureStartEvents (type : string) : bool :=
  String.eqb type "mousedown" || String.eqb type "pointerdown"
  || String.eqb type "touchstart".

Definition gestureEndEvents (type : string) : bool :=
  String.eqb type "mouseup" || String.eqb type "pointerup"
  || String.eqb type "touchend" || String.eqb type "pointercancel"
  || String.eqb type "touchcancel".

Definition withDom (el : option elref) (w : World) : option (elref * node) :=
  match el with
  | Some e => Some (e, elDom e w)
  | None => None
  end.

(** The branch of [playEvent] that hands an event to the injector.  The
    pointer and gesture indicators it then shows or hides are page
    decoration and are left out. *)
Definition injectEvent (env : Env) (event : ref) (type : string)
  (target relatedTarget : option elref) (w : World) : World :=
  let w := emit (ev_inject event type (withDom target w)
                           (withDom relatedTarget w)) w in
  if gestureStartEvents type then set_touchCount (touchCount w + 1) w
  else if gestureEndEvents type
       then set_lastGestureEndTime (stampNow env)
                                   (set_touchCount (touchCount w - 1) w)
       else w.

(** Whether the test [waitStartTime && timeout && ((now - waitStartTime)
    >= timeout)] of [playEvent] holds. *)
Definition waitExpired (env : Env) (waitStartTime : Z) (timeout : option Z)
  : bool :=
  truthyZ waitStartTime && truthyOptZ timeout
  && (default 0 timeout <=? now env - waitStartTime).

(** The branch of [playEvent] for a playable that is ready. *)
Definition playReady (env : Env) (event : ref) (w : World) : World :=
  let p := getP event w in
  let target := p_targetEl p in
  let relatedTarget := p_relatedEl p in
  let w := updP event (set_p_state st_playing) w in
  if isSome (p_fn p) then playFn env event w
  else
    let w := set_pendingEvent None w in
    let type := default EmptyString (p_type p) in
    let expanded :=
      if String.eqb type "tap" then Some (expandTap event w)
      else if String.eqb type "type" then expandType env event w
      else if isEventType (p_type p)
           then Some (injectEvent env event type target relatedTarget w)
           else Some w in
    match expanded with
    | Some w => playNext (updP event (set_p_state st_done) w)
    | None => emit (ev_uncaught "TypeError") w
    end.

Definition playEvent (env : Env) (event : ref) (w : World) : World :=
  let waitStartTime := p_waitStartTime (getP event w) in
  let timeout := p_timeout (getP event w) in
  match isReady env event w with
  | (None, w) => w
  | (Some false, w) =>
      if waitExpired env waitStartTime timeout then doTimeout env event w
      else
        let w := if negb (truthyZ waitStartTime)
                 then updP event (set_p_waitStartTime (stampNow env)) w
                 else w in
        playEventSoon event None w
  | (Some true, w) => playReady env event w
  end.

(** *** The driver and the host *)

(** Modelled from the spec: [ST.event.Driver], which the player extends,
    is not in the sources; [start] does nothing if the player is started
    already, and otherwise marks it active and calls [onStart]. *)
Definition start (w : World) : World :=
  if active w then w else playNext (set_active true w).

(** What the host may do next: run a deferred function, or run code that
    calls into the player from outside a playable's function: [done] or
    [done.fail] of an earlier function playable [d] (also when its
    promise resolves), [add], [pause], [resume], [start]. *)
Inductive HostEvent :=
| he_timer (id : Z)
| he_done (d : nat)
| he_fail (d : nat) (e : option string)
| he_add (index : option nat) (entries : list Entry)
| he_pause
| he_resume
| he_start.

Definition hostStep (env : Env) (ev : HostEvent) (w : World) : World :=
  match ev with
  | he_timer id =>
      match hostFires id (host w) with
      | Some (ta_playEvent event, h) =>
          playEvent env event (set_eventTimer 0 (set_host h w))
      | Some (ta_wdTick d, h) => dogTick env d (set_host h w)
      | None => w
      end
  | he_done d => dogDone env d w
  | he_fail d e => dogFail env d e w
  | he_add index entries => fst (add index entries w)
  | he_pause => pause w
  | he_resume => resume w
  | he_start => start w
  end.

Definition run (steps : list (Env * HostEvent)) (w : World) : World :=
  fold_left (fun w step => hostStep (fst step) (snd step) w) steps w.

(** The host runs the oldest pending timer, again and again, in an
    unchanging page. *)
Fixpoint drain (fuel : nat) (env : Env) (w : World) : World :=
  match fuel with
  | O => w
  | S fuel' =>
      match timers (host w) with
      | [] => w
      | t :: _ => drain fuel' env (hostStep env (he_timer (timer_id t)) w)
      end
  end.

(** A player as its constructor leaves it, with the settings [ST.play]
    copies from the options. *)
Definition newPlayer (o : Options) (gestures : bool) (timeout eventDelay
  typingDelay : option Z) : World :=
  mkWorld o gestures [] [] [] None None 0%nat 0 false 1 timeout eventDelay
          typingDelay true 10 0 0 host0 [] [].

(** ** ST.Block (orion.js)

    The block meets the player through three calls only:
    [ST.isPlayingEvents()], the single subscription to the player's
    ['end'] event, and [player.stop()].  What the player answers is part
    of the user function's description and of the events that reach the
    block. *)

(** A thrown value: its message and whether it carries [specDisabled]. *)
Record Err := mkErr {
  err_message : string;
  err_specDisabled : bool
}.

(** The message of a reported result. *)
Inductive Msg :=
| msg_str (s : string)
| msg_timeout (timeout : option Z) (hint : bool).

(** A call of the [done] parameter the user function makes while it
    runs. *)
Inductive UCall := uc_done | uc_fail (e : option string).

(** The user's test function: its arity, the calls of [done] it makes
    before it returns, the exception that ends it, if any, and whether
    it leaves playables in the player's queue. *)
Record UserFn := mkUserFn {
  u_length : nat;
  u_calls : list UCall;
  u_throws : option Err;
  u_queues : bool
}.

Inductive BOut :=
| bo_start                            (* ST.Test.current.start() *)
| bo_result (passed : bool) (message : Msg) (disabled : bool)
                                      (* ST.status.addResult *)
| bo_subscribe                        (* player.on({end: onEndPlay, single}) *)
| bo_unsubscribe                      (* player.un(...) *)
| bo_stop                             (* player.stop() *)
| bo_done                             (* the test framework's callback *)
| bo_uncaught (e : Err).              (* the exception leaves wrapperFn *)

Record BlockW := mkBlockW {
  bw_options : Options;
  bw_recorder : bool;
  b_async : bool;
  b_timeout : option Z;
  b_done : bool;
  b_calling : bool;
  b_playing : bool;
  b_error : option Err;
  b_watchDog : bool;
  bw_dog : option (WatchDog unit unit);
  bw_host : Host unit;
  bw_trace : list BOut
}.

Definition set_b_done (v : bool) (x : BlockW) : BlockW :=
  mkBlockW (bw_options x) (bw_recorder x) (b_async x) (b_timeout x) v (b_calling x) (b_playing x) (b_error x) (b_watchDog x) (bw_dog x) (bw_host x) (bw_trace x).

Definition set_b_calling (v : bool) (x : BlockW) : BlockW :=
  mkBlockW (bw_options x) (bw_recorder x) (b_async x) (b_timeout x) (b_done x) v (b_playing x) (b_error x) (b_watchDog x) (bw_dog x) (bw_host x) (bw_trace x).

Definition set_b_playing (v : bool) (x : BlockW) : BlockW :=
  mkBlockW (bw_options x) (bw_recorder x) (b_async x) (b_timeout x) (b_done x) (b_calling x) v (b_error x) (b_watchDog x) (bw_dog x) (bw_host x) (bw_trace x).

Definition set_b_error (v : option Err) (x : BlockW) : BlockW :=
  mkBlockW (bw_options x) (bw_recorder x) (b_async x) (b_timeout x) (b_done x) (b_calling x) (b_playing x) v (b_watchDog x) (bw_dog x) (bw_host x) (bw_trace x).

Definition set_b_watchDog (v : bool) (x : BlockW) : BlockW :=
  mkBlockW (bw_options x) (bw_recorder x) (b_async x) (b_timeout x) (b_done x) (b_calling x) (b_playing x) (b_error x) v (bw_dog x) (bw_host x) (bw_trace x).

Definition set_bw_dog (v : option (WatchDog unit unit)) (x : BlockW) : BlockW :=
  mkBlockW (bw_options x) (bw_recorder x) (b_async x) (b_timeout x) (b_done x) (b_calling x) (b_playing x) (b_error x) (b_watchDog x) v (bw_host x) (bw_trace x).

Definition set_bw_host (v : Host unit) (x : BlockW) : BlockW :=
  mkBlockW (bw_options x) (bw_recorder x) (b_async x) (b_timeout x) (b_done x) (b_calling x) (b_playing x) (b_error x) (b_watchDog x) (bw_dog x) v (bw_trace x).

Definition set_bw_trace (v : list BOut) (x : BlockW) : BlockW :=
  mkBlockW (bw_options x) (bw_recorder x) (b_async x) (b_timeout x) (b_done x) (b_calling x) (b_playing x) (b_error x) (b_watchDog x) (bw_dog x) (bw_host x) v.

Definition bemit (o : BOut) (b : BlockW) : BlockW :=
  set_bw_trace (bw_trace b ++ [o]) b.

(** [failure(ex)]; [ex] is [None] for a missing or falsy argument. *)
Definition failure (ex : option (Msg * bool)) (b : BlockW) : BlockW :=
  match ex with
  | Some (message, specDisabled) =>
      if b_done b then
        if specDisabled then bemit (bo_result true message true) b
        else bemit (bo_result false message false) b
      else b
  | None => b
  end.

Definition ofErr (e : Err) : Msg * bool :=
  (msg_str (err_message e), err_specDisabled e).

Definition finish (ex : option (Msg * bool)) (b : BlockW) : BlockW :=
  if b_done b then
    let b := failure (match b_error b with
                      | Some e => Some (ofErr e)
                      | None => ex
                      end) b in
    let b := set_b_done false b in
    let b := if b_watchDog b then
               let b := match bw_dog b with
                        | Some wd =>
                            let '(wd, h) := wd_destroy wd (bw_host b) in
                            set_bw_host h (set_bw_dog (Some wd) b)
                        | None => b
                        end in
               set_b_watchDog false b
             else b in
    let b := if b_playing b then
               bemit bo_stop (bemit bo_unsubscribe (set_b_playing false b))
             else b in
    if bw_recorder b then b else bemit bo_done b
  else b.

Definition onEndPlay (b : BlockW) : BlockW :=
  let b := set_b_playing false b in
  if b_watchDog b then b else finish None b.

(** What the watch dog hands to [onWatchDog], as [failure] reads it. *)
Definition ofArg (e : WdArg) : option (Msg * bool) :=
  match e with
  | wd_null => None
  | wd_error m => Some (msg_str m, false)
  | wd_timed_out t hint => Some (msg_timeout t hint, false)
  end.

Definition onWatchDog (error : WdArg) (b : BlockW) : BlockW :=
  let b := set_b_watchDog false b in
  let b := failure (ofArg error) b in
  if negb (b_playing b) && negb (b_calling b) then finish None b else b.

(** A method of the block's watch dog runs, and then [onWatchDog] if the
    method invoked the callback. *)
Definition withBlockDog
  (method : WatchDog unit unit -> Host unit ->
            WatchDog unit unit * Host unit * option (unit * WdArg))
  (b : BlockW) : BlockW :=
  match bw_dog b with
  | Some wd =>
      let '(wd, h, invocation) := method wd (bw_host b) in
      let b := set_bw_host h (set_bw_dog (Some wd) b) in
      match invocation with
      | Some (_, e) => onWatchDog e b
      | None => b
      end
  | None => b
  end.

Definition userCall (c : UCall) (b : BlockW) : BlockW :=
  match c with
  | uc_done => withBlockDog wd_done b
  | uc_fail e => withBlockDog (wd_fail e) b
  end.

(** [call]; the second component tells whether the exception left it,
    which it does when exceptions are not handled. *)
Definition call (u : UserFn) (b : BlockW) : BlockW * bool :=
  let b := set_b_calling true b in
  let b := fold_left (fun b c => userCall c b) (u_calls u) b in
  match u_throws u with
  | Some e =>
      if opt_handleExceptions (bw_options b)
      then (set_b_calling false (set_b_error (Some e) b), false)
      else (bemit (bo_uncaught e) b, true)
  | None => (set_b_calling false b, false)
  end.

Definition invoke (u : UserFn) (b : BlockW) : BlockW :=
  let b := bemit bo_start b in
  let b := if b_async b then
             let '(wd, h) := newWatchDog (bw_options b) tt tt (Some tt)
                                         (b_timeout b) (bw_host b) in
             set_b_watchDog true (set_bw_host h (set_bw_dog (Some wd) b))
           else b in
  let '(b, escaped) := call u b in
  if escaped then b
  else
    let b := if u_queues u
             then bemit bo_subscribe (set_b_playing true b)
             else b in
    if isSome (b_error b) || (negb (b_playing b) && negb (b_watchDog b))
    then finish None b
    else b.

(** [new ST.Block(fn, timeout)] and the call of its [wrapperFn] by the
    test framework. *)
Definition newBlock (o : Options) (recorder : bool) (u : UserFn)
  (timeout : option Z) : BlockW :=
  mkBlockW o recorder (negb (u_length u =? 0)%nat) timeout false false false
           None false None host0 [].

Definition wrapperFn (u : UserFn) (b : BlockW) : BlockW :=
  invoke u (set_b_done true b).

(** What reaches the block afterwards: the user's code calls [done] or
    [done.fail], the host runs a deferred function, the player fires
    ['end']. *)
Inductive BEvent :=
| be_done
| be_fail (e : option string)
| be_timer (id : Z)
| be_endPlay.

Definition blockStep (ev : BEvent) (b : BlockW) : BlockW :=
  match ev with
  | be_done => withBlockDog wd_done b
  | be_fail e => withBlockDog (wd_fail e) b
  | be_timer id =>
      match hostFires id (bw_host b) with
      | Some (_, h) => withBlockDog wd_onTick (set_bw_host h b)
      | None => b
      end
  | be_endPlay => if b_playing b then onEndPlay b else b
  end.

Definition blockRun (evs : list BEvent) (b : BlockW) : BlockW :=
  fold_left (fun b ev => blockStep ev b) evs b.

(** ** Views of the player's state used to state its properties *)

(** What [onEnd] fires. *)
Definition endEvents (w : World) : list Emit :=
  if gestureQueue w then [ev_deactivate; ev_end] else [ev_end].

(** The guard of [fail]: an event is pending or the queue is not empty. *)
Definition busy (w : World) : bool :=
  isSome (pendingEvent w) || negb (length (events w) =? 0)%nat.

(** The pending event, if any, followed by the queue: the order in which
    the player will take up the playables it holds. *)
Definition lineup (w : World) : list ref :=
  match pendingEvent w with
  | Some e => e :: events w
  | None => events w
  end.

(** The fields that drive the player, and its settings; [add] leaves
    both alone while its loop runs. *)
Definition control (w : World) :=
  (events w, pendingEvent w, pendingFn w, paused w, eventTimer w, active w,
   host w, dogs w, trace w).

Definition settings (w : World) :=
  (options w, gestureQueue w, pl_timeout w, eventDelay w, typingDelay w,
   pauseForAnimations w, waitInterval w).

(** An entry that is a playable already refers to an object of the
    store. *)
Definition entryOk (w : World) (e : Entry) : Prop :=
  match e with
  | ent_playable r => (r < length (store w))%nat
  | _ => True
  end.

Definition notFalsy (e : Entry) : Prop :=
  match e with ent_falsy => False | _ => True end.

(** The playable an entry becomes: the one it is, or the next free
    address of the store. *)
Definition entryRef (w : World) (e : Entry) : ref :=
  match e with
  | ent_playable r => r
  | _ => length (store w)
  end.

(** The function and the type an entry gives its playable. *)
Definition entryFn (w : World) (e : Entry) : option Fn :=
  match e with
  | ent_function f => Some f
  | ent_config c => cfg_fn c
  | ent_playable r => p_fn (getP r w)
  | _ => None
  end.

Definition entryType (w : World) (e : Entry) : option string :=
  match e with
  | ent_config c => cfg_type c
  | ent_playable r => p_type (getP r w)
  | _ => None
  end.

(** The DOM events handed to the injector, in order. *)
Definition injections (tr : list Emit) : list Emit :=
  omap (fun e => match e with
                 | ev_inject _ _ _ _ => Some e
                 | _ => None
                 end) tr.

(** The user functions called, in order. *)
Definition calls (tr : list Emit) : list ref :=
  omap (fun e => match e with ev_call r => Some r | _ => None end) tr.

Definition counters (w : World) :=
  (nextId w, touchCount w, lastGestureEndTime w).

(** [el] stored through [set] when there is one. *)
Definition setIf (set : option elref -> Playable -> Playable)
  (el : option elref) (p : Playable) : Playable :=
  match el with
  | Some e => set (Some e) p
  | None => p
  end.

(** What the loop of [add] makes of a playable: promoted targets, the
    defaults, the id and the state. *)
Definition targetsP (queue : list ref) (target related : option CfgTarget)
  (w : World) (p : Playable) : Playable :=
  let '(t1, e1, w1) := promote queue target w in
  let '(t2, e2, _) := promote queue related w1 in
  setIf set_p_relatedTargetEl e2
        (set_p_relatedTarget t2
           (setIf set_p_targetEl e1 (set_p_target t1 p))).

Definition defaultsP (w : World) (p : Playable) : Playable :=
  let p1 := if negb (isSome (p_delay p)) && isEventType (p_type p)
            then set_p_delay (eventDelay w) p else p in
  let p2 := if negb (isSome (p_animation p))
            then set_p_animation (Some (pauseForAnimations w)) p1 else p1 in
  let timeout := opt_timeout (options w) in
  if negb (truthyZ timeout) then set_p_timeout (Some 0) p2
  else if negb (isSome (p_timeout p))
       then set_p_timeout (Some (default timeout (pl_timeout w))) p2
       else p2.

Definition enlistP (id : Z) (p : Playable) : Playable :=
  set_p_state st_queued (set_p_id (Some id) p).

(** The playable an entry starts from, and the targets it carries. *)
Definition entryBase (w : World) (e : Entry) : Playable :=
  match e with
  | ent_falsy => protoPlayable
  | ent_number n => set_p_delay (Some n) protoPlayable
  | ent_function f =>
      ofConfig (mkConfig None None None (Some 0) None None tri_default
                         tri_default None (Some f) noPayload)
  | ent_config c => ofConfig c
  | ent_playable r => getP r w
  end.

Definition entryTargets (w : World) (e : Entry)
  : option CfgTarget * option CfgTarget :=
  match e with
  | ent_config c => (cfg_target c, cfg_relatedTarget c)
  | ent_playable r => (liftTarget (p_target (getP r w)),
                       liftTarget (p_relatedTarget (getP r w)))
  | _ => (None, None)
  end.

(** The playable one round of the loop of [add] leaves for an entry. *)
Definition configured (w : World) (queue : list ref) (e : Entry) : Playable :=
  enlistP (nextId w)
          (defaultsP w (targetsP queue (fst (entryTargets w e))
                                 (snd (entryTargets w e)) w (entryBase w e))).

Definition isFresh (e : Entry) : bool :=
  match e with
  | ent_falsy | ent_playable _ => false
  | _ => true
  end.

(** The playables a list of entries becomes, for a store of [n]
    objects. *)
Fixpoint entryRefs (n : nat) (entries : list Entry) : list ref :=
  match entries with
  | [] => []
  | ent_falsy :: rest => entryRefs n rest
  | ent_playable r :: rest => r :: entryRefs n rest
  | _ :: rest => n :: entryRefs (S n) rest
  end.

(** A field of a playable that the loop of [add] never writes. *)
Definition addSteady {T} (g : Playable -> T) : Prop :=
  (forall v p, g (set_p_target v p) = g p)
  /\ (forall v p, g (set_p_targetEl v p) = g p)
  /\ (forall v p, g (set_p_relatedTarget v p) = g p)
  /\ (forall v p, g (set_p_relatedTargetEl v p) = g p)
  /\ (forall v p, g (set_p_delay v p) = g p)
  /\ (forall v p, g (set_p_animation v p) = g p)
  /\ (forall v p, g (set_p_timeout v p) = g p)
  /\ (forall v p, g (set_p_id v p) = g p)
  /\ (forall v p, g (set_p_state v p) = g p).

(** How many new playables a list of entries creates. *)
Definition freshCount (entries : list Entry) : nat :=
  length (filter (fun e => isFresh e = true) entries).

(** A field of a playable that a readiness check never writes: the
    check writes the cached elements and the waiting tags only. *)
Definition readySteady {T} (g : Playable -> T) : Prop :=
  (forall v p, g (set_p_targetEl v p) = g p)
  /\ (forall v p, g (set_p_relatedEl v p) = g p)
  /\ (forall v p, g (set_p_waitingFor v p) = g p)
  /\ (forall v p, g (set_p_waitingState v p) = g p).

(** What a readiness check leaves as it was: the fields that drive the
    player, the settings, the counters, the number of playables, and the
    steady fields of every playable. *)
Definition readyFrame (w w1 : World) : Prop :=
  control w1 = control w /\ settings w1 = settings w
  /\ counters w1 = counters w
  /\ length (store w1) = length (store w)
  /\ forall T (g : Playable -> T), readySteady g ->
       forall r, g (getP r w1) = g (getP r w).

(** Timer handles are below the host's next handle. *)
Definition hostOk {A} (h : Host A) : Prop :=
  Forall (fun t => timer_id t < Z.pos (next_timer h)) (timers h).

(** The world [playEvent] starts from when the host runs the timer of
    [playEventSoon]: the timer is gone from the host and [eventTimer] is
    0. *)
Definition entering (w : World) : World :=
  set_eventTimer 0 (set_host (deferCancel (eventTimer w) (host w)) w).

(** The player's timer is pending and will play [event]. *)
Definition pollPending (event : ref) (w : World) : Prop :=
  exists t, pendingTimer (eventTimer w) (host w) = Some t
            /\ timer_action t = ta_playEvent event.

(** The host runs the player's timer once in each of the given pages. *)
Fixpoint polls (envs : list Env) (w : World) : World :=
  match envs with
  | [] => w
  | env :: rest => polls rest (hostStep env (he_timer (eventTimer w)) w)
  end.

(** In each of these pages [ready] returns false for [event]. *)
Fixpoint notReadyAlong (envs : list Env) (event : ref) (w : World) : Prop :=
  match envs with
  | [] => True
  | env :: rest =>
      fst (callReady env event (entering w)) = rr_false
      /\ notReadyAlong rest event (hostStep env (he_timer (eventTimer w)) w)
  end.

(** ** Scenarios *)

(** A page at clock time [t] in which [ST.find] finds [found], every
    node is attached and visible, nothing is animated, and the nodes
    have id ['btn'] and tag ['DIV']. *)
Definition pageAt (t : Z) (found : option node) : Env :=
  mkEnv t (t + 1) (fun _ => found) (fun _ => false) (fun _ => true) false
        (fun _ => rr_true) (fun _ => true) (fun _ => None)
        (fun _ => "btn") (fun _ => "DIV").

Definition stdOptions : Options := mkOptions 5000 true.

(** A player with the default options, no gesture queue, and the delays
    of [ST.play] at 0. *)
Definition player0 : World := newPlayer stdOptions false None (Some 0) (Some 0).

(** A function of no declared parameter that makes the given calls. *)
Definition syncFn (body : list Action) : Entry :=
  ent_function (mkFn 0 body false).

(** An injected event on a locator string. *)
Definition eventOn (type target : string) (timeout : option Z) : Entry :=
  ent_config (mkConfig (Some type) (Some (ct_loc (loc_str target))) None None
                       timeout None tri_default tri_default None None
                       (mkPayload (Some 10) (Some 10) None None None None None
                                  None None None)).

(** Scenario S4: outer, a function that enqueues two playables one
    after the other, and next. *)
Definition nested : World :=
  start (fst (add None [syncFn [];
                        syncFn [act_add None [syncFn []];
                                act_add None [syncFn []]];
                        syncFn []] player0)).

(** Scenario S1: a tap on ['#btn'], which resolves to node 7. *)
Definition tapped : World :=
  drain 20 (pageAt 1000 (Some 7%nat))
        (start (fst (add None [eventOn "tap" "#btn" None] player0))).

(** Scenario S3: a click on ['#missing'] with timeout 200, polled at
    times 1000 and 1300. *)
Definition missing : World :=
  run [(pageAt 1000 None, he_timer 1); (pageAt 1300 None, he_timer 2)]
      (start (fst (add None [eventOn "click" "#missing" (Some 200)] player0))).

(** A function that calls [pause] at once, followed by another
    playable. *)
Definition pausing : World :=
  drain 20 (pageAt 1000 None)
        (start (fst (add None [syncFn [act_pause]; syncFn []] player0))).

(** A single function playable that declares [done], never calls it and
    is timed out by its watch dog. *)
Definition forgetful : World :=
  drain 20 (pageAt 1000 None)
        (start (fst (add None [ent_function (mkFn 1 [] false)] player0))).

(** The global timeout at 0, and a playable with its own timeout. *)
Definition untimed : World :=
  newPlayer (mkOptions 0 true) false (Some 3000) (Some 0) (Some 0).

(** Scenario S4 at the moment the second playable, the function that
    enqueues, has been taken up and is about to be played. *)
Definition nestedAtCallback : World :=
  hostStep (pageAt 1000 None) (he_timer 1) nested.
(** ** Further scenarios *)

(** Two function playables on a started player: the first is pending
    and the host holds the player's timer. *)
Definition queuedTwo : World :=
  start (fst (add None [syncFn []; syncFn []] player0)).

(** The same two playables on a player that is not started yet. *)
Definition idleTwo : World := fst (add None [syncFn []; syncFn []] player0).

(** A function playable that declares [done] has been called and has
    not called it yet, with a second playable behind it. *)
Definition awaitingDone : World :=
  hostStep (pageAt 1000 None) (he_timer 1)
    (start (fst (add None [ent_function (mkFn 1 [] false); syncFn []]
                     player0))).

(** A click on ['#btn'] in the queue of a player that is not started. *)
Definition clickQueued : World :=
  fst (add None [eventOn "click" "#btn" None] player0).

(** [clickQueued] after a first readiness check in a page where
    ['#btn'] is node 7. *)
Definition clickChecked : World :=
  snd (targetReady (pageAt 1000 (Some 7%nat)) which_target 0%nat clickQueued).

(** A tap's first two events: a pointerdown on ['#btn'] and a pointerup
    on the same target by back reference; the pointerdown has been
    checked in a page where ['#btn'] is node 7. *)
Definition downUp : World :=
  snd (targetReady (pageAt 1000 (Some 7%nat)) which_target 0%nat
         (fst (add None
                 [eventOn "pointerdown" "#btn" None;
                  ent_config (mkConfig (Some "pointerup") (Some (ct_num (-1)))
                                       None None None None tri_default
                                       tri_default None None noPayload)]
                 player0))).

(** A playable whose own [ready] function is number 0, which throws
    ['boom'] in the page [throwingPage]. *)
Definition customQueued : World :=
  start (fst (add None
                [ent_config (mkConfig None None None None None None
                                      tri_default tri_default
                                      (Some (rd_custom 0)) None noPayload)]
                player0)).

Definition throwingPage : Env :=
  mkEnv 1000 1001 (fun _ => None) (fun _ => false) (fun _ => true) false
        (fun _ => rr_throw "boom") (fun _ => true) (fun _ => None)
        (fun _ => "btn") (fun _ => "DIV").

(** The part of the queue that stands before the playables [add]
    inserts: the queue up to the insertion index, or the whole queue
    when [add] appends.  Numeric targets count backwards from it. *)
Definition addPrefix (index : option nat) (entries : list Entry) (w : World)
  : list ref :=
  let idx := fst (insertIndex index (length entries) w) in
  if (idx <? length (events w))%nat then take idx (events w) else events w.

(** ** Playing plain playables *)

(** The fields of a playable that decide how it is played and that
    playing leaves alone. *)
Definition coreFields (p : Playable) :=
  (p_fn p, p_ready p, p_target p, p_relatedTarget p, p_type p, p_targetEl p,
   p_relatedEl p).

(** A playable the player plays without looking anything up: no
    function, no [ready] of its own, no target and no related target,
    and a type that is not expanded into other events. *)
Definition plain (w : World) (r : ref) : Prop :=
  (r < length (store w))%nat
  /\ p_fn (getP r w) = None /\ p_ready (getP r w) = None
  /\ p_target (getP r w) = None /\ p_relatedTarget (getP r w) = None
  /\ p_type (getP r w) <> Some "tap" /\ p_type (getP r w) <> Some "type".

(** What the injector is handed when a plain playable is played:
    nothing when it has no event type. *)
Definition injectionOf (w : World) (r : ref) : list Emit :=
  let p := getP r w in
  if isEventType (p_type p)
  then [ev_inject r (default EmptyString (p_type p))
                  (withDom (p_targetEl p) w) (withDom (p_relatedEl p) w)]
  else [].

(** Two worlds with the same wrappers and gesture queue and the same
    playables as far as [coreFields] go. *)
Definition sameCore (w w1 : World) : Prop :=
  length (store w1) = length (store w) /\ els w1 = els w
  /\ gestureQueue w1 = gestureQueue w
  /\ forall r, coreFields (getP r w1) = coreFields (getP r w).

(** A page without running animations. *)
Definition calm (env : Env) : Prop := animating env = false.

(** A text typed into no particular element, in the queue of a player
    that is not started. *)
Definition typing : World :=
  fst (add None
         [ent_config (mkConfig (Some "type") None None None None None
                               tri_default tri_default None None
                               (mkPayload None None None None None None None
                                          (Some "ab") None None))]
         player0).

(** Two key events and a delay between them, without targets. *)
Definition keysQueued : World :=
  fst (add None
         [ent_config (mkConfig (Some "keydown") None None None None None
                               tri_default tri_default None None noPayload);
          ent_number 50;
          ent_config (mkConfig (Some "keyup") None None None None None
                               tri_default tri_default None None noPayload)]
         player0).

(** The first two events of a tap as [add] is given them: a
    pointerdown on ['#btn'] and a pointerup on the target one entry
    back. *)
Definition pointerUp : Config :=
  mkConfig (Some "pointerup") (Some (ct_num (-1))) None None None None
           tri_default tri_default None None noPayload.

Definition tapHead : list Entry :=
  [eventOn "pointerdown" "#btn" None; ent_config pointerUp].

(** A playable's target, or related target, leads to the locator
    string [s]: it is that string, or an earlier playable whose own
    leads to it. *)
Inductive refersTo (w : World) (which : Which) : ref -> string -> Prop :=
| refers_here (r : ref) (s : string) :
    getTarget which (getP r w) = Some (tgt_loc (loc_str s)) ->
    truthyStr s = true -> refersTo w which r s
| refers_back (r t : ref) (s : string) :
    getTarget which (getP r w) = Some (tgt_playable t) -> (t < r)%nat ->
    refersTo w which t s -> refersTo w which r s.

(** The head of a tap in the queue, with the pointerup checked in a
    page where ['#btn'] is not found yet. *)
Definition tapWaiting : World :=
  snd (targetReady (pageAt 1000 None) which_target 1%nat
         (fst (add None tapHead player0))).

(** A store of records 1 to 3, each found under its own number. *)
Definition smallStore : Store nat nat nat :=
  mkStore (fun id => if bool_decide (1 <= id <= 3)%nat then Some id else None)
          (fun _ => None) (fun _ _ => [1; 2; 3]%nat) [1; 2; 3]%nat
          (fun _ _ => None).

(** Records 1 and 3 are asked for by id, to be selected. *)
Definition oneAndThree : SelConfig nat nat :=
  mkSelConfig sel_id (Some [1; 3]%nat) None None None EmptyString None
              mode_select.

(** ** ST.Test (orion.js)

    Tests are objects that point to their parent and hold an array of
    results, which [getResults] may hand out or copy.  Tests and arrays
    live in stores addressed by number; array 0 is [EMPTY], the
    reusable empty array of the file. *)

(** A result object; [addResult] sets its [status]. *)
Record Result := mkResult {
  res_passed : bool;
  res_disabled : bool;
  res_message : string;
  res_status : option string
}.

Record Test := mkTest {
  t_parent : option nat;
  t_results : option nat;      (* [null], or the address of an array *)
  t_failures : nat;
  t_started : bool;
  t_stopped : bool
}.

Record TestStore := mkTestStore {
  ts_tests : list Test;
  ts_arrays : list (list Result);
  ts_current : option nat      (* ST.Test.current *)
}.

Definition EMPTY : nat := 0%nat.

Definition testStore0 : TestStore := mkTestStore [] [[]] None.

Definition protoTest : Test := mkTest None None 0 false false.

Definition getT (t : nat) (s : TestStore) : Test :=
  default protoTest (ts_tests s !! t).

Definition getA (a : nat) (s : TestStore) : list Result :=
  default [] (ts_arrays s !! a).

(** The constructor. *)
Definition newTest (s : TestStore) : nat * TestStore :=
  (length (ts_tests s),
   mkTestStore (ts_tests s ++ [mkTest (ts_current s) None 0 false false])
               (ts_arrays s) (Some (length (ts_tests s)))).

Definition withStatus (r : Result) : Result :=
  mkResult (res_passed r) (res_disabled r) (res_message r)
           (Some (if res_disabled r then "disabled"
                  else if res_passed r then "passed" else "failed")).

Definition addResult (t : nat) (result : Result) (s : TestStore) : TestStore :=
  let me := getT t s in
  let '(a, arrays) := match t_results me with
                      | Some a => (a, ts_arrays s)
                      | None => (length (ts_arrays s), ts_arrays s ++ [[]])
                      end in
  let arrays := alter (fun l => l ++ [withStatus result]) a arrays in
  let failures := if res_passed result then t_failures me
                  else S (t_failures me) in
  mkTestStore (<[t := mkTest (t_parent me) (Some a) failures (t_started me)
                              (t_stopped me)]> (ts_tests s))
              arrays (ts_current s).

(** The loops of [hasResults] and [isFailure] up the parents; [fuel]
    bounds them, and an exhausted loop, which a cycle of parents alone
    can cause, is rendered as false. *)
Fixpoint hasResultsFrom (fuel : nat) (t : nat) (s : TestStore) : bool :=
  match fuel with
  | O => false
  | S fuel' =>
      if isSome (t_results (getT t s)) then true
      else match t_parent (getT t s) with
           | Some p => hasResultsFrom fuel' p s
           | None => false
           end
  end.

Definition hasResults (t : nat) (s : TestStore) : bool :=
  hasResultsFrom (S (length (ts_tests s))) t s.

Fixpoint isFailureFrom (fuel : nat) (t : nat) (s : TestStore) : bool :=
  match fuel with
  | O => false
  | S fuel' =>
      if negb (t_failures (getT t s) =? 0)%nat then true
      else match t_parent (getT t s) with
           | Some p => isFailureFrom fuel' p s
           | None => false
           end
  end.

Definition isFailure (t : nat) (s : TestStore) : bool :=
  isFailureFrom (S (length (ts_tests s))) t s.

(** [results.slice()] *)
Definition slice (a : nat) (s : TestStore) : nat * TestStore :=
  (length (ts_arrays s),
   mkTestStore (ts_tests s) (ts_arrays s ++ [getA a s]) (ts_current s)).

(** [ret.push.apply(ret, results)] *)
Definition pushAll (ret results : nat) (s : TestStore) : TestStore :=
  mkTestStore (ts_tests s)
              (alter (fun l => l ++ getA results s) ret (ts_arrays s))
              (ts_current s).

(** [getResults(fork)]: the address of the array it returns.  [None]
    when the recursion up the parents exhausts [fuel]. *)
Fixpoint getResultsFrom (fuel : nat) (fork : bool) (t : nat) (s : TestStore)
  : option (nat * TestStore) :=
  match fuel with
  | O => None
  | S fuel' =>
      let me := getT t s in
      let results := default EMPTY (t_results me) in
      let n := length (getA results s) in
      match t_parent me with
      | Some parent =>
          if hasResults parent s then
            match getResultsFrom fuel' (fork || (0 <? n)%nat) parent s with
            | Some (ret, s1) =>
                if (0 <? n)%nat then Some (ret, pushAll ret results s1)
                else Some (ret, s1)
            | None => None
            end
          else if fork then Some (slice results s)
          else Some (results, s)
      | None =>
          if fork then Some (slice results s) else Some (results, s)
      end
  end.

Definition getResults (fork : bool) (t : nat) (s : TestStore)
  : option (nat * TestStore) :=
  getResultsFrom (S (length (ts_tests s))) fork t s.

(** *** Views *)

(** A test and its ancestors, the outermost first. *)
Fixpoint lineage (fuel : nat) (t : nat) (s : TestStore) : list nat :=
  match fuel with
  | O => []
  | S fuel' =>
      match t_parent (getT t s) with
      | Some p => lineage fuel' p s ++ [t]
      | None => [t]
      end
  end.

(** The results a test holds itself. *)
Definition ownResults (t : nat) (s : TestStore) : list Result :=
  match t_results (getT t s) with
  | Some a => getA a s
  | None => []
  end.

(** Stores as the constructor and [addResult] make them: the current
    test is one of the store, a parent is an earlier test, and a test's
    array is one of the store other than [EMPTY], which is empty. *)
Definition wfTests (s : TestStore) : Prop :=
  getA EMPTY s = [] /\ (0 < length (ts_arrays s))%nat
  /\ (forall c, ts_current s = Some c -> (c < length (ts_tests s))%nat)
  /\ forall t me, ts_tests s !! t = Some me ->
       (forall p, t_parent me = Some p -> (p < t)%nat)
       /\ (forall a, t_results me = Some a ->
             (0 < a < length (ts_arrays s))%nat).

(** A suite with a passed result, a spec in it with a failed one, and a
    second spec without results. *)
Definition threeTests : TestStore :=
  let s := snd (newTest testStore0) in
  let s := addResult 0 (mkResult true false "set up" None) s in
  let s := snd (newTest s) in
  let s := addResult 1 (mkResult false false "expected 1 to be 2" None) s in
  snd (newTest s).

(** ** ST.globRegex (orion.js) *)

Section GlobRegex.
Import Stdlib.Strings.Ascii.

(** One round of the loop over the characters of the glob: what is
    appended to the regular expression, and [inGroup] afterwards.  The
    cases for the question mark, the brackets and the braces fall
    through to the case of the comma when [extended] is off. *)
Definition globChar (extended inGroup : bool) (c : Ascii.ascii) : string * bool :=
  let escaped := (String "\" (String c EmptyString), inGroup) in
  let comma := if inGroup then ("|", inGroup) else escaped in
  match c with
  | "\"%char | "/"%char | "$"%char | "^"%char | "+"%char | "."%char
  | "("%char | ")"%char | "="%char | "!"%char | "|"%char => escaped
  | "?"%char => if extended then (".", inGroup) else comma
  | "["%char | "]"%char =>
      if extended then (String c EmptyString, inGroup) else comma
  | "{"%char => if extended then ("(", true) else comma
  | "}"%char => if extended then (")", false) else comma
  | ","%char => comma
  | "*"%char => (".*", inGroup)
  | _ => (String c EmptyString, inGroup)
  end.

Fixpoint globBody (extended inGroup : bool) (str : string) : string :=
  match str with
  | EmptyString => EmptyString
  | String c rest =>
      let '(out, inGroup) := globChar extended inGroup c in
      out +:+ globBody extended inGroup rest
  end.

(** [flags.indexOf('g')] is not -1 *)
Fixpoint hasChar (c : Ascii.ascii) (s : string) : bool :=
  match s with
  | EmptyString => false
  | String d rest => if Ascii.eqb c d then true else hasChar c rest
  end.

(** The arguments [globRegex] gives the [RegExp] constructor. *)
Record RegExpArgs := mkRegExpArgs {
  re_source : string;
  re_flags : string
}.

(** [globRegex(glob, opts)]: [glob] is [None] for [null] or [undefined];
    [extended] is [!!opts.extended] and [flags] is [opts.flags] when it
    is a string. *)
Definition globRegex (glob : option string) (extended : bool)
  (flags : option string) : option RegExpArgs :=
  match glob with
  | None => None
  | Some str =>
      let flags := default EmptyString flags in
      let reStr := globBody extended false str in
      let reStr := if negb (truthyStr flags) || negb (hasChar "g" flags)
                   then "^" +:+ reStr +:+ "$" else reStr in
      Some (mkRegExpArgs reStr flags)
  end.

(** Reading a glob back from the body of the expression made of it. *)
Fixpoint unglob (re : string) : string :=
  match re with
  | EmptyString => EmptyString
  | String "\" (String c rest) => String c (unglob rest)
  | String "." (String "*" rest) => String "*" (unglob rest)
  | String "." rest => String "?" (unglob rest)
  | String "(" rest => String "{" (unglob rest)
  | String ")" rest => String "}" (unglob rest)
  | String "|" rest => String "," (unglob rest)
  | String c rest => String c (unglob rest)
  end.

End GlobRegex.

(** ** ST.Tests (orion.js) *)

(** What [ST.Tests] does to the outside: it blocks and unblocks the
    gate [ST.testsReady], subscribes [start] to [ST.ready], sends the
    messages 'afterFile' and 'beforeFile', calls a test function, which
    finds [ST.currentTestFile] as given, and defers [next]. *)
Inductive TOut :=
| to_block
| to_onReady
| to_unblock
| to_afterFile (file : string)
| to_beforeFile (file : string)
| to_run (fn : nat) (currentTestFile : option string)
| to_deferNext (ms : Z).

Record TestsQ := mkTestsQ {
  tq_evaluateTestsOnReady : bool;       (* ST.options.evaluateTestsOnReady *)
  tq_lastFile : option string;
  tq_currentTestFile : option string;   (* ST.currentTestFile *)
  tq_queue : list (option string * nat);
  tq_running : nat;
  tq_out : list TOut
}.

Definition tq_emit (o : TOut) (s : TestsQ) : TestsQ :=
  mkTestsQ (tq_evaluateTestsOnReady s) (tq_lastFile s) (tq_currentTestFile s)
           (tq_queue s) (tq_running s) (tq_out s ++ [o]).

Definition tq_setLast (f : option string) (s : TestsQ) : TestsQ :=
  mkTestsQ (tq_evaluateTestsOnReady s) f (tq_currentTestFile s)
           (tq_queue s) (tq_running s) (tq_out s).

Definition tq_setCurrent (f : option string) (s : TestsQ) : TestsQ :=
  mkTestsQ (tq_evaluateTestsOnReady s) (tq_lastFile s) f
           (tq_queue s) (tq_running s) (tq_out s).

Definition tq_setQueue (q : list (option string * nat)) (s : TestsQ)
  : TestsQ :=
  mkTestsQ (tq_evaluateTestsOnReady s) (tq_lastFile s) (tq_currentTestFile s)
           q (tq_running s) (tq_out s).

Definition tq_setRunning (n : nat) (s : TestsQ) : TestsQ :=
  mkTestsQ (tq_evaluateTestsOnReady s) (tq_lastFile s) (tq_currentTestFile s)
           (tq_queue s) n (tq_out s).

(** Truthiness of a file: a string that is not empty. *)
Definition truthyFile (f : option string) : bool :=
  match f with Some s => truthyStr s | None => false end.

Definition setFile (file : option string) (s : TestsQ) : TestsQ :=
  let lastFile := tq_lastFile s in
  let s :=
    if negb (bool_decide (lastFile = file)) then
      let s := if truthyFile lastFile
               then tq_emit (to_afterFile (default EmptyString lastFile)) s
               else s in
      let s := tq_setLast file s in
      if truthyFile file
      then tq_emit (to_beforeFile (default EmptyString file)) s
      else s
    else s in
  tq_setCurrent file s.

(** The test function runs.  Calls of [enqueue] it makes find [running]
    other than 0 and run their functions at once, as part of it. *)
Definition runTestFn (fn : nat) (s : TestsQ) : TestsQ :=
  tq_emit (to_run fn (tq_currentTestFile s)) s.

Definition enqueueTest (testFn : nat) (s : TestsQ) : TestsQ :=
  if negb (tq_evaluateTestsOnReady s) || negb (tq_running s =? 0)%nat
  then runTestFn testFn s
  else
    let s := if (length (tq_queue s) =? 0)%nat
             then tq_emit to_onReady (tq_emit to_block s) else s in
    tq_setQueue (tq_queue s ++ [(tq_currentTestFile s, testFn)]) s.

Definition nextTest (s : TestsQ) : TestsQ :=
  match tq_queue s with
  | [] => s
  | (file, fn) :: rest =>
      let s := tq_setQueue rest s in
      let s := setFile file s in
      let s := tq_setRunning (S (tq_running s)) s in
      let s := runTestFn fn s in
      let s := tq_setRunning (Nat.pred (tq_running s)) s in
      if negb (length rest =? 0)%nat
      then tq_emit (to_deferNext 10) (tq_setCurrent None s)
      else tq_emit to_unblock (setFile None s)
  end.

(** *** Views *)

(** The test functions called, each with the file it found current. *)
Definition runsOf (out : list TOut) : list (nat * option string) :=
  omap (fun o => match o with
                 | to_run fn file => Some (fn, file)
                 | _ => None
                 end) out.

(** Reading the output with the file that is open: 'beforeFile' opens a
    file when none is open, 'afterFile' closes the open file, and a test
    function finds the open file current.  [None] when the output does
    not read so. *)
Fixpoint fileOpenAfter (open : option string) (out : list TOut)
  : option (option string) :=
  match out with
  | [] => Some open
  | to_beforeFile f :: rest =>
      match open with
      | None => fileOpenAfter (Some f) rest
      | Some _ => None
      end
  | to_afterFile f :: rest =>
      if bool_decide (open = Some f) then fileOpenAfter None rest else None
  | to_run _ file :: rest =>
      if bool_decide (file = open) then fileOpenAfter open rest else None
  | _ :: rest => fileOpenAfter open rest
  end.

(** What [setFile] sends when it is given a file. *)
Definition opening (last : option string) (f : string) : list TOut :=
  if bool_decide (last = Some f) then []
  else (if truthyFile last then [to_afterFile (default EmptyString last)]
        else []) ++ [to_beforeFile f].

(** Test files are loaded: each test function is enqueued while
    [ST.currentTestFile] is its file. *)
Definition loadTests (q : list (option string * nat)) (s : TestsQ) : TestsQ :=
  fold_left (fun s x => enqueueTest (snd x) (tq_setCurrent (fst x) s)) q s.

(** [ST.Tests] before anything is enqueued, with
    [ST.options.evaluateTestsOnReady] on. *)
Definition testsQ0 : TestsQ := mkTestsQ true None None [] 0 [].

(** How often the gate is unblocked. *)
Definition unblocks (out : list TOut) : nat :=
  length (omap (fun o => match o with
                         | to_unblock => Some tt
                         | _ => None
                         end) out).

(** Two test functions of file 'a.js' and one of 'b.js'. *)
Definition threeFns : list (option string * nat) :=
  [(Some "a.js", 0%nat); (Some "a.js", 1%nat); (Some "b.js", 2%nat)].

(** * Properties *)

(** ** The watch dog *)

Section WatchDogFacts.
Context {A C S : Type}.
Variable opts : Options.
Variable tick : A.

Abbreviation Dog := (WatchDog C S).
Abbreviation step := (wdStep (A:=A) (C:=C) (S:=S)).

Lemma deferCancel_not_pending (id : Z) (h : Host A) :
  pendingTimer id (deferCancel id h) = None.
Proof.
  unfold pendingTimer, deferCancel; simpl.
  induction (timers h) as [|t ts IH]; simpl; [reflexivity|].
  rewrite filter_cons. destruct (decide (timer_id t <> id)) as [Hne|Heq]; simpl.
  - destruct (Z.eqb_spec (timer_id t) id); [contradiction|exact IH].
  - exact IH.
Qed.

Lemma pendingTimer_deferred (h : Host A) (ms : Z) (a : A) :
  pendingTimer (fst (defer a ms h)) (snd (defer a ms h)) <> None.
Proof.
  unfold pendingTimer, defer; cbn [fst snd timers].
  induction (timers h) as [|t ts IH]; cbn [app find timer_id].
  - rewrite Z.eqb_refl. discriminate.
  - destruct (timer_id t =? Z.pos (next_timer h)); [discriminate|exact IH].
Qed.

Lemma wd_cancel_timer (w : Dog) (h : Host A) :
  wd_timer (fst (wd_cancel w h)) = None
  /\ wd_callback (fst (wd_cancel w h)) = wd_callback w.
Proof.
  unfold wd_cancel. destruct (wd_timer w) eqn:E; simpl; auto.
Qed.

(** Without a stored callback no method invokes anything, and the
    callback stays cleared. *)
Lemma wdStep_cleared (op : WdOp) (w : Dog) (h : Host A) :
  wd_callback w = None ->
  snd (step op w h) = None /\ wd_callback (fst (fst (step op w h))) = None.
Proof.
  intros Hcb. destruct op as [|e|id|]; simpl.
  - unfold wd_done, wd_fire. rewrite Hcb.
    destruct (wd_cancel w h) as [w1 h1] eqn:E; simpl.
    pose proof (wd_cancel_timer w h) as [_ H]. rewrite E in H; simpl in H.
    split; [reflexivity|congruence].
  - unfold wd_fail, wd_fire. rewrite Hcb.
    destruct (wd_cancel w h) as [w1 h1] eqn:E; simpl.
    pose proof (wd_cancel_timer w h) as [_ H]. rewrite E in H; simpl in H.
    split; [reflexivity|congruence].
  - destruct (hostFires id h) as [[a h']|]; simpl; [|auto].
    unfold wd_onTick. destruct (wd_timer w); simpl; [|auto].
    unfold wd_fire, wd_cancel; simpl. rewrite Hcb. auto.
  - unfold wd_destroy. destruct (wd_cancel w h) as [w1 h1]; simpl. auto.
Qed.

(** A method that invokes the callback leaves it cleared. *)
Lemma wdStep_invokes_clears (op : WdOp) (w : Dog) (h : Host A) i :
  snd (step op w h) = Some i ->
  wd_callback (fst (fst (step op w h))) = None.
Proof.
  destruct op as [|e|id|]; simpl.
  - unfold wd_done, wd_fire.
    destruct (wd_cancel w h), (wd_callback w); simpl; [reflexivity|discriminate].
  - unfold wd_fail, wd_fire.
    destruct (wd_cancel w h), (wd_callback w); simpl; [reflexivity|discriminate].
  - destruct (hostFires id h) as [[a h']|]; simpl; [|discriminate].
    unfold wd_onTick. destruct (wd_timer w); simpl; [|discriminate].
    unfold wd_fire, wd_cancel; simpl.
    destruct (wd_callback w); simpl; [reflexivity|discriminate].
  - unfold wd_destroy. destruct (wd_cancel w h); simpl. discriminate.
Qed.

Lemma wdRun_cleared (ops : list WdOp) (w : Dog) (h : Host A) :
  wd_callback w = None -> wdRun ops w h = [].
Proof.
  revert w h. induction ops as [|op rest IH]; intros w h Hcb; [reflexivity|].
  simpl. pose proof (wdStep_cleared op w h Hcb) as [Hnone Hstill].
  destruct (step op w h) as [[w' h'] inv]; simpl in *. subst inv.
  apply IH, Hstill.
Qed.

Lemma wdRun_at_most_once (ops : list WdOp) (w : Dog) (h : Host A) :
  (length (wdRun ops w h) <= 1)%nat.
Proof.
  revert w h. induction ops as [|op rest IH]; intros w h; simpl; [lia|].
  pose proof (wdStep_invokes_clears op w h) as Hclr.
  destruct (step op w h) as [[w' h'] [i|]]; simpl in *.
  - rewrite (wdRun_cleared rest w' h' (Hclr i eq_refl)). simpl. lia.
  - apply IH.
Qed.

(** The state a constructor leaves: the callback is stored and the timer
    property holds what [ST.timeout] returned. *)
Lemma newWatchDog_state (cb : C) (scope : option S) (timeout : option Z)
  (h : Host A) :
  let '(w0, h0) := newWatchDog opts tick cb scope timeout h in
  wd_callback w0 = Some cb
  /\ wd_timeout w0 = timeout
  /\ (wd_timer w0 = Some emptyFn /\ h0 = h
      \/ exists ms, wd_timer w0 = Some (cancelFn (Z.pos (next_timer h)) ms)
                    /\ hostFires (Z.pos (next_timer h)) h0 <> None).
Proof.
  unfold newWatchDog, wd_set, wd_cancel; simpl.
  unfold ST_timeout.
  match goal with |- context [truthyZ ?v] =>
    set (m := v); destruct (truthyZ m) eqn:E end.
  - unfold ST_doTimeout, defer; simpl. repeat split.
    right. eexists. split; [reflexivity|].
    unfold hostFires.
    pose proof (pendingTimer_deferred h m tick) as Hp. simpl in Hp.
    destruct (pendingTimer _ _); [discriminate|contradiction].
  - simpl. repeat split. left. auto.
Qed.

Lemma wdStep_first (cb : C) (scope : option S) (timeout : option Z)
  (h : Host A) (op : WdOp) :
  let w0 := fst (newWatchDog opts tick cb scope timeout h) in
  let h0 := snd (newWatchDog opts tick cb scope timeout h) in
  firstReport w0 op ->
  exists w' h',
    step op w0 h0 = (w', h', Some (cb, reportArg w0 op))
    /\ wd_callback w' = None /\ wd_timer w' = None
    /\ (forall id ms, wd_timer w0 = Some (cancelFn id ms) ->
                      pendingTimer id h' = None).
Proof.
  pose proof (newWatchDog_state cb scope timeout h) as Hst.
  destruct (newWatchDog opts tick cb scope timeout h) as [w0 h0].
  destruct Hst as (Hcb & Hto & Htimer). cbn [fst snd]. intros Hop.
  destruct op as [|e|id|]; simpl in *; try contradiction.
  - unfold wd_done, wd_fire, wd_cancel. rewrite Hcb.
    destruct Htimer as [[Ht ->]|[ms [Ht Hp]]]; rewrite Ht; simpl.
    + do 2 eexists. repeat split. intros; discriminate.
    + do 2 eexists. repeat split. intros id ms' [= <- <-].
      apply deferCancel_not_pending.
  - unfold wd_fail, wd_fire, wd_cancel. rewrite Hcb.
    destruct Htimer as [[Ht ->]|[ms [Ht Hp]]]; rewrite Ht; simpl.
    + do 2 eexists. repeat split. intros; discriminate.
    + do 2 eexists. repeat split. intros id ms' [= <- <-].
      apply deferCancel_not_pending.
  - destruct Hop as [ms Hid].
    destruct Htimer as [[Ht ->]|[ms' [Ht Hp]]]; rewrite Ht in Hid;
      [discriminate|]. injection Hid as <- <-.
    unfold hostFires in *.
    destruct (pendingTimer (Z.pos (next_timer h)) h0) as [t|] eqn:Ep;
      [|contradiction].
    unfold wd_onTick. rewrite Ht. unfold wd_fire, wd_cancel; simpl.
    rewrite Hcb. do 2 eexists. repeat split.
    intros id ms [= <- <-]. apply deferCancel_not_pending.
Qed.

(** Once callback and timer are gone, [done], [fail] and [onTick] change
    nothing and invoke nothing. *)
Lemma wd_spent_noop (w : Dog) (h : Host A) (e : option string) :
  wd_callback w = None -> wd_timer w = None ->
  wd_done w h = (w, h, None) /\ wd_fail e w h = (w, h, None)
  /\ wd_onTick w h = (w, h, None).
Proof.
  intros Hcb Ht. unfold wd_done, wd_fail, wd_onTick, wd_fire, wd_cancel.
  rewrite Hcb, Ht. auto.
Qed.

Lemma wd_destroy_cleared (w : Dog) (h : Host A) :
  wd_callback (fst (wd_destroy w h)) = None.
Proof. unfold wd_destroy. destruct (wd_cancel w h); reflexivity. Qed.

End WatchDogFacts.

(** C10.  A watch dog invokes its callback at most once.  For a watch
    dog as its constructor leaves it: whatever sequence of [done],
    [fail], timer ticks and [destroy] follows, the callback is invoked
    at most once; the first of [done], [fail] and the tick of the armed
    timer invokes it, with [null], the error or the time-out message,
    after which the callback is cleared, the timer property is cleared
    and the armed timer is no longer pending in the host; from then on
    [done], [fail] and [onTick] change nothing and invoke nothing; and
    after [destroy] no sequence of operations invokes the callback. *)
Theorem watchdog_invokes_callback_at_most_once
  {A C S : Type} (opts : Options) (tick : A) (cb : C) (scope : option S)
  (timeout : option Z) (h : Host A) :
  let w0 := fst (newWatchDog opts tick cb scope timeout h) in
  let h0 := snd (newWatchDog opts tick cb scope timeout h) in
  (forall ops, (length (wdRun ops w0 h0) <= 1)%nat)
  /\ (forall op, firstReport w0 op ->
       exists w' h',
         wdStep op w0 h0 = (w', h', Some (cb, reportArg w0 op))
         /\ wd_callback w' = None /\ wd_timer w' = None
         /\ (forall id ms, wd_timer w0 = Some (cancelFn id ms) ->
                           pendingTimer id h' = None)
         /\ (forall (h1 : Host A) e, wd_done w' h1 = (w', h1, None)
                          /\ wd_fail e w' h1 = (w', h1, None)
                          /\ wd_onTick w' h1 = (w', h1, None))
         /\ (forall ops, wdRun ops w' h' = []))
  /\ (forall ops,
        wdRun ops (fst (wd_destroy w0 h0)) (snd (wd_destroy w0 h0)) = []).
Proof.
  intros w0 h0. split; [|split].
  - intros ops. apply wdRun_at_most_once.
  - intros op Hop.
    destruct (wdStep_first opts tick cb scope timeout h op Hop)
      as (w' & h' & Hstep & Hcb & Ht & Hp).
    exists w', h'. repeat split; try assumption.
    + apply (wd_spent_noop w' h1 e Hcb Ht).
    + apply (wd_spent_noop w' h1 e Hcb Ht).
    + apply (wd_spent_noop w' h1 e Hcb Ht).
    + intros ops. apply wdRun_cleared, Hcb.
  - intros ops. apply wdRun_cleared.
    pose proof (wd_destroy_cleared w0 h0) as H.
    destruct (wd_destroy w0 h0); exact H.
Qed.

(** The tick of a watch dog armed for 100 ms is one such first report. *)
Lemma watchdog_invokes_callback_at_most_once_witness :
  let w0 := fst (newWatchDog (mkOptions 5000 true) tt 7%nat (@None unit)
                             (Some 100) host0) in
  let h0 := snd (newWatchDog (mkOptions 5000 true) tt 7%nat (@None unit)
                             (Some 100) host0) in
  firstReport w0 (wo_tick 1)
  /\ exists w' h',
       wdStep (wo_tick 1) w0 h0
       = (w', h', Some (7%nat, wd_timed_out (Some 100) false))
       /\ wd_callback w' = None /\ wd_timer w' = None
       /\ wdRun [wo_done; wo_tick 1; wo_fail None] w' h' = [].
Proof.
  intros w0 h0.
  assert (Hop : firstReport w0 (wo_tick 1)) by (exists 100; reflexivity).
  split; [exact Hop|].
  destruct (watchdog_invokes_callback_at_most_once
              (mkOptions 5000 true) tt 7%nat (@None unit) (Some 100) host0)
    as (_ & Hfirst & _).
  destruct (Hfirst (wo_tick 1) Hop) as (w' & h' & Hs & Hcb & Ht & _ & _ & Hr).
  exists w', h'. repeat split; try assumption. apply Hr.
Defined.

(** ** The selection validator *)

Section SelectionFacts.
Context {R K V : Type} `{EqDecision R} `{EqDecision V}.

Lemma countSelected_le (selections records : list R) :
  (countSelected selections records <= length records)%nat.
Proof.
  induction records as [|r rest IH]; simpl; [lia|].
  destruct (bool_decide (r ∈ selections)); lia.
Qed.

Lemma countSelected_all (selections records : list R) :
  countSelected selections records = length records
  <-> forall r, r ∈ records -> r ∈ selections.
Proof.
  induction records as [|r rest IH]; simpl.
  - split; [intros _ r Hr; inversion Hr|reflexivity].
  - pose proof (countSelected_le selections rest) as Hle.
    destruct (bool_decide_reflect (r ∈ selections)) as [Hin|Hout].
    + split.
      * intros Hc r' Hr'. apply elem_of_cons in Hr' as [->|Hr']; [exact Hin|].
        apply IH; [lia|exact Hr'].
      * intros Hall. f_equal. apply IH. intros r' Hr'. apply Hall.
        apply elem_of_cons; auto.
    + split; [lia|]. intros Hall. exfalso. apply Hout, Hall.
      apply elem_of_cons; auto.
Qed.

Lemma countSelected_none (selections records : list R) :
  countSelected selections records = 0%nat
  <-> forall r, r ∈ records -> r ∉ selections.
Proof.
  induction records as [|r rest IH]; simpl.
  - split; [intros _ r Hr; inversion Hr|reflexivity].
  - destruct (bool_decide_reflect (r ∈ selections)) as [Hin|Hout].
    + split; [discriminate|]. intros Hnone. exfalso.
      apply (Hnone r); [apply elem_of_cons; auto|exact Hin].
    + rewrite IH. split.
      * intros Hn r' Hr'. apply elem_of_cons in Hr' as [->|Hr']; auto.
      * intros Hn r' Hr'. apply Hn, elem_of_cons; auto.
Qed.

Lemma lookupAll_length {I} (fn : I -> option R) (items : list I) :
  (length (lookupAll fn items) <= length items)%nat.
Proof.
  induction items as [|i rest IH]; simpl; [lia|].
  destruct (fn i); simpl; lia.
Qed.

End SelectionFacts.

(** C7, as amended.  With [records] the records the request resolves
    to: the validator returns true exactly when the number of resolved
    records does not differ from the number of requested ids or indexes
    and, in 'select' mode, every resolved record is in the selection,
    or, in any other mode ('deselect'), none of them is.  When the
    numbers differ the result is false whatever the selection holds, so
    no comparison of elements enters it; and for a request by id or by
    index the numbers differ exactly when fewer records resolve than
    were requested. *)
Theorem validateSelections_spec
  {R K V : Type} `{EqDecision R} `{EqDecision V}
  (store : Store R K V) (selections : list R) (config : SelConfig K V)
  (records : list R) :
  getRecords store config = Some records ->
  (validateSelections store selections config = Some true
   <-> lengthMismatch config (length records) = false
       /\ match sel_mode config with
          | mode_select => forall r, r ∈ records -> r ∈ selections
          | mode_other => forall r, r ∈ records -> r ∉ selections
          end)
  /\ (lengthMismatch config (length records) = true ->
      forall others, validateSelections store others config = Some false)
  /\ (forall ids, sel_type config = sel_id -> sel_ids config = Some ids ->
      sel_indexes config = None ->
      (lengthMismatch config (length records) = true
       <-> (length records < length ids)%nat))
  /\ (forall indexes, sel_type config = sel_index ->
      sel_indexes config = Some indexes -> sel_ids config = None ->
      (lengthMismatch config (length records) = true
       <-> (length records < length indexes)%nat)).
Proof.
  intros Hrec. unfold validateSelections. rewrite Hrec.
  split; [|split; [|split]].
  - destruct (lengthMismatch config (length records)) eqn:Hmm.
    + split; [discriminate|intros [? _]; discriminate].
    + destruct (sel_mode config).
      * rewrite <- countSelected_all. split.
        -- intros [= Heq]. apply Nat.eqb_eq in Heq. auto.
        -- intros [_ Heq]. rewrite Heq, Nat.eqb_refl. reflexivity.
      * rewrite <- countSelected_none. split.
        -- intros [= Heq]. apply Nat.eqb_eq in Heq. auto.
        -- intros [_ Heq]. rewrite Heq. reflexivity.
  - intros Hmm others. rewrite Hmm. reflexivity.
  - intros ids Hty Hids Hix. unfold getRecords in Hrec.
    rewrite Hty, Hids in Hrec. injection Hrec as <-.
    pose proof (lookupAll_length (getById store) ids) as Hle.
    unfold lengthMismatch, expectedLength. rewrite Hids, Hix.
    destruct ids as [|i ids'].
    + simpl. split; [discriminate|intros Hlt; inversion Hlt].
    + rewrite negb_true_iff, Nat.eqb_neq. simpl in *. lia.
  - intros indexes Hty Hix Hids. unfold getRecords in Hrec.
    rewrite Hty, Hix in Hrec. injection Hrec as <-.
    pose proof (lookupAll_length (getAt store) indexes) as Hle.
    unfold lengthMismatch, expectedLength. rewrite Hids, Hix.
    rewrite negb_true_iff, Nat.eqb_neq. simpl in *. lia.
Qed.

(** A store of four records with ids 1 to 4, at indexes 0 to 3; the
    record with id [n] is the number [n]. *)
Definition fourRecords : Store nat nat nat :=
  mkStore (fun id => if bool_decide (1 <= id <= 4)%nat then Some id else None)
          (fun i => if bool_decide (0 <= i <= 3) then Some (S (Z.to_nat i))
                    else None)
          (fun _ _ => [1; 2; 3; 4]%nat)
          [1; 2; 3; 4]%nat
          (fun _ _ => None).

Definition byId (ids : list nat) (mode : SelMode) : SelConfig nat nat :=
  mkSelConfig sel_id (Some ids) None None None EmptyString None mode.

(** Scenario S5: records 1 and 3 requested and selected. *)
Lemma validateSelections_spec_witness :
  getRecords fourRecords (byId [1; 3]%nat mode_select) = Some [1; 3]%nat
  /\ validateSelections fourRecords [1; 3]%nat (byId [1; 3]%nat mode_select)
     = Some true.
Proof.
  assert (Hrec : getRecords fourRecords (byId [1; 3]%nat mode_select)
                 = Some [1; 3]%nat) by reflexivity.
  split; [exact Hrec|].
  apply (validateSelections_spec fourRecords [1; 3]%nat _ _ Hrec).
  split; [reflexivity|]. simpl. intros r Hr. exact Hr.
Defined.

(** C7 as stated fails in 'deselect' mode: the record with id 99 is
    requested and does not exist, so none of the requested records is in
    the (empty) selection, and yet the validator returns false. *)
Lemma validateSelections_deselect_counterexample :
  getRecords fourRecords (byId [99]%nat mode_other) = Some []
  /\ ~ (validateSelections fourRecords [] (byId [99]%nat mode_other) = Some true
        <-> forall r : nat, r ∈ @nil nat -> r ∉ @nil nat).
Proof.
  split; [reflexivity|].
  intros [_ Hback].
  assert (Hnone : forall r : nat, r ∈ @nil nat -> r ∉ @nil nat)
    by (intros r Hr; inversion Hr).
  specialize (Hback Hnone). vm_compute in Hback. discriminate.
Qed.

(** ** The player: reading the stores after an update *)

Lemma store_updP (r : ref) (f : Playable -> Playable) (w : World) :
  store (updP r f w) = alter f r (store w).
Proof. reflexivity. Qed.

Lemma store_newP (p : Playable) (w : World) :
  store (snd (newP p w)) = store w ++ [p].
Proof. reflexivity. Qed.

Lemma length_store_updP (r : ref) (f : Playable -> Playable) (w : World) :
  length (store (updP r f w)) = length (store w).
Proof. rewrite store_updP. apply length_alter. Qed.

Lemma getP_updP_eq (r : ref) (f : Playable -> Playable) (w : World) :
  (r < length (store w))%nat -> getP r (updP r f w) = f (getP r w).
Proof.
  intros Hr. unfold getP. rewrite store_updP, list_lookup_alter_eq.
  destruct (lookup_lt_is_Some_2 (store w) r Hr) as [p Hp].
  rewrite Hp. reflexivity.
Qed.

Lemma getP_updP_ne (r r' : ref) (f : Playable -> Playable) (w : World) :
  r <> r' -> getP r' (updP r f w) = getP r' w.
Proof.
  intros Hne. unfold getP. rewrite store_updP.
  rewrite list_lookup_alter_ne by exact Hne. reflexivity.
Qed.

(** An update through a field-preserving function preserves the field,
    whichever playable is read. *)
Lemma getP_updP_field {T} (g : Playable -> T) (r r' : ref)
  (f : Playable -> Playable) (w : World) :
  (forall p, g (f p) = g p) -> g (getP r' (updP r f w)) = g (getP r' w).
Proof.
  intros Hf. destruct (decide (r = r')) as [<-|Hne].
  - unfold getP. rewrite store_updP, list_lookup_alter_eq.
    destruct (store w !! r); simpl; [apply Hf|reflexivity].
  - rewrite getP_updP_ne by exact Hne. reflexivity.
Qed.

Lemma getP_newP_old (p : Playable) (r : ref) (w : World) :
  (r < length (store w))%nat -> getP r (snd (newP p w)) = getP r w.
Proof.
  intros Hr. unfold getP. rewrite store_newP.
  rewrite lookup_app_l by exact Hr. reflexivity.
Qed.

Lemma getP_newP_new (p : Playable) (w : World) :
  getP (fst (newP p w)) (snd (newP p w)) = p.
Proof.
  unfold getP. rewrite store_newP. unfold newP; cbn [fst].
  rewrite lookup_app_r by lia. rewrite Nat.sub_diag. reflexivity.
Qed.

(** ** fail, doError, doTimeout *)

Lemma onEnd_spec (w : World) :
  trace (onEnd w) = trace w ++ endEvents w
  /\ events (onEnd w) = events w
  /\ pendingEvent (onEnd w) = pendingEvent w
  /\ store (onEnd w) = store w.
Proof.
  unfold onEnd, endEvents, emit. destruct (gestureQueue w); simpl;
    rewrite <- ?app_assoc; auto.
Qed.

Lemma cleanup_spec (w : World) :
  events (cleanup w) = [] /\ pendingEvent (cleanup w) = None
  /\ pendingFn (cleanup w) = None /\ eventTimer (cleanup w) = 0
  /\ trace (cleanup w) = trace w /\ store (cleanup w) = store w
  /\ gestureQueue (cleanup w) = gestureQueue w.
Proof.
  unfold cleanup. destruct (truthyZ (eventTimer w)) eqn:E; simpl; repeat split.
  unfold truthyZ in E. apply negb_false_iff, Z.eqb_eq in E. exact E.
Qed.

Lemma fail_busy (message : string) (w : World) :
  busy w = true ->
  events (fail message w) = [] /\ pendingEvent (fail message w) = None
  /\ trace (fail message w) = trace w ++ ev_error message :: endEvents w
  /\ store (fail message w) = store w.
Proof.
  unfold busy, fail. intros ->.
  pose proof (cleanup_spec w) as (He & Hp & _ & _ & Ht & Hs & Hg).
  pose proof (onEnd_spec (emit (ev_error message) (cleanup w)))
    as (Ht' & He' & Hp' & Hs').
  rewrite He', Hp', Ht', Hs'. unfold endEvents.
  change (events (emit (ev_error message) (cleanup w)))
    with (events (cleanup w)).
  change (pendingEvent (emit (ev_error message) (cleanup w)))
    with (pendingEvent (cleanup w)).
  change (store (emit (ev_error message) (cleanup w)))
    with (store (cleanup w)).
  change (gestureQueue (emit (ev_error message) (cleanup w)))
    with (gestureQueue (cleanup w)).
  change (trace (emit (ev_error message) (cleanup w)))
    with (trace (cleanup w) ++ [ev_error message]).
  rewrite He, Hp, Ht, Hs, Hg, <- app_assoc. auto.
Qed.

Lemma fail_idle (message : string) (w : World) :
  busy w = false -> fail message w = w.
Proof. unfold busy, fail. intros ->. reflexivity. Qed.

Lemma store_fail (message : string) (w : World) :
  store (fail message w) = store w.
Proof.
  destruct (busy w) eqn:E.
  - apply fail_busy, E.
  - rewrite fail_idle by exact E. reflexivity.
Qed.

Lemma doTimeout_state (env : Env) (event : ref) (w : World) :
  (event < length (store w))%nat ->
  p_state (getP event w) = st_pending \/ p_state (getP event w) = st_playing ->
  doTimeout env event w
  = fail (timeoutMessage env event (updP event (set_p_state st_done) w))
         (updP event (set_p_state st_done) w)
  /\ p_state (getP event (doTimeout env event w)) = st_done.
Proof.
  intros Hr Hst. unfold doTimeout.
  assert (Hgoal :
    p_state (getP event
      (fail (timeoutMessage env event (updP event (set_p_state st_done) w))
            (updP event (set_p_state st_done) w))) = st_done).
  { unfold getP. rewrite store_fail. fold (getP event (updP event (set_p_state st_done) w)).
    rewrite getP_updP_eq by exact Hr. reflexivity. }
  destruct Hst as [-> | ->]; auto.
Qed.

(** ** playEventSoon, playNext *)

Lemma playEventSoon_spec (event : ref) (delay : option Z) (w : World) :
  let w' := playEventSoon event delay w in
  trace w' = trace w /\ events w' = events w
  /\ pendingEvent w' = pendingEvent w /\ store w' = store w
  /\ eventTimer w' = Z.pos (next_timer (host w))
  /\ timers (host w')
     = timers (host w)
       ++ [mkTimer (Z.pos (next_timer (host w)))
                   (default (waitInterval w) delay) (ta_playEvent event)].
Proof. unfold playEventSoon. simpl. repeat split. Qed.

Lemma playNext_busy (w : World) :
  isSome (pendingEvent w) = true \/ paused w <> 0%nat -> playNext w = w.
Proof.
  unfold playNext. intros [-> | Hp]; [reflexivity|].
  destruct (Nat.eqb_spec (paused w) 0); [contradiction|].
  rewrite andb_false_r. reflexivity.
Qed.

Lemma playNext_empty (w : World) :
  pendingEvent w = None -> paused w = 0%nat -> events w = [] ->
  playNext w = onEnd w.
Proof. unfold playNext. intros -> -> ->. reflexivity. Qed.

Lemma playNext_shift (w : World) (event : ref) (rest : list ref) :
  pendingEvent w = None -> paused w = 0%nat -> events w = event :: rest ->
  let w' := playNext w in
  events w' = rest /\ pendingEvent w' = Some event /\ trace w' = trace w
  /\ store w' = alter (set_p_state st_pending) event (store w)
  /\ timers (host w')
     = timers (host w)
       ++ [mkTimer (Z.pos (next_timer (host w)))
                   (default 0 (p_delay (getP event w))) (ta_playEvent event)].
Proof.
  unfold playNext. intros -> -> ->. simpl. repeat split.
  f_equal. f_equal. f_equal. unfold getP. rewrite store_updP.
  simpl. destruct (decide (event < length (store w))%nat) as [Hlt|Hge].
  - rewrite list_lookup_alter_eq.
    destruct (lookup_lt_is_Some_2 _ _ Hlt) as [p ->]. reflexivity.
  - rewrite list_lookup_alter_eq.
    rewrite (lookup_ge_None_2 (store w) event) by lia. reflexivity.
Qed.

Lemma lineup_playNext (w : World) : lineup (playNext w) = lineup w.
Proof.
  unfold lineup at 2.
  destruct (pendingEvent w) as [e|] eqn:Hpe.
  - rewrite playNext_busy by (left; rewrite Hpe; reflexivity).
    unfold lineup. rewrite Hpe. reflexivity.
  - destruct (Nat.eq_dec (paused w) 0%nat) as [Hp|Hp].
    + destruct (events w) as [|e rest] eqn:Hev.
      * rewrite playNext_empty by assumption.
        unfold lineup. destruct (onEnd_spec w) as (_ & -> & -> & _).
        rewrite Hpe. exact Hev.
      * destruct (playNext_shift w e rest Hpe Hp Hev) as (He & Hpn & _).
        unfold lineup. rewrite Hpn, He. reflexivity.
    + rewrite playNext_busy by (right; exact Hp).
      unfold lineup. rewrite Hpe. reflexivity.
Qed.

(** [playNext] writes nothing into a playable but its state. *)
Lemma playNext_field {T} (g : Playable -> T) (r : ref) (w : World) :
  (forall s p, g (set_p_state s p) = g p) ->
  g (getP r (playNext w)) = g (getP r w).
Proof.
  intros Hg. unfold playNext.
  destruct (negb (isSome (pendingEvent w)) && (paused w =? 0)%nat);
    [|reflexivity].
  destruct (events w) as [|e rest].
  - unfold getP. destruct (onEnd_spec w) as (_ & _ & _ & ->). reflexivity.
  - unfold playEventSoon. simpl.
    change (g (getP r (updP e (set_p_state st_pending) w)) = g (getP r w)).
    apply getP_updP_field. apply Hg.
Qed.

Lemma length_store_playNext (w : World) :
  length (store (playNext w)) = length (store w).
Proof.
  unfold playNext.
  destruct (negb (isSome (pendingEvent w)) && (paused w =? 0)%nat);
    [|reflexivity].
  destruct (events w) as [|e rest].
  - destruct (onEnd_spec w) as (_ & _ & _ & ->). reflexivity.
  - unfold playEventSoon. simpl. apply length_alter.
Qed.

(** ** add *)

Lemma promote_frame (queue : list ref) (t : option CfgTarget) (w : World) :
  store (snd (promote queue t w)) = store w
  /\ control (snd (promote queue t w)) = control w
  /\ settings (snd (promote queue t w)) = settings w
  /\ counters (snd (promote queue t w)) = counters w.
Proof.
  destruct t as [[n|r|[s|s|n|e|n]]|]; simpl; auto.
Qed.

(** [promote] reads the wrappers only. *)
Lemma promote_updP (queue : list ref) (t : option CfgTarget) (r : ref)
  (f : Playable -> Playable) (w : World) :
  promote queue t (updP r f w)
  = (fst (promote queue t w), updP r f (snd (promote queue t w))).
Proof.
  destruct t as [[n|r'|[s|s|n|e|n]]|]; simpl; reflexivity.
Qed.

Lemma promoteTargets_spec (queue : list ref) (r : ref)
  (target related : option CfgTarget) (w : World) :
  (r < length (store w))%nat ->
  let w' := promoteTargets queue r target related w in
  getP r w' = targetsP queue target related w (getP r w)
  /\ (forall r', r' <> r -> getP r' w' = getP r' w)
  /\ length (store w') = length (store w)
  /\ control w' = control w /\ settings w' = settings w
  /\ counters w' = counters w.
Proof.
  intros Hr. unfold promoteTargets, targetsP.
  pose proof (promote_frame queue target w) as (Hs1 & Hc1 & Hg1 & Hn1).
  destruct (promote queue target w) as [[t1 e1] w1] eqn:E1.
  simpl in Hs1, Hc1, Hg1, Hn1.
  assert (Hr1 : (r < length (store w1))%nat) by (rewrite Hs1; exact Hr).
  pose proof (promote_frame queue related w1) as (Hs2 & Hc2 & Hg2 & Hn2).
  assert (Hget : forall r', getP r' (snd (promote queue related w1)) = getP r' w)
    by (intros r'; unfold getP; rewrite Hs2, Hs1; reflexivity).
  assert (Hr2 : (r < length (store (snd (promote queue related w1))))%nat)
    by (rewrite Hs2; exact Hr1).
  destruct e1 as [el1|]; rewrite !promote_updP;
    destruct (promote queue related w1) as [[t2 e2] w2] eqn:E2;
    cbn [fst snd] in *; destruct e2 as [el2|]; cbn [setIf];
    (split; [|split; [|split; [|split; [|split]]]];
     [ rewrite !getP_updP_eq; rewrite ?length_store_updP; try exact Hr2;
       rewrite Hget; reflexivity
     | intros r' Hne; rewrite !getP_updP_ne by auto; apply Hget
     | rewrite !length_store_updP; rewrite Hs2, Hs1; reflexivity
     | rewrite <- Hc1, <- Hc2; reflexivity
     | rewrite <- Hg1, <- Hg2; reflexivity
     | rewrite <- Hn1, <- Hn2; reflexivity ]).
Qed.

Lemma applyDefaults_spec (r : ref) (w : World) :
  (r < length (store w))%nat ->
  let w' := applyDefaults r w in
  getP r w' = defaultsP w (getP r w)
  /\ (forall r', r' <> r -> getP r' w' = getP r' w)
  /\ length (store w') = length (store w)
  /\ control w' = control w /\ settings w' = settings w
  /\ counters w' = counters w /\ els w' = els w.
Proof.
  intros Hr. unfold applyDefaults, defaultsP.
  destruct (negb (isSome (p_delay (getP r w))) && isEventType (p_type (getP r w)));
    destruct (negb (isSome (p_animation (getP r w))));
    cbn [options set_store updP pauseForAnimations pl_timeout];
    destruct (negb (truthyZ (opt_timeout (options w))));
    try destruct (negb (isSome (p_timeout (getP r w))));
    (split; [|split; [|split; [|split; [|split; [|split]]]]];
     [ rewrite ?getP_updP_eq; rewrite ?length_store_updP; try exact Hr;
       reflexivity
     | intros r' Hne; rewrite ?getP_updP_ne by auto; reflexivity
     | rewrite ?length_store_updP; reflexivity
     | reflexivity | reflexivity | reflexivity | reflexivity ]).
Qed.

Lemma enlist_spec (r : ref) (w : World) :
  (r < length (store w))%nat ->
  let w' := enlist r w in
  getP r w' = enlistP (nextId w) (getP r w)
  /\ (forall r', r' <> r -> getP r' w' = getP r' w)
  /\ length (store w') = length (store w)
  /\ control w' = control w /\ settings w' = settings w
  /\ nextId w' = nextId w + 1 /\ els w' = els w.
Proof.
  intros Hr. unfold enlist, enlistP.
  split; [|split; [|split; [|split; [|split; [|split]]]]]; try reflexivity.
  - rewrite getP_updP_eq by (cbn; rewrite length_alter; exact Hr).
    change (getP r (set_nextId ?n ?x)) with (getP r x).
    rewrite getP_updP_eq by exact Hr. reflexivity.
  - intros r' Hne. rewrite getP_updP_ne by auto.
    change (getP r' (set_nextId ?n ?x)) with (getP r' x).
    rewrite getP_updP_ne by auto. reflexivity.
  - cbn. rewrite !length_alter. reflexivity.
Qed.

Lemma getP_newP_other (p : Playable) (r : ref) (w : World) :
  r <> length (store w) -> getP r (snd (newP p w)) = getP r w.
Proof.
  intros Hne. destruct (decide (r < length (store w))%nat) as [Hlt|Hge].
  - apply getP_newP_old, Hlt.
  - unfold getP. rewrite store_newP.
    rewrite (lookup_ge_None_2 (store w ++ [p])) by (rewrite length_app; simpl; lia).
    rewrite (lookup_ge_None_2 (store w)) by lia. reflexivity.
Qed.

Lemma entryPlayable_spec (e : Entry) (w : World) :
  entryOk w e -> notFalsy e ->
  exists w0,
    entryPlayable e w
    = Some (entryRef w e, fst (entryTargets w e), snd (entryTargets w e), w0)
    /\ (entryRef w e < length (store w0))%nat
    /\ getP (entryRef w e) w0 = entryBase w e
    /\ (forall r', r' <> entryRef w e -> getP r' w0 = getP r' w)
    /\ length (store w0)
       = (length (store w) + if isFresh e then 1 else 0)%nat
    /\ control w0 = control w /\ settings w0 = settings w
    /\ counters w0 = counters w /\ els w0 = els w.
Proof.
  intros Hok Hnf.
  assert (Hnew : forall p,
    (length (store w) < length (store (snd (newP p w))))%nat
    /\ getP (length (store w)) (snd (newP p w)) = p
    /\ (forall r', r' <> length (store w) ->
                   getP r' (snd (newP p w)) = getP r' w)
    /\ length (store (snd (newP p w))) = (length (store w) + 1)%nat).
  { intros p. rewrite store_newP, length_app. simpl.
    split; [lia|]. split; [apply (getP_newP_new p w)|].
    split; [|reflexivity]. intros r' Hne. apply getP_newP_other, Hne. }
  destruct e as [|n|f|c|r]; simpl in *; try contradiction.
  - eexists (snd (newP _ w)). split; [reflexivity|].
    destruct (Hnew (set_p_delay (Some n) protoPlayable)) as (H1 & H2 & H3 & H4).
    auto 10.
  - eexists (snd (newP _ w)). split; [reflexivity|].
    destruct (Hnew (ofConfig (mkConfig None None None (Some 0) None None
                                tri_default tri_default None (Some f)
                                noPayload))) as (H1 & H2 & H3 & H4).
    auto 10.
  - eexists (snd (newP _ w)). split; [reflexivity|].
    destruct (Hnew (ofConfig c)) as (H1 & H2 & H3 & H4).
    auto 10.
  - exists w. rewrite Nat.add_0_r. auto 10.
Qed.

(** The promoted targets depend on the world through its wrappers, the
    defaults through its settings. *)
Lemma targetsP_els (queue : list ref) (t rel : option CfgTarget)
  (w w0 : World) (p : Playable) :
  els w0 = els w -> targetsP queue t rel w0 p = targetsP queue t rel w p.
Proof.
  intros He. unfold targetsP.
  assert (Hp : forall q x (wa wb : World), els wa = els wb ->
           fst (promote q x wa) = fst (promote q x wb)
           /\ els (snd (promote q x wa)) = els (snd (promote q x wb))).
  { intros q x wa wb Hab. destruct x as [[n|r|[s|s|n|e|n]]|]; simpl; auto.
    rewrite Hab. auto. }
  destruct (Hp queue t w0 w He) as [H1 H2].
  destruct (promote queue t w0) as [[t1 e1] w1].
  destruct (promote queue t w) as [[t1' e1'] w1'].
  simpl in H1, H2. injection H1 as <- <-.
  destruct (Hp queue rel w1 w1' H2) as [H3 _].
  destruct (promote queue rel w1) as [[t2 e2] w2].
  destruct (promote queue rel w1') as [[t2' e2'] w2'].
  simpl in H3. injection H3 as <- <-. reflexivity.
Qed.

Lemma defaultsP_settings (w w0 : World) (p : Playable) :
  settings w0 = settings w -> defaultsP w0 p = defaultsP w p.
Proof.
  unfold settings, defaultsP. intros [= -> _ -> -> _ -> _]. reflexivity.
Qed.

Lemma addEntry_falsy (w : World) (queue added : list ref) :
  addEntry (w, queue, added) ent_falsy = (w, queue, added).
Proof. reflexivity. Qed.

Lemma addEntry_spec (e : Entry) (w : World) (queue added : list ref) :
  entryOk w e -> notFalsy e ->
  exists w',
    addEntry (w, queue, added) e
    = (w', queue ++ [entryRef w e], added ++ [entryRef w e])
    /\ (entryRef w e < length (store w'))%nat
    /\ getP (entryRef w e) w' = configured w queue e
    /\ (forall r', r' <> entryRef w e -> getP r' w' = getP r' w)
    /\ length (store w')
       = (length (store w) + if isFresh e then 1 else 0)%nat
    /\ control w' = control w /\ settings w' = settings w.
Proof.
  intros Hok Hnf.
  destruct (entryPlayable_spec e w Hok Hnf)
    as (w0 & Hep & Hr0 & Hb0 & Ho0 & Hl0 & Hc0 & Hs0 & Hn0 & He0).
  unfold addEntry. rewrite Hep.
  set (r := entryRef w e) in *.
  set (t := fst (entryTargets w e)). set (rel := snd (entryTargets w e)).
  destruct (promoteTargets_spec queue r t rel w0 Hr0)
    as (Hb1 & Ho1 & Hl1 & Hc1 & Hs1 & Hn1).
  set (w1 := promoteTargets queue r t rel w0) in *.
  assert (Hr1 : (r < length (store w1))%nat) by (rewrite Hl1; exact Hr0).
  destruct (applyDefaults_spec r w1 Hr1)
    as (Hb2 & Ho2 & Hl2 & Hc2 & Hs2 & Hn2 & He2).
  set (w2 := applyDefaults r w1) in *.
  assert (Hr2 : (r < length (store w2))%nat) by (rewrite Hl2; exact Hr1).
  destruct (enlist_spec r w2 Hr2) as (Hb3 & Ho3 & Hl3 & Hc3 & Hs3 & Hn3 & He3).
  set (w3 := enlist r w2) in *.
  exists w3. split; [reflexivity|].
  split; [rewrite Hl3; exact Hr2|].
  split.
  { rewrite Hb3, Hb2, Hb1, Hb0. unfold configured. fold t rel.
    assert (Hid : nextId w2 = nextId w).
    { unfold counters in *. congruence. }
    rewrite Hid.
    rewrite (defaultsP_settings w w1) by congruence.
    rewrite (targetsP_els queue t rel w w0) by exact He0.
    reflexivity. }
  split.
  { intros r' Hne. rewrite Ho3, Ho2, Ho1 by exact Hne. apply Ho0, Hne. }
  split; [rewrite Hl3, Hl2, Hl1; exact Hl0|].
  split; congruence.
Qed.

Lemma addSteady_fn : addSteady p_fn.
Proof. unfold addSteady. repeat split. Qed.

Lemma addSteady_type : addSteady p_type.
Proof. unfold addSteady. repeat split. Qed.

Lemma addSteady_waitStartTime : addSteady p_waitStartTime.
Proof. unfold addSteady. repeat split. Qed.

Lemma addSteady_payload : addSteady p_payload.
Proof. unfold addSteady. repeat split. Qed.

Lemma addSteady_ready : addSteady p_ready.
Proof. unfold addSteady. repeat split. Qed.

Lemma configured_steady {T} (g : Playable -> T) (w : World)
  (queue : list ref) (e : Entry) :
  addSteady g -> g (configured w queue e) = g (entryBase w e).
Proof.
  intros (H1 & H2 & H3 & H4 & H5 & H6 & H7 & H8 & H9).
  unfold configured, enlistP, defaultsP, targetsP.
  destruct (promote queue (fst (entryTargets w e)) w) as [[t1 e1] w1].
  destruct (promote queue (snd (entryTargets w e)) w1) as [[t2 e2] w2].
  rewrite H9, H8.
  repeat match goal with
         | |- context [if ?b then _ else _] => destruct b
         end;
    rewrite ?H7, ?H6, ?H5; destruct e1, e2; simpl;
    rewrite ?H4, ?H3, ?H2, ?H1; reflexivity.
Qed.

Lemma configured_state (w : World) (queue : list ref) (e : Entry) :
  p_state (configured w queue e) = st_queued.
Proof. reflexivity. Qed.

Lemma configured_timeout0 (w : World) (queue : list ref) (e : Entry) :
  opt_timeout (options w) = 0 ->
  p_timeout (configured w queue e) = Some 0.
Proof.
  intros H0. unfold configured, enlistP, defaultsP. rewrite H0. reflexivity.
Qed.

Lemma entryOk_mono (w w' : World) (e : Entry) :
  (length (store w) <= length (store w'))%nat -> entryOk w e -> entryOk w' e.
Proof. destruct e; simpl; auto. lia. Qed.

Lemma entryRefs_step (w w' : World) (e : Entry) (rest : list Entry) :
  notFalsy e ->
  length (store w') = (length (store w) + if isFresh e then 1 else 0)%nat ->
  entryRefs (length (store w)) (e :: rest)
  = entryRef w e :: entryRefs (length (store w')) rest.
Proof.
  intros Hnf ->. destruct e; simpl in *; try contradiction;
    rewrite ?Nat.add_1_r, ?Nat.add_0_r; reflexivity.
Qed.

(** The loop of [add] over a list of entries whose playables exist.  The
    playables pushed are those of the entries, in order; the loop leaves
    each of them queued, writes into no other playable, and leaves the
    fields that drive the player alone. *)
Lemma addEntries_spec (entries : list Entry) :
  forall (w : World) (queue added : list ref),
  Forall (entryOk w) entries ->
  let news := entryRefs (length (store w)) entries in
  exists w',
    fold_left addEntry entries (w, queue, added)
    = (w', queue ++ news, added ++ news)
    /\ control w' = control w /\ settings w' = settings w
    /\ (length (store w) <= length (store w'))%nat
    /\ Forall (fun r => (r < length (store w'))%nat) news
    /\ (forall r, r ∈ news -> p_state (getP r w') = st_queued)
    /\ (opt_timeout (options w) = 0 ->
        forall r, r ∈ news -> p_timeout (getP r w') = Some 0)
    /\ (forall r, r ∉ news -> (r < length (store w))%nat ->
                  getP r w' = getP r w)
    /\ (forall T (g : Playable -> T), addSteady g ->
        forall r, (r < length (store w))%nat -> g (getP r w') = g (getP r w)).
Proof.
  induction entries as [|e rest IH]; intros w queue added Hok news.
  - exists w. subst news. simpl. rewrite !app_nil_r.
    split; [reflexivity|]. split; [reflexivity|]. split; [reflexivity|].
    split; [lia|]. split; [constructor|].
    split; [intros r Hr; inversion Hr|].
    split; [intros _ r Hr; inversion Hr|]. auto.
  - apply Forall_cons in Hok as [Hoke Hokr].
    assert (Hcase : e = ent_falsy \/ notFalsy e)
      by (destruct e; simpl; auto).
    destruct Hcase as [->|Hnf].
    + subst news. simpl. apply IH, Hokr.
    + destruct (addEntry_spec e w queue added Hoke Hnf)
        as (w1 & Hstep & Hr1 & Hb1 & Ho1 & Hl1 & Hc1 & Hs1).
      assert (Hle1 : (length (store w) <= length (store w1))%nat)
        by (rewrite Hl1; lia).
      assert (Hokr1 : Forall (entryOk w1) rest).
      { eapply Forall_impl; [exact Hokr|]. intros x. apply entryOk_mono, Hle1. }
      destruct (IH w1 (queue ++ [entryRef w e]) (added ++ [entryRef w e]) Hokr1)
        as (w' & Hfold & Hc & Hs & Hle & Hlt & Hq & Ht & Hfr & Hst).
      assert (Hnews : news = entryRef w e :: entryRefs (length (store w1)) rest)
        by (apply entryRefs_step; assumption).
      set (newsr := entryRefs (length (store w1)) rest) in *.
      exists w'. rewrite Hnews.
      assert (Hhead : forall T (g : Playable -> T),
                 g (getP (entryRef w e) w1) = g (configured w queue e))
        by (intros; rewrite Hb1; reflexivity).
      assert (Hkeep : forall r, r ∉ newsr -> (r < length (store w1))%nat ->
                 getP r w' = getP r w1) by exact Hfr.
      split.
      { cbn [fold_left]. rewrite Hstep, Hfold, <- !app_assoc. reflexivity. }
      split; [congruence|]. split; [congruence|].
      split; [lia|].
      split.
      { constructor; [lia|exact Hlt]. }
      split.
      { intros r Hr. apply elem_of_cons in Hr as [->|Hr]; [|apply Hq, Hr].
        destruct (decide (entryRef w e ∈ newsr)) as [Hin|Hout];
          [apply Hq, Hin|].
        rewrite Hkeep by assumption. rewrite Hb1. apply configured_state. }
      split.
      { intros H0 r Hr.
        assert (H01 : opt_timeout (options w1) = 0).
        { unfold settings in Hs1. injection Hs1 as -> _. exact H0. }
        apply elem_of_cons in Hr as [->|Hr]; [|apply (Ht H01), Hr].
        destruct (decide (entryRef w e ∈ newsr)) as [Hin|Hout];
          [apply (Ht H01), Hin|].
        rewrite Hkeep by assumption. rewrite Hb1.
        apply configured_timeout0, H0. }
      split.
      { intros r Hnot Hr. apply not_elem_of_cons in Hnot as [Hne Hnot].
        rewrite Hkeep by (auto; lia). apply Ho1, Hne. }
      { intros T g Hg r Hr. rewrite (Hst T g Hg r) by lia.
        destruct (decide (r = entryRef w e)) as [->|Hne].
        - rewrite Hb1. rewrite configured_steady by exact Hg.
          destruct e; simpl in *; try lia. reflexivity.
        - rewrite Ho1 by exact Hne. reflexivity. }
Qed.

Lemma insertIndex_spec (index : option nat) (count : nat) (w : World) :
  let w0 := snd (insertIndex index count w) in
  store w0 = store w /\ settings w0 = settings w /\ events w0 = events w
  /\ pendingEvent w0 = pendingEvent w /\ paused w0 = paused w
  /\ active w0 = active w /\ host w0 = host w /\ dogs w0 = dogs w
  /\ trace w0 = trace w /\ eventTimer w0 = eventTimer w
  /\ pendingFn w0 = match index, pendingFn w with
                    | None, Some marker => Some (marker + count)%nat
                    | _, m => m
                    end
  /\ fst (insertIndex index count w)
     = match index, pendingFn w with
       | Some i, _ => i
       | None, Some marker => marker
       | None, None => length (events w)
       end.
Proof.
  unfold insertIndex. destruct index as [i|];
    destruct (pendingFn w) eqn:E; simpl; rewrite ?E; repeat split.
Qed.

(** [add] up to its last statement, for entries whose playables exist:
    the new playables stand at the insertion index, in the order of
    the entries. *)
Lemma enqueue_spec (index : option nat) (entries : list Entry) (w : World) :
  Forall (entryOk w) entries ->
  let idx := fst (insertIndex index (length entries) w) in
  let news := entryRefs (length (store w)) entries in
  exists w',
    enqueue index entries w = (w', news)
    /\ events w' = take idx (events w) ++ news ++ drop idx (events w)
    /\ pendingFn w' = pendingFn (snd (insertIndex index (length entries) w))
    /\ (pendingEvent w' = pendingEvent w /\ paused w' = paused w
        /\ active w' = active w /\ host w' = host w /\ dogs w' = dogs w
        /\ trace w' = trace w /\ eventTimer w' = eventTimer w
        /\ settings w' = settings w)
    /\ (length (store w) <= length (store w'))%nat
    /\ Forall (fun r => (r < length (store w'))%nat) news
    /\ (forall r, r ∈ news -> p_state (getP r w') = st_queued)
    /\ (opt_timeout (options w) = 0 ->
        forall r, r ∈ news -> p_timeout (getP r w') = Some 0)
    /\ (forall r, r ∉ news -> (r < length (store w))%nat ->
                  getP r w' = getP r w)
    /\ (forall T (g : Playable -> T), addSteady g ->
        forall r, (r < length (store w))%nat -> g (getP r w') = g (getP r w)).
Proof.
  intros Hok idx news. unfold enqueue.
  pose proof (insertIndex_spec index (length entries) w)
    as (Hs0 & Hg0 & He0 & Hp0 & Hpa0 & Ha0 & Hh0 & Hd0 & Ht0 & Hti0 & Hf0 & _).
  subst idx.
  destruct (insertIndex index (length entries) w) as [idx w0] eqn:Ei.
  cbn [fst snd] in *.
  assert (Hok0 : Forall (entryOk w0) entries).
  { eapply Forall_impl; [exact Hok|]. intros e.
    apply entryOk_mono. rewrite Hs0. lia. }
  set (queue := if (idx <? length (events w))%nat
                then take idx (events w) else events w).
  destruct (addEntries_spec entries w0 queue [] Hok0)
    as (w' & Hfold & Hc & Hs & Hle & Hlt & Hq & Hto & Hfr & Hst).
  rewrite Hs0 in *. fold news in Hfold, Hlt, Hq, Hto, Hfr.
  rewrite Hfold. simpl app.
  eexists. split; [reflexivity|].
  unfold control in Hc.
  injection Hc as Hce Hcp Hcf Hcpa Hct Hca Hch Hcd Hctr.
  split.
  { cbn [events set_events]. subst queue.
    destruct (Nat.ltb_spec idx (length (events w))) as [Hlt'|Hge].
    - rewrite <- app_assoc. reflexivity.
    - rewrite take_ge, drop_ge by lia. rewrite app_nil_r. reflexivity. }
  split; [exact Hcf|].
  split.
  { cbn. repeat (split; [congruence|]).
    change (settings w' = settings w). congruence. }
  split; [exact Hle|]. split; [exact Hlt|]. split; [exact Hq|].
  split.
  { intros H0. apply Hto. unfold settings in Hg0.
    injection Hg0 as -> _. exact H0. }
  split.
  { intros r Hn Hr. change (getP r w' = getP r w).
    rewrite (Hfr r Hn Hr). unfold getP. rewrite Hs0. reflexivity. }
  { intros T g Hg r Hr. change (g (getP r w') = g (getP r w)).
    rewrite (Hst T g Hg r Hr). unfold getP. rewrite Hs0. reflexivity. }
Qed.

(** [add] for entries whose playables exist: what [enqueue] did, and
    then the player goes on if it is active and idle. *)
Lemma add_unfold (index : option nat) (entries : list Entry) (w : World) :
  add index entries w
  = (let w' := fst (enqueue index entries w) in
     if active w' && negb (isSome (pendingEvent w')) then playNext w' else w',
     snd (enqueue index entries w)).
Proof. unfold add. destruct (enqueue index entries w); reflexivity. Qed.

Lemma add_field {T} (g : Playable -> T) (index : option nat)
  (entries : list Entry) (w : World) (r : ref) :
  (forall s p, g (set_p_state s p) = g p) ->
  g (getP r (fst (add index entries w)))
  = g (getP r (fst (enqueue index entries w))).
Proof.
  intros Hg. rewrite add_unfold. cbn [fst].
  destruct (active _ && negb (isSome (pendingEvent _))); [|reflexivity].
  apply playNext_field, Hg.
Qed.

(** C9.  With [ST.options.timeout] at 0: every playable that [add]
    enqueues ends with timeout 0, whatever timeout its config or the
    player gives; [ST.timeout] returns the empty function and leaves the
    host without a new timer, whatever milliseconds it is given; a watch
    dog is constructed with the empty function for a timer and arms
    nothing in the host; and the wait of a playable whose timeout is 0
    never expires. *)
Theorem timeout_zero_disables_timeouts (w : World) :
  opt_timeout (options w) = 0 ->
  (forall index entries, Forall (entryOk w) entries ->
     forall r, r ∈ snd (add index entries w) ->
       p_timeout (getP r (fst (add index entries w))) = Some 0)
  /\ (forall (A : Type) (fn : A) (millisec : option Z) (h : Host A),
        ST_timeout (options w) fn millisec h = (emptyFn, h))
  /\ (forall (A C S : Type) (tick : A) (cb : C) (scope : option S)
             (timeout : option Z) (h : Host A),
        let wd := fst (newWatchDog (options w) tick cb scope timeout h) in
        let h' := snd (newWatchDog (options w) tick cb scope timeout h) in
        wd_timer wd = Some emptyFn /\ h' = h)
  /\ (forall env waitStartTime, waitExpired env waitStartTime (Some 0) = false).
Proof.
  intros H0. split; [|split; [|split]].
  - intros index entries Hok r Hr. rewrite add_field by reflexivity.
    rewrite add_unfold in Hr. cbn [snd] in Hr.
    destruct (enqueue_spec index entries w Hok)
      as (w' & Henq & _ & _ & _ & _ & _ & _ & Hto & _).
    rewrite Henq in *. cbn [fst snd] in *. apply Hto; assumption.
  - intros A fn millisec h. unfold ST_timeout. rewrite H0.
    destruct millisec; reflexivity.
  - intros A C S tick cb scope timeout h.
    unfold newWatchDog, wd_set, wd_cancel. cbn [wd_timer].
    unfold ST_timeout. rewrite H0.
    assert (Hms : match timeout with
                  | Some m => if negb (0 =? 0) then m else 0
                  | None => 0
                  end = 0) by (destruct timeout; reflexivity).
    rewrite Hms. cbn. split; reflexivity.
  - intros env wst. unfold waitExpired. cbn.
    rewrite andb_false_r. reflexivity.
Qed.

(** A click with its own timeout of 200 ms, added to a player whose
    timeout is 3000 ms, under a global timeout of 0. *)
Lemma timeout_zero_disables_timeouts_witness :
  opt_timeout (options untimed) = 0
  /\ Forall (entryOk untimed) [eventOn "click" "#btn" (Some 200)]
  /\ p_timeout (getP 0%nat (fst (add None [eventOn "click" "#btn" (Some 200)]
                                     untimed))) = Some 0.
Proof.
  assert (H0 : opt_timeout (options untimed) = 0) by reflexivity.
  assert (Hok : Forall (entryOk untimed) [eventOn "click" "#btn" (Some 200)])
    by (repeat constructor).
  split; [exact H0|]. split; [exact Hok|].
  apply (timeout_zero_disables_timeouts untimed H0); [exact Hok|].
  vm_compute. left.
Defined.

(** ** Playables enqueued by a playable's function *)

Lemma freshCount_cons (e : Entry) (rest : list Entry) :
  freshCount (e :: rest)
  = ((if isFresh e then 1 else 0) + freshCount rest)%nat.
Proof.
  unfold freshCount. rewrite filter_cons.
  destruct (isFresh e); simpl; reflexivity.
Qed.

Lemma freshCount_app (a b : list Entry) :
  freshCount (a ++ b) = (freshCount a + freshCount b)%nat.
Proof. unfold freshCount. rewrite filter_app, length_app. reflexivity. Qed.

Lemma addEntries_store_length (entries : list Entry) :
  forall (w : World) (queue added : list ref),
  Forall (entryOk w) entries ->
  length (store (fst (fst (fold_left addEntry entries (w, queue, added)))))
  = (length (store w) + freshCount entries)%nat.
Proof.
  induction entries as [|e rest IH]; intros w queue added Hok.
  - simpl. unfold freshCount. simpl. lia.
  - apply Forall_cons in Hok as [Hoke Hokr]. rewrite freshCount_cons.
    assert (Hcase : e = ent_falsy \/ notFalsy e) by (destruct e; simpl; auto).
    destruct Hcase as [->|Hnf].
    + cbn [fold_left]. rewrite addEntry_falsy, IH by exact Hokr. simpl. lia.
    + destruct (addEntry_spec e w queue added Hoke Hnf)
        as (w1 & Hstep & _ & _ & _ & Hl1 & _).
      cbn [fold_left]. rewrite Hstep, IH.
      * rewrite Hl1. lia.
      * eapply Forall_impl; [exact Hokr|]. intros x.
        apply entryOk_mono. rewrite Hl1. lia.
Qed.

Lemma enqueue_store_length (index : option nat) (entries : list Entry)
  (w : World) :
  Forall (entryOk w) entries ->
  length (store (fst (enqueue index entries w)))
  = (length (store w) + freshCount entries)%nat.
Proof.
  intros Hok. unfold enqueue.
  pose proof (insertIndex_spec index (length entries) w) as (Hs0 & _).
  destruct (insertIndex index (length entries) w) as [idx w0].
  cbn [snd] in Hs0.
  match goal with
  | |- context [fold_left addEntry entries (w0, ?q, [])] =>
      pose proof (addEntries_store_length entries w0 q []) as Hlen;
      destruct (fold_left addEntry entries (w0, q, [])) as [[w' q'] a']
  end.
  cbn [fst snd] in *. rewrite Hs0 in Hlen.
  change (length (store w') = (length (store w) + freshCount entries)%nat).
  apply Hlen. eapply Forall_impl; [exact Hok|].
  intros e. apply entryOk_mono. rewrite Hs0. lia.
Qed.

Lemma entryRefs_app (n : nat) (a b : list Entry) :
  entryRefs n (a ++ b) = entryRefs n a ++ entryRefs (n + freshCount a) b.
Proof.
  revert n. induction a as [|e rest IH]; intros n.
  - simpl. unfold freshCount. simpl. rewrite Nat.add_0_r. reflexivity.
  - rewrite freshCount_cons.
    destruct e; simpl; rewrite IH; simpl;
      rewrite ?Nat.add_succ_r, ?Nat.add_0_l; reflexivity.
Qed.

Lemma entryRefs_length (n : nat) (entries : list Entry) :
  Forall notFalsy entries -> length (entryRefs n entries) = length entries.
Proof.
  revert n. induction entries as [|e rest IH]; intros n Hnf; [reflexivity|].
  apply Forall_cons in Hnf as [He Hr].
  destruct e; simpl in *; try contradiction; rewrite IH by exact Hr;
    reflexivity.
Qed.

(** While an event is pending, [add] does not make the player go on. *)
Lemma add_pending (index : option nat) (entries : list Entry) (w : World) :
  isSome (pendingEvent w) = true -> Forall (entryOk w) entries ->
  add index entries w = enqueue index entries w.
Proof.
  intros Hp Hok. rewrite add_unfold.
  destruct (enqueue_spec index entries w Hok)
    as (w' & Henq & _ & _ & (Hpe & _) & _).
  rewrite Henq. cbn [fst snd]. rewrite Hpe, Hp, andb_false_r. reflexivity.
Qed.

(** An [add] without index while the marker is set: the new playables go
    in at the marker, and the marker advances by the number of entries. *)
Lemma add_at_marker (marker : nat) (entries : list Entry) (w : World) :
  pendingFn w = Some marker -> isSome (pendingEvent w) = true ->
  Forall (entryOk w) entries ->
  let w' := fst (add None entries w) in
  let news := snd (add None entries w) in
  news = entryRefs (length (store w)) entries
  /\ events w' = take marker (events w) ++ news ++ drop marker (events w)
  /\ pendingFn w' = Some (marker + length entries)%nat
  /\ pendingEvent w' = pendingEvent w /\ paused w' = paused w
  /\ active w' = active w /\ host w' = host w /\ dogs w' = dogs w
  /\ trace w' = trace w /\ settings w' = settings w
  /\ length (store w') = (length (store w) + freshCount entries)%nat.
Proof.
  intros Hm Hp Hok. rewrite add_pending by assumption.
  pose proof (enqueue_store_length None entries w Hok) as Hlen.
  destruct (enqueue_spec None entries w Hok)
    as (w' & Henq & Hev & Hfn & (Hpe & Hpa & Ha & Hh & Hd & Ht & _ & Hs) & _).
  rewrite Henq in *. cbn [fst snd] in *.
  pose proof (insertIndex_spec None (length entries) w)
    as (_ & _ & _ & _ & _ & _ & _ & _ & _ & _ & Hf0 & Hi0).
  rewrite Hm in Hf0, Hi0. rewrite Hi0 in Hev. rewrite Hf0 in Hfn.
  auto 12.
Qed.

Lemma runBody_adds (env : Env) (d : nat) (ess : list (list Entry))
  (q0 : list ref) :
  forall (w : World) (before : list ref),
  events w = before ++ q0 -> pendingFn w = Some (length before) ->
  isSome (pendingEvent w) = true ->
  Forall (Forall (entryOk w)) ess -> Forall (Forall notFalsy) ess ->
  exists w',
    runBody env d (map (act_add None) ess) w = (w', None)
    /\ events w' = before ++ entryRefs (length (store w)) (concat ess) ++ q0
    /\ pendingFn w' = Some (length before + length (concat ess))%nat
    /\ pendingEvent w' = pendingEvent w /\ paused w' = paused w
    /\ active w' = active w /\ host w' = host w /\ dogs w' = dogs w
    /\ trace w' = trace w /\ settings w' = settings w
    /\ length (store w') = (length (store w) + freshCount (concat ess))%nat.
Proof.
  induction ess as [|es rest IH]; intros w before Hev Hm Hp Hok Hnf.
  - exists w. simpl. unfold freshCount. simpl.
    rewrite !Nat.add_0_r. auto 12.
  - apply Forall_cons in Hok as [Hoke Hokr].
    apply Forall_cons in Hnf as [Hnfe Hnfr].
    destruct (add_at_marker (length before) es w Hm Hp Hoke)
      as (Hnews & Hev1 & Hm1 & Hp1 & Hpa1 & Ha1 & Hh1 & Hd1 & Ht1 & Hs1 & Hl1).
    set (w1 := fst (add None es w)) in *.
    set (news := snd (add None es w)) in *.
    rewrite Hev in Hev1.
    rewrite take_app_length, drop_app_length in Hev1.
    assert (Hlen : length news = length es)
      by (rewrite Hnews; apply entryRefs_length, Hnfe).
    destruct (IH w1 (before ++ news)) as (w' & Hrun & Hev' & Hm' & Hp' & Hpa'
                                          & Ha' & Hh' & Hd' & Ht' & Hs' & Hl').
    { rewrite Hev1, <- app_assoc. reflexivity. }
    { rewrite Hm1, length_app, Hlen. reflexivity. }
    { rewrite Hp1. exact Hp. }
    { eapply Forall_impl; [exact Hokr|]. intros l Hl.
      eapply Forall_impl; [exact Hl|]. intros e.
      apply entryOk_mono. rewrite Hl1. lia. }
    { exact Hnfr. }
    exists w'. cbn [map runBody concat]. fold w1.
    split; [exact Hrun|].
    split.
    { rewrite Hev', entryRefs_app, <- Hnews, Hl1, <- !app_assoc. reflexivity. }
    split.
    { rewrite Hm', !length_app, Hlen. f_equal. lia. }
    rewrite freshCount_app.
    repeat (split; [congruence|]). lia.
Qed.

Lemma trace_playNext (w : World) :
  trace (playNext w) = trace w \/ trace (playNext w) = trace w ++ endEvents w.
Proof.
  unfold playNext.
  destruct (negb (isSome (pendingEvent w)) && (paused w =? 0)%nat);
    [|left; reflexivity].
  destruct (events w); [right; apply onEnd_spec|left; reflexivity].
Qed.

Lemma calls_endEvents (w : World) : calls (endEvents w) = [].
Proof. unfold endEvents. destruct (gestureQueue w); reflexivity. Qed.

Lemma calls_app (a b : list Emit) : calls (a ++ b) = calls a ++ calls b.
Proof. unfold calls. apply omap_app. Qed.

Lemma calls_playNext (w : World) : calls (trace (playNext w)) = calls (trace w).
Proof.
  destruct (trace_playNext w) as [-> | ->]; [reflexivity|].
  rewrite calls_app, calls_endEvents, app_nil_r. reflexivity.
Qed.

Lemma pendingFn_playNext (w : World) : pendingFn (playNext w) = pendingFn w.
Proof.
  unfold playNext.
  destruct (negb (isSome (pendingEvent w)) && (paused w =? 0)%nat);
    [|reflexivity].
  destruct (events w); [|reflexivity].
  unfold onEnd. destruct (gestureQueue w); reflexivity.
Qed.

(** [done] of a watch dog that still holds its callback, called when no
    event is pending: the playable is done and the player goes on. *)
Lemma dogDone_spec (env : Env) (d : nat) (w : World) (wd : WatchDog ref unit)
  (event : ref) :
  dogs w !! d = Some (mkPlayDog wd false) -> wd_callback wd = Some event ->
  exists h,
    dogDone env d w
    = playNext (updP event (set_p_state st_done)
                  (set_pendingEvent None
                     (set_host h
                        (set_dogs (<[d := mkPlayDog
                                            (mkWatchDog None (wd_scope wd) None
                                               (match wd_timer wd with
                                                | Some _ => None
                                                | None => wd_timeout wd
                                                end)) false]> (dogs w)) w)))).
Proof.
  intros Hd Hcb. unfold dogDone, withDog. rewrite Hd. cbn [dog_wd dog_failed].
  unfold wd_done, wd_fire, wd_cancel. rewrite Hcb.
  destruct (wd_timer wd) as [t|] eqn:Et; cbn [wd_scope wd_timer wd_timeout];
    eexists; unfold playFnCallback; cbn [dogs set_dogs set_host];
    rewrite list_lookup_insert_eq by (eapply lookup_lt_Some; exact Hd);
    cbn [dog_failed truthyArg]; rewrite ?Et; reflexivity.
Qed.

(** A playable's function that enqueues, call after call and without
    index, entries that are all playables or configs: when [playFn]
    returns, the new playables stand at the head of the line-up in the
    order of the calls, before everything that was queued. *)
Lemma playFn_adds (env : Env) (P : ref) (w : World) (f : Fn)
  (ess : list (list Entry)) :
  p_fn (getP P w) = Some f -> fn_body f = map (act_add None) ess ->
  pendingEvent w = Some P ->
  Forall (Forall (entryOk w)) ess -> Forall (Forall notFalsy) ess ->
  lineup (playFn env P w)
  = entryRefs (length (store w)) (concat ess) ++ events w
  /\ calls (trace (playFn env P w)) = calls (trace w) ++ [P]
  /\ pendingFn (playFn env P w) = None.
Proof.
  intros Hfn Hbody Hpe Hok Hnf. unfold playFn. rewrite Hfn, Hbody.
  pose proof (newWatchDog_state (S:=unit) (options w)
                (ta_wdTick (length (dogs w))) P None
                (p_timeout (getP P w)) (host w)) as Hst.
  destruct (newWatchDog (options w) (ta_wdTick (length (dogs w))) P None
                        (p_timeout (getP P w)) (host w)) as [wd h].
  destruct Hst as (Hcb & _ & _).
  set (w3 := emit (ev_call P)
               (set_pendingFn (Some 0%nat)
                  (set_host h
                     (set_dogs (dogs w ++ [mkPlayDog wd false]) w)))).
  destruct (runBody_adds env (length (dogs w)) ess (events w) w3 [])
    as (w4 & Hrun & Hev & Hm & Hp & Hpa & Ha & Hh & Hd & Ht & Hs & Hl);
    try exact Hok; try exact Hnf; try reflexivity.
  { change (isSome (pendingEvent w) = true). rewrite Hpe. reflexivity. }
  rewrite Hrun.
  change (store w3) with (store w) in Hev.
  change (events w3) with (events w) in Hev.
  change (trace w3) with (trace w ++ [ev_call P]) in Ht.
  change (dogs w3) with (dogs w ++ [mkPlayDog wd false]) in Hd.
  simpl app in Hev.
  set (w6 := set_pendingEvent None (set_pendingFn None w4)).
  assert (H6 : lineup w6 = entryRefs (length (store w)) (concat ess) ++ events w
               /\ calls (trace w6) = calls (trace w) ++ [P]
               /\ pendingFn w6 = None).
  { unfold lineup. cbn. rewrite Hev, Ht, calls_app. auto. }
  destruct (fn_thenable f); [exact H6|].
  destruct (fn_length f =? 0)%nat; [|exact H6].
  assert (Hdog : dogs w6 !! length (dogs w) = Some (mkPlayDog wd false)).
  { change (dogs w6) with (dogs w4). rewrite Hd.
    rewrite lookup_app_r by lia. rewrite Nat.sub_diag. reflexivity. }
  destruct (dogDone_spec env (length (dogs w)) w6 wd P Hdog Hcb) as (h' & ->).
  rewrite lineup_playNext, calls_playNext, pendingFn_playNext.
  exact H6.
Qed.

(** [add] never writes the time stamp of a wait: that of an existing
    playable stays, and that of a new one is the prototype's 0. *)
Lemma addEntries_waitStartTime (entries : list Entry) :
  forall (w : World) (queue added : list ref) (r : ref),
  Forall (entryOk w) entries ->
  p_waitStartTime
    (getP r (fst (fst (fold_left addEntry entries (w, queue, added)))))
  = p_waitStartTime (getP r w).
Proof.
  induction entries as [|e rest IH]; intros w queue added r Hok;
    [reflexivity|].
  apply Forall_cons in Hok as [Hoke Hokr].
  assert (Hcase : e = ent_falsy \/ notFalsy e) by (destruct e; simpl; auto).
  destruct Hcase as [->|Hnf].
  - cbn [fold_left]. rewrite addEntry_falsy. apply IH, Hokr.
  - destruct (addEntry_spec e w queue added Hoke Hnf)
      as (w1 & Hstep & _ & Hb1 & Ho1 & Hl1 & _).
    cbn [fold_left]. rewrite Hstep, IH.
    + destruct (decide (r = entryRef w e)) as [->|Hne].
      * rewrite Hb1, (configured_steady p_waitStartTime)
          by exact addSteady_waitStartTime.
        destruct e; simpl in *; try contradiction; try reflexivity;
          unfold getP; rewrite lookup_ge_None_2 by lia; reflexivity.
      * rewrite Ho1 by exact Hne. reflexivity.
    + eapply Forall_impl; [exact Hokr|]. intros x.
      apply entryOk_mono. rewrite Hl1. lia.
Qed.

Lemma add_waitStartTime (index : option nat) (entries : list Entry)
  (w : World) (r : ref) :
  Forall (entryOk w) entries ->
  p_waitStartTime (getP r (fst (add index entries w)))
  = p_waitStartTime (getP r w).
Proof.
  intros Hok. rewrite add_field by reflexivity. unfold enqueue.
  pose proof (insertIndex_spec index (length entries) w) as (Hs0 & _).
  destruct (insertIndex index (length entries) w) as [idx w0].
  cbn [snd] in Hs0.
  match goal with
  | |- context [fold_left addEntry entries (w0, ?q, [])] =>
      pose proof (addEntries_waitStartTime entries w0 q [] r) as Hw;
      destruct (fold_left addEntry entries (w0, q, [])) as [[w' q'] a']
  end.
  cbn [fst snd] in *.
  change (p_waitStartTime (getP r w') = p_waitStartTime (getP r w)).
  rewrite Hw.
  - unfold getP. rewrite Hs0. reflexivity.
  - eapply Forall_impl; [exact Hok|]. intros e.
    apply entryOk_mono. rewrite Hs0. lia.
Qed.

(** ** Claims about the queue *)

(** C1.  Let [P] be the pending playable and let its function, called by
    [playFn], enqueue playables by calls of [add] without index, each
    call with an array of playables or configs.  The calls find the
    marker at 0 first and each call advances it by the number of its
    entries, the new playables going in at the marker; so when [playFn]
    returns the line-up (the pending event, if any, then the queue) is
    the new playables in the order of the calls followed by everything
    that was queued after [P]; the function was called once and the
    marker is cleared.  In scenario S4 (outer, a function enqueuing
    inner1 and inner2, next) the functions are called in the order
    outer, the function, inner1, inner2, next. *)
Theorem nested_playables_follow_their_parent
  (env : Env) (P : ref) (w : World) (f : Fn) (ess : list (list Entry)) :
  p_fn (getP P w) = Some f -> fn_body f = map (act_add None) ess ->
  pendingEvent w = Some P ->
  Forall (Forall (entryOk w)) ess -> Forall (Forall notFalsy) ess ->
  let news := entryRefs (length (store w)) (concat ess) in
  (lineup (playFn env P w) = news ++ events w
   /\ length news = length (concat ess)
   /\ calls (trace (playFn env P w)) = calls (trace w) ++ [P]
   /\ pendingFn (playFn env P w) = None)
  /\ (forall marker entries w0,
        pendingFn w0 = Some marker -> isSome (pendingEvent w0) = true ->
        Forall (entryOk w0) entries ->
        events (fst (add None entries w0))
        = take marker (events w0) ++ snd (add None entries w0)
          ++ drop marker (events w0)
        /\ pendingFn (fst (add None entries w0))
           = Some (marker + length entries)%nat)
  /\ (calls (trace (drain 20 (pageAt 1000 None) nested))
      = [0; 1; 3; 4; 2]%nat
      /\ lineup (drain 20 (pageAt 1000 None) nested) = []).
Proof.
  intros Hfn Hbody Hpe Hok Hnf news. split; [|split].
  - destruct (playFn_adds env P w f ess Hfn Hbody Hpe Hok Hnf)
      as (Hl & Hc & Hm).
    split; [exact Hl|]. split; [|auto].
    subst news. apply entryRefs_length.
    clear -Hnf. induction ess as [|es rest IH]; [constructor|].
    apply Forall_cons in Hnf as [H1 H2]. simpl. apply Forall_app. auto.
  - intros marker entries w0 Hm Hp Hoke.
    destruct (add_at_marker marker entries w0 Hm Hp Hoke)
      as (_ & Hev & Hfn' & _). auto.
  - split; vm_compute; reflexivity.
Qed.

(** In scenario S4 the function that enqueues is playable 1; inner1 and
    inner2 become playables 3 and 4 and stand before next, playable 2. *)
Lemma nested_playables_follow_their_parent_witness :
  lineup (playFn (pageAt 1000 None) 1%nat nestedAtCallback)
  = [3; 4]%nat ++ [2%nat].
Proof.
  assert (Hfn : p_fn (getP 1%nat nestedAtCallback)
                = Some (mkFn 0 [act_add None [syncFn []];
                                act_add None [syncFn []]] false))
    by reflexivity.
  assert (Hpe : pendingEvent nestedAtCallback = Some 1%nat) by reflexivity.
  assert (Hok : Forall (Forall (entryOk nestedAtCallback))
                       [[syncFn []]; [syncFn []]])
    by (repeat constructor).
  assert (Hnf : Forall (Forall notFalsy) [[syncFn []]; [syncFn []]])
    by (repeat constructor).
  destruct (nested_playables_follow_their_parent (pageAt 1000 None) 1%nat
              nestedAtCallback _ [[syncFn []]; [syncFn []]] Hfn eq_refl Hpe
              Hok Hnf) as [[Hline _] _].
  rewrite Hline. vm_compute. reflexivity.
Defined.

(** [pause]: the pending event goes back to the head of the queue, in
    state 'queued', when [pendingFn] is falsy, which it is outside a
    playable's function and also inside one until the function's first
    [add]; it stays out when [pendingFn] is a positive number. *)
Lemma pause_spec (w : World) (event : ref) :
  pendingEvent w = Some event -> (event < length (store w))%nat ->
  (truthyMarker (pendingFn w) = false ->
   events (pause w) = event :: events w
   /\ p_state (getP event (pause w)) = st_queued)
  /\ (truthyMarker (pendingFn w) = true -> events (pause w) = events w).
Proof.
  intros Hpe Hr. unfold pause. rewrite Hpe.
  destruct (truthyZ (eventTimer w));
    cbn [pendingFn set_paused set_host set_eventTimer];
    destruct (truthyMarker (pendingFn w)); cbn [negb].
  all: split; intros H; try discriminate; try reflexivity.
  all: split; [reflexivity|]; rewrite getP_updP_eq by exact Hr; reflexivity.
Qed.

(** C8, at the failing input: a playable whose function calls [pause]
    before it enqueues anything.  The playable is put back at the head
    of the queue although [pause] is called from its own function; once
    the function returns the playable is marked done and still queued,
    and after [resume] its function is called a second time. *)
Theorem pause_in_own_fn_puts_event_back :
  events pausing = [0; 1]%nat
  /\ pendingEvent pausing = None
  /\ paused pausing = 1%nat
  /\ p_state (getP 0%nat pausing) = st_done
  /\ calls (trace pausing) = [0%nat]
  /\ calls (trace (drain 20 (pageAt 1000 None) (resume pausing)))
     = [0; 0]%nat.
Proof. vm_compute. repeat split. Qed.

(** ** Readiness checks *)

Lemma readyFrame_refl (w : World) : readyFrame w w.
Proof. unfold readyFrame. auto 10. Qed.

Lemma readyFrame_trans (w w1 w2 : World) :
  readyFrame w w1 -> readyFrame w1 w2 -> readyFrame w w2.
Proof.
  intros (Hc & Hs & Hn & Hl & Hg) (Hc' & Hs' & Hn' & Hl' & Hg').
  unfold readyFrame. repeat split; try congruence.
  intros T g Hst r. rewrite Hg', Hg by exact Hst. reflexivity.
Qed.

Lemma readyFrame_updP (r : ref) (f : Playable -> Playable) (w : World) :
  (forall T (g : Playable -> T), readySteady g -> forall p, g (f p) = g p) ->
  readyFrame w (updP r f w).
Proof.
  intros Hf. unfold readyFrame. repeat split.
  - apply length_store_updP.
  - intros T g Hg r'. apply getP_updP_field. apply Hf, Hg.
Qed.

Lemma readyFrame_els (e : list node) (w : World) : readyFrame w (set_els e w).
Proof. unfold readyFrame. repeat split. Qed.

Lemma readyFrame_setWaiting (r : ref) (a b : option string) (w : World) :
  readyFrame w (snd (setWaiting r a b w)).
Proof.
  apply readyFrame_updP. intros T g (_ & _ & H3 & H4) p.
  rewrite H4, H3. reflexivity.
Qed.

Lemma readyFrame_setEl (which : Which) (r : ref) (el : option elref)
  (w : World) :
  readyFrame w (updP r (setEl which el) w).
Proof.
  apply readyFrame_updP. intros T g (H1 & H2 & _ & _) p.
  destruct which; simpl; auto.
Qed.

Lemma readyFrame_visibility (env : Env) (name : string) (r : ref)
  (el : option elref) (w : World) :
  readyFrame w (snd (visibilityReady env name r el w)).
Proof.
  unfold visibilityReady.
  destruct el; [|apply readyFrame_setWaiting].
  destruct (isTriNull _); [apply readyFrame_setWaiting|].
  destruct (isTriFalse _).
  - destruct (isVisible _ _); apply readyFrame_setWaiting.
  - destruct (negb _); apply readyFrame_setWaiting.
Qed.

Lemma readyFrame_targetReady (env : Env) (which : Which) (r : ref)
  (w : World) :
  readyFrame w (snd (targetReady env which r w)).
Proof.
  unfold targetReady.
  destruct (negb (truthyTarget (getTarget which (getP r w))));
    [apply readyFrame_setWaiting|].
  set (first := match getEl which (getP r w), getTarget which (getP r w) with
                | None, Some (tgt_playable t) =>
                    (getEl which (getP t w),
                     updP r (setEl which (getEl which (getP t w))) w)
                | el, _ => (el, w)
                end).
  assert (Hfirst : readyFrame w (snd first)).
  { subst first. destruct (getEl which (getP r w));
      [apply readyFrame_refl|].
    destruct (getTarget which (getP r w)) as [[t|l]|];
      try apply readyFrame_refl.
    apply readyFrame_setEl. }
  destruct first as [el w1]. cbn [snd] in Hfirst.
  eapply readyFrame_trans; [exact Hfirst|].
  destruct el as [e|].
  - destruct (isTriFalse (p_available (getP r w))).
    + destruct (isDetached _ _); apply readyFrame_setWaiting.
    + eapply readyFrame_trans; [|apply readyFrame_visibility].
      destruct (getTarget which (getP r w)) as [[t|[s|s|n|e'|n]]|];
        try apply readyFrame_refl.
      destruct (st_find env (loc_str s)); [|apply readyFrame_refl].
      destruct (bool_decide _); [apply readyFrame_refl|apply readyFrame_els].
  - match goal with
    | |- context [match ?d with Some _ => _ | None => _ end] =>
        destruct d as [dom|]
    end.
    + eapply readyFrame_trans; [apply (readyFrame_els (els w1 ++ [dom]))|].
      eapply readyFrame_trans; [apply readyFrame_setEl|].
      cbn [newElement fst snd].
      destruct (isTriFalse (p_available (getP r w)));
        [apply readyFrame_setWaiting|apply readyFrame_visibility].
    + destruct (isTriFalse (p_available (getP r w)));
        [apply readyFrame_setWaiting|].
      destruct (negb (isTriNull _));
        [apply readyFrame_setWaiting|apply readyFrame_visibility].
Qed.

Lemma readyFrame_animationsDone (env : Env) (r : ref) (w : World) :
  readyFrame w (snd (animationsDone env r w)).
Proof.
  unfold animationsDone. destruct (p_animation (getP r w)) as [[|]|];
    try apply readyFrame_setWaiting.
  destruct (animating env); apply readyFrame_setWaiting.
Qed.

Lemma readyFrame_defaultReady (env : Env) (r : ref) (w : World) :
  readyFrame w (snd (defaultReady env r w)).
Proof.
  unfold defaultReady.
  pose proof (readyFrame_animationsDone env r w) as Ha.
  destruct (animationsDone env r w) as [a w1]. cbn [snd] in Ha.
  destruct a; [|exact Ha].
  pose proof (readyFrame_targetReady env which_target r w1) as Ht.
  destruct (targetReady env which_target r w1) as [t w2]. cbn [snd] in Ht.
  destruct t; [|eapply readyFrame_trans; eassumption].
  eapply readyFrame_trans; [exact Ha|].
  eapply readyFrame_trans; [exact Ht|].
  apply readyFrame_targetReady.
Qed.

(** Calling [ready] leaves the player as [readyFrame] says. *)
Lemma readyFrame_callReady (env : Env) (r : ref) (w : World) :
  readyFrame w (snd (callReady env r w)).
Proof.
  unfold callReady. destruct (p_ready (getP r w)) as [[|k]|];
    try apply readyFrame_refl.
  pose proof (readyFrame_defaultReady env r w) as H.
  destruct (defaultReady env r w) as [b w1]. exact H.
Qed.

Lemma readySteady_state : readySteady p_state.
Proof. unfold readySteady. repeat split. Qed.

Lemma readySteady_timeout : readySteady p_timeout.
Proof. unfold readySteady. repeat split. Qed.

Lemma readySteady_waitStartTime : readySteady p_waitStartTime.
Proof. unfold readySteady. repeat split. Qed.

Lemma readySteady_fn : readySteady p_fn.
Proof. unfold readySteady. repeat split. Qed.

Lemma readySteady_type : readySteady p_type.
Proof. unfold readySteady. repeat split. Qed.

(** [isReady] in terms of what [ready] returns. *)
Lemma isReady_of_callReady (env : Env) (r : ref) (w w1 : World) (b : bool) :
  callReady env r w = ((if b then rr_true else rr_false), w1) ->
  isReady env r w = (Some b, w1).
Proof. unfold isReady. intros ->. destruct b; reflexivity. Qed.

(** ** playEvent when the playable is not ready *)

(** The world after a poll that neither times out nor throws: the time
    stamp is set if it was not, and a new poll is scheduled. *)
Lemma playEvent_not_ready (env : Env) (event : ref) (w w1 : World) :
  callReady env event w = (rr_false, w1) ->
  (event < length (store w))%nat ->
  let p := getP event w in
  (waitExpired env (p_waitStartTime p) (p_timeout p) = true ->
   playEvent env event w = doTimeout env event w1)
  /\ (waitExpired env (p_waitStartTime p) (p_timeout p) = false ->
      let w' := playEvent env event w in
      trace w' = trace w /\ events w' = events w
      /\ pendingEvent w' = pendingEvent w
      /\ p_state (getP event w') = p_state p
      /\ p_timeout (getP event w') = p_timeout p
      /\ p_waitStartTime (getP event w')
         = (if truthyZ (p_waitStartTime p) then p_waitStartTime p
            else stampNow env)
      /\ eventTimer w' = Z.pos (next_timer (host w))
      /\ host w' = snd (defer (ta_playEvent event) (waitInterval w) (host w))
      /\ length (store w') = length (store w)).
Proof.
  intros Hcall Hr p.
  pose proof (readyFrame_callReady env event w) as Hfr.
  rewrite Hcall in Hfr. cbn [snd] in Hfr.
  destruct Hfr as (Hc & Hs & Hn & Hl & Hg).
  unfold playEvent. rewrite (isReady_of_callReady env event w w1 false Hcall).
  fold p. split; intros Hexp; rewrite Hexp; [reflexivity|].
  unfold control in Hc. injection Hc as Hce Hcp Hcf Hcpa Hct Hca Hch Hcd Hctr.
  unfold settings in Hs. injection Hs as _ _ _ _ _ _ Hwi.
  assert (Hr1 : (event < length (store w1))%nat) by (rewrite Hl; exact Hr).
  pose proof (Hg _ p_state readySteady_state event) as Hst.
  pose proof (Hg _ p_timeout readySteady_timeout event) as Hto.
  pose proof (Hg _ p_waitStartTime readySteady_waitStartTime event) as Hws.
  fold p in Hst, Hto, Hws.
  destruct (truthyZ (p_waitStartTime p)) eqn:Etr; cbn [negb].
  - unfold playEventSoon. cbn. rewrite Hch, Hwi. repeat split; assumption.
  - unfold playEventSoon. cbn -[getP updP].
    change (getP event (set_eventTimer ?a (set_host ?b ?x))) with (getP event x).
    rewrite !getP_updP_eq by exact Hr1. cbn. rewrite Hch, Hwi, length_alter.
    repeat split; assumption.
Qed.

Lemma playEvent_ready (env : Env) (event : ref) (w w1 : World) :
  callReady env event w = (rr_true, w1) ->
  playEvent env event w = playReady env event w1.
Proof.
  intros Hcall. unfold playEvent.
  rewrite (isReady_of_callReady env event w w1 true Hcall). reflexivity.
Qed.

(** What expiry means. *)
Lemma waitExpired_iff (env : Env) (waitStartTime : Z) (timeout : option Z) :
  waitExpired env waitStartTime timeout = true
  <-> waitStartTime <> 0
      /\ exists t, timeout = Some t /\ t <> 0 /\ t <= now env - waitStartTime.
Proof.
  unfold waitExpired, truthyOptZ, truthyZ.
  rewrite !andb_true_iff, negb_true_iff, Z.eqb_neq, Z.leb_le.
  destruct timeout as [t|]; simpl.
  - rewrite negb_true_iff, Z.eqb_neq. split.
    + intros [[H1 H2] H3]. split; [exact H1|]. exists t. auto.
    + intros [H1 (t' & [= <-] & H2 & H3)]. auto.
  - split; [intros [[_ H] _]; discriminate|].
    intros [_ (t & H & _)]. discriminate.
Qed.

(** The readiness wait times out: the playable is marked done, and since
    it is the pending event the player fails. *)
Lemma playEvent_timeout (env : Env) (event : ref) (w w1 : World) :
  callReady env event w = (rr_false, w1) ->
  (event < length (store w))%nat ->
  waitExpired env (p_waitStartTime (getP event w)) (p_timeout (getP event w))
  = true ->
  p_state (getP event w) = st_pending -> busy w = true ->
  let w' := playEvent env event w in
  p_state (getP event w') = st_done
  /\ events w' = [] /\ pendingEvent w' = None
  /\ trace w'
     = trace w
       ++ ev_error (timeoutMessage env event
                      (updP event (set_p_state st_done) w1))
       :: endEvents w.
Proof.
  intros Hcall Hr Hexp Hst Hbusy.
  pose proof (readyFrame_callReady env event w) as Hfr.
  rewrite Hcall in Hfr. cbn [snd] in Hfr.
  destruct Hfr as (Hc & Hs & Hn & Hl & Hg).
  destruct (playEvent_not_ready env event w w1 Hcall Hr) as [Hto _].
  cbv zeta. rewrite (Hto Hexp).
  assert (Hr1 : (event < length (store w1))%nat) by (rewrite Hl; exact Hr).
  assert (Hst1 : p_state (getP event w1) = st_pending)
    by (rewrite (Hg _ p_state readySteady_state); exact Hst).
  destruct (doTimeout_state env event w1 Hr1 (or_introl Hst1)) as [Heq Hdone].
  split; [exact Hdone|]. rewrite Heq.
  unfold control in Hc. injection Hc as Hce Hcp _ _ _ _ _ _ Hctr.
  unfold settings in Hs. injection Hs as _ Hgq _ _ _ _ _.
  assert (Hb : busy (updP event (set_p_state st_done) w1) = true).
  { unfold busy in *. cbn. rewrite Hce, Hcp. exact Hbusy. }
  destruct (fail_busy (timeoutMessage env event
                         (updP event (set_p_state st_done) w1))
                      _ Hb) as (He & Hp & Ht & _).
  rewrite He, Hp, Ht. unfold endEvents. cbn. rewrite Hctr, Hgq. auto.
Qed.

(** ** Polling *)

Lemma hostOk_deferCancel {A} (id : Z) (h : Host A) :
  hostOk h -> hostOk (deferCancel id h).
Proof.
  unfold hostOk, deferCancel. cbn [timers next_timer]. intros H.
  induction H as [|t ts Ht Hts IH]; [constructor|].
  rewrite filter_cons. destruct (decide (timer_id t <> id)); auto.
Qed.

Lemma hostOk_defer {A} (a : A) (ms : Z) (h : Host A) :
  hostOk h -> hostOk (snd (defer a ms h)).
Proof.
  unfold hostOk, defer. cbn [snd timers next_timer]. intros H.
  apply Forall_app. split.
  - eapply Forall_impl; [exact H|]. intros t Ht. cbn beta in *. lia.
  - repeat constructor. cbn [timer_id]. lia.
Qed.

Lemma pendingTimer_defer {A} (a : A) (ms : Z) (h : Host A) :
  hostOk h ->
  pendingTimer (Z.pos (next_timer h)) (snd (defer a ms h))
  = Some (mkTimer (Z.pos (next_timer h)) ms a).
Proof.
  unfold hostOk, pendingTimer, defer. cbn [snd timers]. intros H.
  induction H as [|t ts Ht Hts IH]; cbn [app find].
  - cbn [timer_id]. rewrite Z.eqb_refl. reflexivity.
  - destruct (Z.eqb_spec (timer_id t) (Z.pos (next_timer h))); [lia|exact IH].
Qed.

Lemma hostStep_poll (env : Env) (event : ref) (w : World) :
  pollPending event w ->
  hostStep env (he_timer (eventTimer w)) w = playEvent env event (entering w).
Proof.
  intros (t & Hp & Ha). unfold hostStep, hostFires. rewrite Hp, Ha.
  reflexivity.
Qed.

(** One poll that finds the playable not ready and its wait not expired:
    nothing is fired, the playable stays pending, and the next poll is
    scheduled. *)
Lemma poll_step (env : Env) (event : ref) (w : World) :
  hostOk (host w) -> pollPending event w -> (event < length (store w))%nat ->
  fst (callReady env event (entering w)) = rr_false ->
  waitExpired env (p_waitStartTime (getP event w)) (p_timeout (getP event w))
  = false ->
  let w' := hostStep env (he_timer (eventTimer w)) w in
  (hostOk (host w') /\ pollPending event w'
   /\ (event < length (store w'))%nat)
  /\ trace w' = trace w /\ events w' = events w
  /\ pendingEvent w' = pendingEvent w
  /\ p_state (getP event w') = p_state (getP event w)
  /\ p_timeout (getP event w') = p_timeout (getP event w)
  /\ p_waitStartTime (getP event w')
     = (if truthyZ (p_waitStartTime (getP event w))
        then p_waitStartTime (getP event w) else stampNow env).
Proof.
  intros Hok Hpoll Hr Hnr Hexp. cbv zeta.
  rewrite (hostStep_poll env event w Hpoll).
  destruct (callReady env event (entering w)) as [res w1] eqn:Hcall.
  cbn [fst] in Hnr. subst res.
  destruct (playEvent_not_ready env event (entering w) w1 Hcall Hr)
    as [_ Hstay].
  destruct (Hstay Hexp) as (Ht & He & Hp & Hst & Hto & Hws & Htimer & Hhost & Hl).
  assert (HokE : hostOk (host (entering w)))
    by (apply hostOk_deferCancel, Hok).
  split; [split; [|split]|].
  - rewrite Hhost. apply hostOk_defer, HokE.
  - unfold pollPending. rewrite Htimer, Hhost.
    rewrite pendingTimer_defer by exact HokE. eexists. split; reflexivity.
  - rewrite Hl. exact Hr.
  - auto 10.
Qed.

(** A playable whose timeout is 0 (or not a number), polled in any
    number of pages in which it is not ready: the player fires nothing
    and the playable stays the pending event with its poll scheduled. *)
Lemma polls_without_timeout (event : ref) (envs : list Env) :
  forall w : World,
  hostOk (host w) -> pollPending event w -> (event < length (store w))%nat ->
  truthyOptZ (p_timeout (getP event w)) = false ->
  notReadyAlong envs event w ->
  let w' := polls envs w in
  (hostOk (host w') /\ pollPending event w'
   /\ (event < length (store w'))%nat)
  /\ trace w' = trace w /\ events w' = events w
  /\ pendingEvent w' = pendingEvent w
  /\ p_state (getP event w') = p_state (getP event w)
  /\ p_timeout (getP event w') = p_timeout (getP event w).
Proof.
  induction envs as [|env rest IH]; intros w Hok Hpoll Hr Hto Hnr.
  - cbn. auto 10.
  - destruct Hnr as [Hnr Hrest].
    assert (Hexp : waitExpired env (p_waitStartTime (getP event w))
                     (p_timeout (getP event w)) = false).
    { unfold waitExpired. rewrite Hto, andb_false_r. reflexivity. }
    destruct (poll_step env event w Hok Hpoll Hr Hnr Hexp)
      as ((Hok1 & Hpoll1 & Hr1) & Ht1 & He1 & Hp1 & Hs1 & Hto1 & _).
    cbn [polls]. cbv zeta.
    destruct (IH _ Hok1 Hpoll1 Hr1) as (Hinv & Ht & He & Hp & Hs & Hto').
    { rewrite Hto1. exact Hto. }
    { exact Hrest. }
    split; [exact Hinv|]. repeat split; congruence.
Qed.

Lemma poll_ready (env : Env) (event : ref) (w : World) :
  pollPending event w ->
  fst (callReady env event (entering w)) = rr_true ->
  hostStep env (he_timer (eventTimer w)) w
  = playReady env event (snd (callReady env event (entering w))).
Proof.
  intros Hpoll Hready. rewrite (hostStep_poll env event w Hpoll).
  apply playEvent_ready.
  destruct (callReady env event (entering w)) as [res w1].
  cbn [fst snd] in *. subst res. reflexivity.
Qed.

(** ** playEvent when the playable is ready *)

Lemma injections_app (a b : list Emit) :
  injections (a ++ b) = injections a ++ injections b.
Proof. unfold injections. apply omap_app. Qed.

Lemma injections_endEvents (w : World) : injections (endEvents w) = [].
Proof. unfold endEvents. destruct (gestureQueue w); reflexivity. Qed.

Lemma injections_playNext (w : World) :
  injections (trace (playNext w)) = injections (trace w).
Proof.
  destruct (trace_playNext w) as [-> | ->]; [reflexivity|].
  rewrite injections_app, injections_endEvents, app_nil_r. reflexivity.
Qed.

Lemma trace_injectEvent (env : Env) (event : ref) (type : string)
  (target related : option elref) (w : World) :
  trace (injectEvent env event type target related w)
  = trace w ++ [ev_inject event type (withDom target w) (withDom related w)]
  /\ events (injectEvent env event type target related w) = events w
  /\ pendingEvent (injectEvent env event type target related w)
     = pendingEvent w.
Proof.
  unfold injectEvent.
  destruct (gestureStartEvents type); [repeat split|].
  destruct (gestureEndEvents type); repeat split.
Qed.

(** A ready playable with a function is played by [playFn]. *)
Lemma playReady_fn (env : Env) (event : ref) (w : World) (f : Fn) :
  p_fn (getP event w) = Some f ->
  playReady env event w
  = playFn env event (updP event (set_p_state st_playing) w).
Proof. intros Hfn. unfold playReady. rewrite Hfn. reflexivity. Qed.

(** A ready playable that is an event other than a tap or typing: one
    DOM event is handed to the injector, with the playable's own cached
    elements, and the queue is left as it was. *)
Lemma playReady_inject (env : Env) (event : ref) (w : World) (type : string) :
  p_fn (getP event w) = None -> p_type (getP event w) = Some type ->
  isEventType (Some type) = true -> type <> "tap" -> type <> "type" ->
  let p := getP event w in
  let w' := playReady env event w in
  injections (trace w')
  = injections (trace w)
    ++ [ev_inject event type (withDom (p_targetEl p) w)
                  (withDom (p_relatedEl p) w)]
  /\ calls (trace w') = calls (trace w)
  /\ lineup w' = events w.
Proof.
  intros Hfn Hty Hev Htap Htype. cbv zeta. unfold playReady.
  rewrite Hfn, Hty. cbn [isSome].
  change (default EmptyString (Some type)) with type.
  apply String.eqb_neq in Htap, Htype. rewrite Htap, Htype, Hev.
  rewrite injections_playNext, calls_playNext, lineup_playNext.
  match goal with
  | |- context [injectEvent env event type ?t ?r ?x] =>
      destruct (trace_injectEvent env event type t r x) as (Ht & He & Hp)
  end.
  unfold lineup.
  change (trace (updP event (set_p_state st_done) ?x)) with (trace x).
  change (events (updP event (set_p_state st_done) ?x)) with (events x).
  change (pendingEvent (updP event (set_p_state st_done) ?x))
    with (pendingEvent x).
  rewrite Ht, He, Hp, injections_app, calls_app. cbn.
  rewrite app_nil_r. auto.
Qed.

(** A ready playable that is neither a function nor an event, such as
    the wait that ends a tap: nothing is handed to the injector. *)
Lemma playReady_wait (env : Env) (event : ref) (w : World) :
  p_fn (getP event w) = None ->
  isEventType (p_type (getP event w)) = false ->
  let w' := playReady env event w in
  injections (trace w') = injections (trace w)
  /\ calls (trace w') = calls (trace w)
  /\ lineup w' = events w.
Proof.
  intros Hfn Hev. cbv zeta. unfold playReady. rewrite Hfn, Hev.
  cbn [isSome].
  assert (Htap : String.eqb (default EmptyString (p_type (getP event w)))
                            "tap" = false).
  { destruct (String.eqb_spec (default EmptyString (p_type (getP event w)))
                              "tap") as [E|]; [|reflexivity].
    destruct (p_type (getP event w)) as [t|]; simpl in E; [|discriminate].
    subst t. discriminate. }
  assert (Htype : String.eqb (default EmptyString (p_type (getP event w)))
                             "type" = false).
  { destruct (String.eqb_spec (default EmptyString (p_type (getP event w)))
                              "type") as [E|]; [|reflexivity].
    destruct (p_type (getP event w)) as [t|]; simpl in E; [|discriminate].
    subst t. discriminate. }
  rewrite Htap, Htype.
  rewrite injections_playNext, calls_playNext, lineup_playNext.
  unfold lineup. auto.
Qed.
(** * Further properties of the player *)

(** ** Failing, pausing and resuming *)

Lemma dogs_playNext (w : World) : dogs (playNext w) = dogs w.
Proof.
  unfold playNext.
  destruct (negb (isSome (pendingEvent w)) && (paused w =? 0)%nat);
    [|reflexivity].
  destruct (events w); [unfold onEnd; destruct (gestureQueue w)|];
    reflexivity.
Qed.

Lemma fail_unfold (message : string) (w : World) :
  busy w = true -> fail message w = onEnd (emit (ev_error message) (cleanup w)).
Proof. unfold busy, fail. intros ->. reflexivity. Qed.

(** X1. A failure is reported once.  [fail] on a player that holds
    playables empties it through [cleanup]: no pending event, no queue,
    no insertion marker, the player's timer cancelled at the host, and
    'error' then 'end' fired; the player is then idle, so that a second
    [fail] does nothing at all. *)
Theorem fail_reports_once (m1 m2 : string) (w : World) :
  fail m2 (fail m1 w) = fail m1 w
  /\ (busy w = true ->
      busy (fail m1 w) = false
      /\ pendingFn (fail m1 w) = None /\ eventTimer (fail m1 w) = 0
      /\ (eventTimer w <> 0 ->
          pendingTimer (eventTimer w) (host (fail m1 w)) = None)
      /\ trace (fail m1 w) = trace w ++ ev_error m1 :: endEvents w).
Proof.
  assert (Hidle : busy w = true -> busy (fail m1 w) = false).
  { intros Hb. destruct (fail_busy m1 w Hb) as (He & Hp & _).
    unfold busy. rewrite He, Hp. reflexivity. }
  split.
  - destruct (busy w) eqn:Hb.
    + apply fail_idle, Hidle. reflexivity.
    + rewrite (fail_idle m1 w Hb). apply fail_idle, Hb.
  - intros Hb. split; [exact (Hidle Hb)|].
    destruct (fail_busy m1 w Hb) as (_ & _ & Ht & _).
    rewrite (fail_unfold m1 w Hb) in *.
    unfold onEnd, emit, cleanup in *.
    destruct (truthyZ (eventTimer w)) eqn:Et;
      cbn [gestureQueue set_events set_host set_eventTimer set_pendingFn
           set_pendingEvent set_trace] in *;
      destruct (gestureQueue w);
      cbn [pendingFn eventTimer host set_trace set_events set_host
           set_eventTimer set_pendingFn set_pendingEvent] in *.
    all: repeat split; try exact Ht; try reflexivity.
    all: try (intros _; apply deferCancel_not_pending).
    all: try (unfold truthyZ in Et; apply negb_false_iff, Z.eqb_eq in Et;
              first [exact Et | intros Hne; contradiction]).
Qed.
Lemma fail_reports_once_witness :
  busy queuedTwo = true
  /\ trace (fail "boom" queuedTwo)
     = trace queuedTwo ++ ev_error "boom" :: endEvents queuedTwo.
Proof.
  split; [reflexivity|].
  destruct (proj2 (fail_reports_once "boom" "again" queuedTwo) eq_refl)
    as (_ & _ & _ & _ & H).
  exact H.
Defined.

Lemma pause_idle (w : World) :
  pendingEvent w = None ->
  paused (pause w) = S (paused w) /\ events (pause w) = events w
  /\ pendingEvent (pause w) = None /\ trace (pause w) = trace w
  /\ store (pause w) = store w
  /\ (hostOk (host w) -> hostOk (host (pause w))).
Proof.
  intros Hpe. unfold pause. rewrite Hpe.
  destruct (truthyZ (eventTimer w)); cbn; repeat split; auto.
  apply hostOk_deferCancel.
Qed.

Lemma pauses_idle (n : nat) (w : World) :
  pendingEvent w = None ->
  let wp := Nat.iter n pause w in
  paused wp = (n + paused w)%nat /\ events wp = events w
  /\ pendingEvent wp = None /\ trace wp = trace w /\ store wp = store w
  /\ (hostOk (host w) -> hostOk (host wp)).
Proof.
  intros Hpe. induction n as [|n IH]; [cbn; repeat split; auto|].
  rewrite Nat.iter_succ.
  - cbv zeta in IH. destruct IH as (Hn & He & Hp & Ht & Hs & Hh).
    destruct (pause_idle _ Hp) as (Hn' & He' & Hp' & Ht' & Hs' & Hh').
    cbv zeta. rewrite Hn', He', Ht', Hs', Hn, He, Ht, Hs.
    repeat split; auto.
Qed.

Lemma resume_still_paused (w : World) (n : nat) :
  paused w = S (S n) -> resume w = set_paused (S n) w.
Proof. unfold resume. intros ->. reflexivity. Qed.

Lemma resume_last (w : World) :
  paused w = 1%nat -> resume w = playNext (set_paused 0%nat w).
Proof. unfold resume. intros ->. reflexivity. Qed.

(** X2. Pauses are counted.  On a player with a queue and no pending
    event, [k + 1] calls of [pause] need [k + 1] calls of [resume]:
    after up to [k] of them the queue is untouched and nothing is taken
    up, and the last one takes up the head of the queue and arms the
    player's timer for it. *)
Theorem resume_counts_pauses (w : World) (e : ref) (rest : list ref)
  (k : nat) :
  pendingEvent w = None -> paused w = 0%nat -> events w = e :: rest ->
  hostOk (host w) ->
  let wp := Nat.iter (S k) pause w in
  (forall j, (j <= k)%nat ->
     let wj := Nat.iter j resume wp in
     paused wj = (S k - j)%nat /\ events wj = e :: rest
     /\ pendingEvent wj = None /\ trace wj = trace w)
  /\ (let wr := Nat.iter (S k) resume wp in
      paused wr = 0%nat /\ pendingEvent wr = Some e /\ events wr = rest
      /\ trace wr = trace w /\ pollPending e wr).
Proof.
  intros Hpe Hpa Hev Hok wp.
  destruct (pauses_idle (S k) w Hpe) as (Hn & He & Hp & Ht & Hs & Hh).
  fold wp in Hn, He, Hp, Ht, Hs, Hh. rewrite Hpa, Nat.add_0_r in Hn.
  specialize (Hh Hok).
  assert (Hres : forall j, (j <= k)%nat ->
            let wj := Nat.iter j resume wp in
            paused wj = (S k - j)%nat /\ events wj = e :: rest
            /\ pendingEvent wj = None /\ trace wj = trace w
            /\ store wj = store w /\ hostOk (host wj)).
  { induction j as [|j IH]; intros Hj; [|rewrite Nat.iter_succ]; cbv zeta.
    - cbn [Nat.iter nat_rect].
      rewrite Hn, He, Hp, Ht, Hs, Hev. repeat split; auto.
    - destruct IH as (Hn' & He' & Hp' & Ht' & Hs' & Hh'); [lia|].
      rewrite (resume_still_paused _ (k - S j)) by lia.
      cbn [paused events pendingEvent trace store host set_paused].
      rewrite He', Hp', Ht', Hs'. repeat split; auto. lia. }
  split.
  - intros j Hj. destruct (Hres j Hj) as (? & ? & ? & ? & _). auto.
  - destruct (Hres k (Nat.le_refl k)) as (Hn' & He' & Hp' & Ht' & Hs' & Hh').
    rewrite Nat.iter_succ. cbv zeta. rewrite resume_last by lia.
    set (w0 := set_paused 0%nat (Nat.iter k resume wp)).
    assert (H0 : pendingEvent w0 = None /\ paused w0 = 0%nat
                 /\ events w0 = e :: rest /\ trace w0 = trace w
                 /\ host w0 = host (Nat.iter k resume wp)).
    { subst w0. cbn [paused events pendingEvent trace store host set_paused].
      auto. }
    destruct H0 as (Hp0 & Hn0 & He0 & Ht0 & Hh0).
    destruct (playNext_shift w0 e rest Hp0 Hn0 He0) as (Hev1 & Hpe1 & Htr1 & _).
    assert (Hpaused : paused (playNext w0) = 0%nat).
    { unfold playNext. rewrite Hp0, Hn0, He0. cbn. reflexivity. }
    rewrite Hpaused, Hev1, Hpe1, Htr1, Ht0. repeat split; auto.
    unfold pollPending, playNext. rewrite Hp0, Hn0, He0.
    cbn [isSome negb Nat.eqb andb]. unfold playEventSoon.
    cbn [defer eventTimer host set_eventTimer set_host fst snd].
    eexists. split.
    + change (host (updP e (set_p_state st_pending)
                      (set_pendingEvent (Some e) (set_events rest w0))))
        with (host w0).
      apply (pendingTimer_defer (ta_playEvent e)). rewrite Hh0. exact Hh'.
    + reflexivity.
Qed.

Lemma resume_counts_pauses_witness :
  paused (Nat.iter 2 resume (Nat.iter 2 pause idleTwo)) = 0%nat
  /\ pendingEvent (Nat.iter 2 resume (Nat.iter 2 pause idleTwo)) = Some 0%nat.
Proof.
  assert (Hok : hostOk (host idleTwo)) by constructor.
  destruct (proj2 (resume_counts_pauses idleTwo 0%nat [1%nat] 1 eq_refl
                     eq_refl eq_refl Hok)) as (H1 & H2 & _).
  split; [exact H1 | exact H2].
Defined.
(** X3. Pausing from outside strands the pending event.  [pause] puts
    the pending playable back at the head of the queue and cancels the
    player's timer but leaves [pendingEvent] set, so that the matching
    [resume] takes nothing up: no timer is pending for the player, a
    late tick of the cancelled one and a further [resume] change
    nothing, and [add] arms no timer either. *)
Theorem pause_then_resume_strands_pending_event (env : Env) (w : World)
  (e : ref) :
  pendingEvent w = Some e -> paused w = 0%nat ->
  truthyMarker (pendingFn w) = false -> eventTimer w <> 0 ->
  let w' := resume (pause w) in
  (pendingEvent w' = Some e /\ events w' = e :: events w
   /\ paused w' = 0%nat /\ eventTimer w' = 0 /\ trace w' = trace w
   /\ host w' = deferCancel (eventTimer w) (host w))
  /\ hostStep env (he_timer (eventTimer w)) w' = w'
  /\ hostStep env he_resume w' = w'
  /\ (forall index entries, Forall (entryOk w') entries ->
        host (fst (add index entries w')) = host w'
        /\ eventTimer (fst (add index entries w')) = 0
        /\ trace (fst (add index entries w')) = trace w).
Proof.
  intros Hpe Hpa Hm Ht w'.
  assert (Htr : truthyZ (eventTimer w) = true).
  { unfold truthyZ. apply negb_true_iff, Z.eqb_neq, Ht. }
  assert (Hw' : w' = updP e (set_p_state st_queued)
                       (set_events (e :: events w)
                          (set_host (deferCancel (eventTimer w) (host w))
                             (set_eventTimer 0 w)))).
  { subst w'. unfold pause. rewrite Hpe, Htr.
    cbn [pendingFn set_paused set_host set_eventTimer]. rewrite Hm.
    cbn [negb]. unfold resume.
    cbn [paused updP set_store set_events set_host set_eventTimer set_paused].
    rewrite Hpa. cbn [Nat.eqb]. unfold playNext.
    cbn [pendingEvent updP set_store set_events set_host set_eventTimer
         set_paused].
    rewrite Hpe. cbn [isSome negb andb].
    destruct w; cbn in *; subst; reflexivity. }
  assert (Hfields : pendingEvent w' = Some e /\ events w' = e :: events w
                    /\ paused w' = 0%nat /\ eventTimer w' = 0
                    /\ trace w' = trace w
                    /\ host w' = deferCancel (eventTimer w) (host w)).
  { rewrite Hw'. cbn. rewrite Hpe, Hpa. repeat split; reflexivity. }
  destruct Hfields as (Hp' & He' & Hn' & Ht' & Htr' & Hh').
  split; [repeat split; assumption|]. split; [|split].
  - cbn [hostStep]. unfold hostFires. rewrite Hh', deferCancel_not_pending.
    reflexivity.
  - cbn [hostStep]. unfold resume. rewrite Hn'. reflexivity.
  - intros index entries Hok.
    rewrite add_pending by (rewrite ?Hp'; auto).
    destruct (enqueue_spec index entries w' Hok)
      as (w1 & Hq & _ & _ & (_ & _ & _ & Hh1 & _ & Ht1 & He1 & _) & _).
    rewrite Hq. cbn [fst]. rewrite Hh1, Ht1, He1. auto.
Qed.

Lemma pause_then_resume_strands_pending_event_witness :
  pendingEvent (resume (pause queuedTwo)) = Some 0%nat
  /\ events (resume (pause queuedTwo)) = [0; 1]%nat
  /\ timers (host (resume (pause queuedTwo))) = [].
Proof.
  assert (Ht : eventTimer queuedTwo <> 0) by discriminate.
  destruct (pause_then_resume_strands_pending_event (pageAt 1000 None)
              queuedTwo 0%nat eq_refl eq_refl eq_refl Ht)
    as ((Hp & He & _ & _ & _ & Hh) & _).
  split; [exact Hp|]. split; [exact He|]. rewrite Hh. reflexivity.
Defined.

Lemma world_same_dogs_host (w : World) :
  set_host (host w) (set_dogs (dogs w) w) = w.
Proof. destruct w; reflexivity. Qed.

Lemma withDog_spent (env : Env) (d : nat) (w : World)
  (wd : WatchDog ref unit)
  (method : WatchDog ref unit -> Host TimerAction ->
            WatchDog ref unit * Host TimerAction * option (ref * WdArg)) :
  dogs w !! d = Some (mkPlayDog wd false) ->
  method wd (host w) = (wd, host w, None) ->
  withDog env d method w = w.
Proof.
  intros Hd Hm. unfold withDog. rewrite Hd. cbn [dog_wd dog_failed].
  rewrite Hm. rewrite list_insert_id by exact Hd.
  apply world_same_dogs_host.
Qed.

(** X4. A second [done] does not advance the queue twice.  Once the
    [done] of a playable's function has been called, calling it again,
    calling [done.fail], or the tick of its watch dog's timer leaves the
    player exactly as it is. *)
Theorem done_advances_the_queue_once (env : Env) (d : nat) (w : World)
  (wd : WatchDog ref unit) (event : ref) (e : option string) :
  dogs w !! d = Some (mkPlayDog wd false) -> wd_callback wd = Some event ->
  let w1 := dogDone env d w in
  dogDone env d w1 = w1 /\ dogFail env d e w1 = w1 /\ dogTick env d w1 = w1.
Proof.
  intros Hd Hcb w1.
  destruct (dogDone_spec env d w wd event Hd Hcb) as (h & Hw1).
  fold w1 in Hw1.
  set (wd' := mkWatchDog None (wd_scope wd) None
                (match wd_timer wd with
                 | Some _ => None
                 | None => wd_timeout wd
                 end)) in Hw1.
  assert (Hd1 : dogs w1 !! d = Some (mkPlayDog wd' false)).
  { rewrite Hw1, dogs_playNext. cbn [dogs updP set_store set_pendingEvent
                                      set_host set_dogs].
    apply list_lookup_insert_eq. apply lookup_lt_Some in Hd. exact Hd. }
  destruct (wd_spent_noop (A:=TimerAction) wd' (host w1) e eq_refl eq_refl)
    as (H1 & H2 & H3).
  unfold dogDone, dogFail, dogTick.
  split; [|split]; apply (withDog_spent env d w1 wd'); assumption.
Qed.
Lemma done_advances_the_queue_once_witness :
  dogDone (pageAt 1000 None) 0 (dogDone (pageAt 1000 None) 0 awaitingDone)
  = dogDone (pageAt 1000 None) 0 awaitingDone.
Proof.
  destruct (done_advances_the_queue_once (pageAt 1000 None) 0 awaitingDone
              (mkWatchDog (Some 0%nat) None (Some (cancelFn 2 5000))
                          (Some 5000))
              0%nat None eq_refl eq_refl) as (H & _).
  exact H.
Defined.

(** ** Timers *)







(** ** Readiness checks *)

Lemma setWaiting_spec (r : ref) (a b : option string) (w : World) :
  (r < length (store w))%nat ->
  fst (setWaiting r a b w) = negb (isSome a)
  /\ getP r (snd (setWaiting r a b w))
     = set_p_waitingState b (set_p_waitingFor a (getP r w))
  /\ els (snd (setWaiting r a b w)) = els w
  /\ length (store (snd (setWaiting r a b w))) = length (store w).
Proof.
  intros Hr. unfold setWaiting. cbn [fst snd].
  rewrite getP_updP_eq by exact Hr. rewrite length_store_updP. auto.
Qed.

Lemma getEl_setEl (which : Which) (el : option elref) (p : Playable) :
  getEl which (setEl which el p) = el.
Proof. destruct which; reflexivity. Qed.

Lemma getEl_waiting (which : Which) (a b : option string) (p : Playable) :
  getEl which (set_p_waitingState b (set_p_waitingFor a p)) = getEl which p.
Proof. destruct which; reflexivity. Qed.

Lemma visibilityReady_default (env : Env) (name : string) (r : ref)
  (e : elref) (w : World) :
  (r < length (store w))%nat -> p_visible (getP r w) = tri_default ->
  let b := fst (visibilityReady env name r (Some e) w) in
  let w1 := snd (visibilityReady env name r (Some e) w) in
  b = isVisible env (elDom e w) /\ els w1 = els w
  /\ length (store w1) = length (store w)
  /\ getP r w1
     = set_p_waitingState
         (if isVisible env (elDom e w) then None else Some "visible")
         (set_p_waitingFor
            (if isVisible env (elDom e w) then None else Some name)
            (getP r w)).
Proof.
  intros Hr Hv. unfold visibilityReady. rewrite Hv. cbn [isTriNull isTriFalse].
  destruct (isVisible env (elDom e w)); cbn [negb];
    match goal with
    | |- context [setWaiting r ?a ?b w] =>
        destruct (setWaiting_spec r a b w Hr) as (H1 & H2 & H3 & H4)
    end;
    cbv zeta; rewrite H1, H2, H3, H4; auto.
Qed.

(** X7. The first readiness check of a located target.  For a playable
    whose target is a locator (not another playable), with no wrapper
    cached yet and the default [available] and [visible]: if [ST.find]
    finds no node the check is false, nothing is cached, and the
    playable waits for the target to be 'available'; if it finds a node
    a new wrapper of that node is cached, and the check is true exactly
    when the node is visible, the playable waiting for it to be
    'visible' otherwise.  The same holds of the related target. *)
Theorem targetReady_first_check (env : Env) (which : Which) (r : ref)
  (w : World) (l : Locator) :
  (r < length (store w))%nat ->
  getTarget which (getP r w) = Some (tgt_loc l) ->
  truthyTarget (Some (tgt_loc l)) = true ->
  getEl which (getP r w) = None ->
  p_available (getP r w) = tri_default -> p_visible (getP r w) = tri_default ->
  let b := fst (targetReady env which r w) in
  let w1 := snd (targetReady env which r w) in
  let p1 := getP r w1 in
  match st_find env l with
  | None =>
      b = false /\ getEl which p1 = None /\ els w1 = els w
      /\ p_waitingFor p1 = Some (whichName which)
      /\ p_waitingState p1 = Some "available"
  | Some d =>
      b = isVisible env d /\ getEl which p1 = Some (length (els w))
      /\ els w1 = els w ++ [d]
      /\ p_waitingFor p1
         = (if isVisible env d then None else Some (whichName which))
      /\ p_waitingState p1
         = (if isVisible env d then None else Some "visible")
  end.
Proof.
  intros Hr Ht Htr Hel Hav Hvi. cbv zeta. unfold targetReady.
  rewrite Ht, Htr, Hel, Hav. cbn [negb isTriFalse isTriNull].
  destruct (st_find env l) as [d|].
  - unfold newElement.
    set (w2 := updP r (setEl which (Some (length (els w))))
                 (set_els (els w ++ [d]) w)).
    assert (Hr2 : (r < length (store w2))%nat).
    { subst w2. rewrite length_store_updP. exact Hr. }
    assert (Hp2 : getP r w2 = setEl which (Some (length (els w))) (getP r w)).
    { subst w2. rewrite getP_updP_eq by exact Hr. reflexivity. }
    assert (Hv2 : p_visible (getP r w2) = tri_default).
    { rewrite Hp2. destruct which; exact Hvi. }
    assert (Hd : elDom (length (els w)) w2 = d).
    { subst w2. unfold elDom. cbn [els updP set_store set_els].
      rewrite lookup_app_r by lia. rewrite Nat.sub_diag. reflexivity. }
    destruct (visibilityReady_default env (whichName which) r
                (length (els w)) w2 Hr2 Hv2) as (Hb & He & _ & Hp).
    rewrite Hd in Hb, Hp. rewrite Hb, He, Hp, Hp2.
    rewrite getEl_waiting, getEl_setEl.
    repeat split; destruct which; reflexivity.
  - destruct (setWaiting_spec r (Some (whichName which)) (Some "available")
                w Hr) as (H1 & H2 & H3 & _).
    rewrite H1, H2, H3, getEl_waiting, Hel. repeat split; reflexivity.
Qed.
Lemma targetReady_first_check_witness :
  fst (targetReady (pageAt 1000 (Some 7%nat)) which_target 0%nat clickQueued)
  = true
  /\ p_targetEl (getP 0%nat clickChecked) = Some 0%nat.
Proof.
  assert (Hr : (0 < length (store clickQueued))%nat) by (vm_compute; lia).
  assert (Ht : getTarget which_target (getP 0%nat clickQueued)
               = Some (tgt_loc (loc_str "#btn")))
    by (vm_compute; reflexivity).
  assert (Hel : getEl which_target (getP 0%nat clickQueued) = None)
    by (vm_compute; reflexivity).
  assert (Hav : p_available (getP 0%nat clickQueued) = tri_default)
    by (vm_compute; reflexivity).
  assert (Hvi : p_visible (getP 0%nat clickQueued) = tri_default)
    by (vm_compute; reflexivity).
  pose proof (targetReady_first_check (pageAt 1000 (Some 7%nat)) which_target
                0%nat clickQueued (loc_str "#btn") Hr Ht eq_refl Hel Hav Hvi)
    as H.
  vm_compute in H. vm_compute. destruct H as (Hb & He & _).
  split; [exact Hb | exact He].
Defined.

(** X8. Later checks of a locator string keep the cached wrapper.  When
    a wrapper is cached for a target given as a locator string, a check
    looks the string up again: a node found replaces the wrapper's node
    in place (no new wrapper is made), and if none is found the wrapper
    keeps the node it had and the playable does not wait for the target
    to be available again.  Either way the check is true exactly when
    the wrapper's node is then visible. *)
Theorem targetReady_later_check (env : Env) (which : Which) (r : ref)
  (w : World) (s : string) (e : elref) :
  (r < length (store w))%nat -> (e < length (els w))%nat ->
  getTarget which (getP r w) = Some (tgt_loc (loc_str s)) ->
  truthyStr s = true -> getEl which (getP r w) = Some e ->
  p_available (getP r w) = tri_default -> p_visible (getP r w) = tri_default ->
  let b := fst (targetReady env which r w) in
  let w1 := snd (targetReady env which r w) in
  let d := default (elDom e w) (st_find env (loc_str s)) in
  b = isVisible env d /\ elDom e w1 = d
  /\ length (els w1) = length (els w)
  /\ getEl which (getP r w1) = Some e
  /\ p_waitingState (getP r w1)
     = (if isVisible env d then None else Some "visible").
Proof.
  intros Hr He Ht Htr Hel Hav Hvi. cbv zeta. unfold targetReady.
  rewrite Ht. cbn [truthyTarget]. rewrite Htr, Hel, Hav.
  cbn [negb isTriFalse].
  set (w2 := match st_find env (loc_str s) with
             | Some dom => if bool_decide (elDom e w = dom) then w
                           else set_els (<[e := dom]> (els w)) w
             | None => w
             end).
  assert (H2 : store w2 = store w /\ length (els w2) = length (els w)
               /\ elDom e w2
                  = default (elDom e w) (st_find env (loc_str s))).
  { subst w2. destruct (st_find env (loc_str s)) as [dom|]; [|auto].
    destruct (bool_decide_reflect (elDom e w = dom)) as [E|E]; [auto|].
    cbn [store els set_els default from_option id].
    split; [reflexivity|]. split; [apply length_insert|].
    unfold elDom. cbn [els set_els].
    rewrite list_lookup_insert_eq by exact He. reflexivity. }
  destruct H2 as (Hs2 & Hl2 & Hd2).
  assert (Hg : getP r w2 = getP r w) by (unfold getP; rewrite Hs2; reflexivity).
  assert (Hr2 : (r < length (store w2))%nat) by (rewrite Hs2; exact Hr).
  assert (Hv2 : p_visible (getP r w2) = tri_default) by (rewrite Hg; exact Hvi).
  destruct (visibilityReady_default env (whichName which) r e w2 Hr2 Hv2)
    as (Hb & Hels & _ & Hp).
  rewrite Hd2 in Hb, Hp. rewrite Hb, Hp, Hg, getEl_waiting, Hel.
  assert (Hd1 : elDom e (snd (visibilityReady env (whichName which) r
                                (Some e) w2)) = elDom e w2).
  { unfold elDom. rewrite Hels. reflexivity. }
  rewrite Hd1, Hd2, Hels, Hl2. repeat split; reflexivity.
Qed.

Lemma targetReady_later_check_witness :
  fst (targetReady (pageAt 1100 (Some 9%nat)) which_target 0%nat clickChecked)
  = true
  /\ elDom 0%nat (snd (targetReady (pageAt 1100 (Some 9%nat)) which_target
                         0%nat clickChecked)) = 9%nat.
Proof.
  assert (Hr : (0 < length (store clickChecked))%nat) by (vm_compute; lia).
  assert (He : (0 < length (els clickChecked))%nat) by (vm_compute; lia).
  assert (Ht : getTarget which_target (getP 0%nat clickChecked)
               = Some (tgt_loc (loc_str "#btn")))
    by (vm_compute; reflexivity).
  assert (Hel : getEl which_target (getP 0%nat clickChecked) = Some 0%nat)
    by (vm_compute; reflexivity).
  assert (Hav : p_available (getP 0%nat clickChecked) = tri_default)
    by (vm_compute; reflexivity).
  assert (Hvi : p_visible (getP 0%nat clickChecked) = tri_default)
    by (vm_compute; reflexivity).
  pose proof (targetReady_later_check (pageAt 1100 (Some 9%nat)) which_target
                0%nat clickChecked "#btn" 0%nat Hr He Ht eq_refl Hel Hav Hvi)
    as H.
  vm_compute in H. vm_compute. destruct H as (Hb & Hd & _).
  split; [exact Hb | exact Hd].
Defined.

(** X9. A back reference shares the wrapper.  A playable whose target
    is an earlier playable takes on its first check the very wrapper
    that playable has cached, without looking anything up and without
    making a wrapper of its own, and is ready exactly when the wrapper's
    node is visible; while the earlier playable has no wrapper the check
    is false and the playable waits for the target to be 'available'. *)
Theorem targetReady_back_reference (env : Env) (which : Which) (r t : ref)
  (w : World) :
  (r < length (store w))%nat ->
  getTarget which (getP r w) = Some (tgt_playable t) ->
  getEl which (getP r w) = None ->
  p_available (getP r w) = tri_default -> p_visible (getP r w) = tri_default ->
  let b := fst (targetReady env which r w) in
  let w1 := snd (targetReady env which r w) in
  let p1 := getP r w1 in
  els w1 = els w
  /\ match getEl which (getP t w) with
     | Some e =>
         b = isVisible env (elDom e w) /\ getEl which p1 = Some e
         /\ p_waitingState p1
            = (if isVisible env (elDom e w) then None else Some "visible")
     | None =>
         b = false /\ getEl which p1 = None
         /\ p_waitingFor p1 = Some (whichName which)
         /\ p_waitingState p1 = Some "available"
     end.
Proof.
  intros Hr Ht Hel Hav Hvi. cbv zeta. unfold targetReady.
  rewrite Ht. cbn [truthyTarget negb]. rewrite Hel, Hav.
  cbn [isTriFalse isTriNull negb].
  set (el := getEl which (getP t w)).
  set (w2 := updP r (setEl which el) w).
  assert (Hr2 : (r < length (store w2))%nat).
  { subst w2. rewrite length_store_updP. exact Hr. }
  assert (Hp2 : getP r w2 = setEl which el (getP r w)).
  { subst w2. rewrite getP_updP_eq by exact Hr. reflexivity. }
  assert (Hv2 : p_visible (getP r w2) = tri_default).
  { rewrite Hp2. destruct which; exact Hvi. }
  assert (Ht2 : getEl which (getP t w2) = el).
  { destruct (decide (r = t)) as [<-|Hne].
    - rewrite Hp2. apply getEl_setEl.
    - subst w2. rewrite getP_updP_ne by exact Hne. reflexivity. }
  destruct el as [e|] eqn:Eel.
  - destruct (visibilityReady_default env (whichName which) r e w2 Hr2 Hv2)
      as (Hb & He & _ & Hp).
    change (elDom e w2) with (elDom e w) in Hb, Hp.
    rewrite Hb, He, Hp, Hp2, getEl_waiting, getEl_setEl.
    repeat split; reflexivity.
  - rewrite Ht2.
    destruct (setWaiting_spec r (Some (whichName which)) (Some "available")
                w2 Hr2) as (H1 & H2 & H3 & _).
    rewrite H1, H2, H3, Hp2, getEl_waiting, getEl_setEl.
    repeat split; reflexivity.
Qed.

Lemma targetReady_back_reference_witness :
  fst (targetReady (pageAt 1100 None) which_target 1%nat downUp) = true
  /\ p_targetEl (getP 1%nat (snd (targetReady (pageAt 1100 None) which_target
                                     1%nat downUp)))
     = p_targetEl (getP 0%nat downUp).
Proof.
  assert (Hr : (1 < length (store downUp))%nat) by (vm_compute; lia).
  assert (Ht : getTarget which_target (getP 1%nat downUp)
               = Some (tgt_playable 0%nat))
    by (vm_compute; reflexivity).
  assert (Hel : getEl which_target (getP 1%nat downUp) = None)
    by (vm_compute; reflexivity).
  assert (Hav : p_available (getP 1%nat downUp) = tri_default)
    by (vm_compute; reflexivity).
  assert (Hvi : p_visible (getP 1%nat downUp) = tri_default)
    by (vm_compute; reflexivity).
  pose proof (targetReady_back_reference (pageAt 1100 None) which_target
                1%nat 0%nat downUp Hr Ht Hel Hav Hvi) as H.
  vm_compute in H. vm_compute. destruct H as (_ & Hb & He & _).
  split; [exact Hb | exact He].
Defined.
(** X10. The prototype's [ready] touches nothing but a playable's
    cached wrappers and waiting tags, and the wrappers' nodes.  Calling
    it leaves the queue, the pending event, the insertion marker, the
    pause count, the timers, the trace, the player's settings and
    counters and the number of playables as they were, and of every
    playable the state, type, function, targets, delay, timeout, id and
    wait stamp. *)
Theorem ready_writes_caches_only (env : Env) (r : ref) (w : World) :
  let w1 := snd (defaultReady env r w) in
  control w1 = control w /\ settings w1 = settings w
  /\ counters w1 = counters w /\ length (store w1) = length (store w)
  /\ forall r',
       p_state (getP r' w1) = p_state (getP r' w)
       /\ p_type (getP r' w1) = p_type (getP r' w)
       /\ p_fn (getP r' w1) = p_fn (getP r' w)
       /\ p_target (getP r' w1) = p_target (getP r' w)
       /\ p_relatedTarget (getP r' w1) = p_relatedTarget (getP r' w)
       /\ p_delay (getP r' w1) = p_delay (getP r' w)
       /\ p_timeout (getP r' w1) = p_timeout (getP r' w)
       /\ p_id (getP r' w1) = p_id (getP r' w)
       /\ p_waitStartTime (getP r' w1) = p_waitStartTime (getP r' w).
Proof.
  destruct (readyFrame_defaultReady env r w) as (Hc & Hs & Hn & Hl & Hg).
  cbv zeta. repeat split; auto; apply Hg; repeat split; reflexivity.
Qed.

Lemma options_fail (message : string) (w : World) :
  options (fail message w) = options w.
Proof.
  unfold fail. destruct (isSome (pendingEvent w) || _); [|reflexivity].
  unfold onEnd, emit, cleanup.
  destruct (truthyZ (eventTimer w)); cbn; destruct (gestureQueue w);
    reflexivity.
Qed.

Lemma fail_fail (m1 m2 : string) (w : World) :
  fail m2 (fail m1 w) = fail m1 w.
Proof.
  destruct (busy w) eqn:Hb.
  - apply fail_idle. destruct (fail_busy m1 w Hb) as (He & Hp & _).
    unfold busy. rewrite He, Hp. reflexivity.
  - rewrite (fail_idle m1 w Hb). apply fail_idle, Hb.
Qed.

(** X11. A [ready] function that throws.  With exceptions handled,
    [isReady] answers false and the player fails with the message
    'Failed with error' followed by the quoted exception: 'error' and
    'end' fire if the player holds playables, and however often the
    playable is checked again nothing more is reported.  With
    exceptions not handled the exception leaves [isReady], and
    [playEvent] with it, before the player does anything. *)
Theorem throwing_ready_fails_the_player_once (env : Env) (r : ref)
  (w : World) (k : nat) (e : string) :
  p_ready (getP r w) = Some (rd_custom k) -> customReady env k = rr_throw e ->
  (opt_handleExceptions (options w) = true ->
   isReady env r w = (Some false, doError e w)
   /\ isReady env r (doError e w) = (Some false, doError e w)
   /\ (busy w = true ->
       trace (doError e w)
       = trace w ++ ev_error ("Failed with error " +:+ dquote +:+ e
                              +:+ dquote) :: endEvents w
       /\ lineup (doError e w) = []))
  /\ (opt_handleExceptions (options w) = false ->
      isReady env r w = (None, emit (ev_uncaught e) w)
      /\ playEvent env r w = emit (ev_uncaught e) w).
Proof.
  intros Hrd Hth. split; intros Hh.
  - assert (H1 : forall w0, p_ready (getP r w0) = Some (rd_custom k) ->
                   opt_handleExceptions (options w0) = true ->
                   isReady env r w0 = (Some false, doError e w0)).
    { intros w0 Hr0 Hh0. unfold isReady, callReady. rewrite Hr0, Hth, Hh0.
      reflexivity. }
    split; [apply H1; assumption|]. split.
    + rewrite H1.
      * unfold doError. rewrite fail_fail. reflexivity.
      * unfold doError, getP. rewrite store_fail. exact Hrd.
      * unfold doError. rewrite options_fail. exact Hh.
    + intros Hb. unfold doError.
      destruct (fail_busy ("Failed with error " +:+ dquote +:+ e +:+ dquote)
                  w Hb) as (He & Hp & Ht & _).
      split; [exact Ht|]. unfold lineup. rewrite Hp, He. reflexivity.
  - assert (H1 : isReady env r w = (None, emit (ev_uncaught e) w)).
    { unfold isReady, callReady. rewrite Hrd, Hth, Hh. reflexivity. }
    split; [exact H1|]. unfold playEvent. rewrite H1. reflexivity.
Qed.

Lemma throwing_ready_fails_the_player_once_witness :
  trace (snd (isReady throwingPage 0%nat customQueued))
  = [ev_error ("Failed with error " +:+ dquote +:+ "boom" +:+ dquote); ev_end].
Proof.
  assert (Hrd : p_ready (getP 0%nat customQueued) = Some (rd_custom 0))
    by (vm_compute; reflexivity).
  assert (Hh : opt_handleExceptions (options customQueued) = true)
    by (vm_compute; reflexivity).
  assert (Hb : busy customQueued = true) by (vm_compute; reflexivity).
  destruct (proj1 (throwing_ready_fails_the_player_once throwingPage 0%nat
                     customQueued 0%nat "boom" Hrd eq_refl) Hh)
    as (H1 & _ & H3).
  rewrite H1. cbn [snd]. destruct (H3 Hb) as (Ht & _).
  vm_compute in Ht. vm_compute. exact Ht.
Defined.
(** ** What [add] makes of its entries *)

Lemma addEntry_nextId (e : Entry) (w : World) (queue added : list ref) :
  entryOk w e -> notFalsy e ->
  nextId (fst (fst (addEntry (w, queue, added) e))) = nextId w + 1.
Proof.
  intros Hok Hnf.
  destruct (entryPlayable_spec e w Hok Hnf)
    as (w0 & Hep & Hr0 & _ & _ & _ & _ & _ & Hn0 & _).
  unfold addEntry. rewrite Hep.
  set (r := entryRef w e) in *.
  set (t := fst (entryTargets w e)). set (rel := snd (entryTargets w e)).
  destruct (promoteTargets_spec queue r t rel w0 Hr0)
    as (_ & _ & Hl1 & _ & _ & Hn1).
  set (w1 := promoteTargets queue r t rel w0) in *.
  assert (Hr1 : (r < length (store w1))%nat) by (rewrite Hl1; exact Hr0).
  destruct (applyDefaults_spec r w1 Hr1) as (_ & _ & Hl2 & _ & _ & Hn2 & _).
  set (w2 := applyDefaults r w1) in *.
  assert (Hr2 : (r < length (store w2))%nat) by (rewrite Hl2; exact Hr1).
  destruct (enlist_spec r w2 Hr2) as (_ & _ & _ & _ & _ & Hn3 & _).
  cbn [fst]. rewrite Hn3. unfold counters in *. f_equal. congruence.
Qed.

Lemma fresh_ok (w : World) (e : Entry) :
  isFresh e = true -> entryOk w e /\ notFalsy e /\ entryRef w e = length (store w).
Proof. destruct e; cbn; intros H; try discriminate; auto. Qed.

Lemma configured_fresh (w w0 : World) (queue : list ref) (e : Entry) :
  isFresh e = true -> settings w0 = settings w -> nextId w0 = nextId w ->
  els w0 = els w -> configured w0 queue e = configured w queue e.
Proof.
  intros Hf Hs Hn He. unfold configured. rewrite Hn.
  assert (Hb : entryBase w0 e = entryBase w e)
    by (destruct e; cbn in *; try discriminate; reflexivity).
  assert (Ht : entryTargets w0 e = entryTargets w e)
    by (destruct e; cbn in *; try discriminate; reflexivity).
  rewrite Hb, Ht. rewrite (defaultsP_settings w w0) by exact Hs.
  rewrite (targetsP_els queue _ _ w w0) by exact He. reflexivity.
Qed.

(** The loop of [add] over entries none of which is a playable already
    or falsy: the new playables take the next addresses of the store,
    those before are left alone, and the playable of entry [i] is what
    one round makes of it in a world with the same settings and the
    [i]-th next id. *)
Lemma addEntries_fresh (entries : list Entry) :
  forall (w : World) (queue added : list ref),
  Forall (fun e => isFresh e = true) entries ->
  exists w',
    fold_left addEntry entries (w, queue, added)
    = (w', queue ++ seq (length (store w)) (length entries),
       added ++ seq (length (store w)) (length entries))
    /\ length (store w') = (length (store w) + length entries)%nat
    /\ control w' = control w /\ settings w' = settings w
    /\ nextId w' = nextId w + Z.of_nat (length entries)
    /\ (forall r, (r < length (store w))%nat -> getP r w' = getP r w)
    /\ (forall i e, entries !! i = Some e ->
          exists wi, settings wi = settings w
            /\ nextId wi = nextId w + Z.of_nat i
            /\ getP (length (store w) + i) w'
               = configured wi (queue ++ seq (length (store w)) i) e).
Proof.
  induction entries as [|e rest IH]; intros w queue added Hf.
  - exists w. cbn. rewrite !app_nil_r, Nat.add_0_r, Z.add_0_r.
    repeat split; auto. intros i e H. discriminate.
  - inversion Hf as [|? ? He Hrest]; subst.
    destruct (fresh_ok w e He) as (Hok & Hnf & Href).
    destruct (addEntry_spec e w queue added Hok Hnf)
      as (w1 & H1 & Hr1 & Hc1 & Ho1 & Hl1 & Hct1 & Hs1).
    pose proof (addEntry_nextId e w queue added Hok Hnf) as Hn1.
    rewrite H1 in Hn1. cbn [fst] in Hn1.
    rewrite Href in *. rewrite He in Hl1.
    destruct (IH w1 (queue ++ [length (store w)])
                (added ++ [length (store w)]) Hrest)
      as (w' & Hfold & Hl & Hct & Hs & Hn & Hold & Hnew).
    exists w'. cbn [fold_left length seq]. rewrite H1, Hfold.
    rewrite Hl1, <- !app_assoc. cbn [app].
    replace (length (store w) + 1)%nat with (S (length (store w))) by lia.
    split; [reflexivity|].
    split; [rewrite Hl, Hl1; lia|].
    split; [congruence|]. split; [congruence|].
    split; [rewrite Hn, Hn1; lia|].
    split.
    + intros r Hr. rewrite Hold by lia. apply Ho1. lia.
    + intros [|i] e' Hi; cbn in Hi.
      * injection Hi as <-. exists w. split; [reflexivity|].
        split; [lia|]. rewrite Nat.add_0_r, Hold by lia.
        cbn [seq]. rewrite app_nil_r. exact Hc1.
      * destruct (Hnew i e' Hi) as (wi & Hsi & Hni & Hgi).
        exists wi. split; [congruence|]. split; [lia|].
        replace (length (store w) + S i)%nat
          with (length (store w1) + i)%nat by lia.
        rewrite Hgi, Hl1, <- app_assoc. cbn [app seq].
        replace (length (store w) + 1)%nat with (S (length (store w)))
          by lia.
        reflexivity.
Qed.

Lemma insertIndex_nextId (index : option nat) (count : nat) (w : World) :
  nextId (snd (insertIndex index count w)) = nextId w.
Proof.
  unfold insertIndex. destruct index; [reflexivity|].
  destruct (pendingFn w); reflexivity.
Qed.

Lemma nextId_playNext (w : World) : nextId (playNext w) = nextId w.
Proof.
  unfold playNext.
  destruct (negb (isSome (pendingEvent w)) && (paused w =? 0)%nat);
    [|reflexivity].
  destruct (events w); [unfold onEnd; destruct (gestureQueue w)|];
    reflexivity.
Qed.

Lemma add_fresh (index : option nat) (entries : list Entry) (w : World) :
  Forall (fun e => isFresh e = true) entries ->
  snd (add index entries w) = seq (length (store w)) (length entries)
  /\ nextId (fst (add index entries w))
     = nextId w + Z.of_nat (length entries)
  /\ (forall i e, entries !! i = Some e ->
        exists wi, settings wi = settings w
          /\ nextId wi = nextId w + Z.of_nat i
          /\ forall T (g : Playable -> T),
               (forall s p, g (set_p_state s p) = g p) ->
               g (getP (length (store w) + i) (fst (add index entries w)))
               = g (configured wi (addPrefix index entries w
                                   ++ seq (length (store w)) i) e)).
Proof.
  intros Hf.
  pose proof (insertIndex_spec index (length entries) w) as Hi.
  cbv zeta in Hi.
  destruct Hi as (Hst & Hse & Hev & _).
  pose proof (insertIndex_nextId index (length entries) w) as Hni.
  assert (Henq : enqueue index entries w
    = (let idx := fst (insertIndex index (length entries) w) in
       let w0 := snd (insertIndex index (length entries) w) in
       let r := fold_left addEntry entries (w0, addPrefix index entries w, []) in
       (set_events (if (idx <? length (events w))%nat
                    then snd (fst r) ++ drop idx (events w)
                    else snd (fst r)) (fst (fst r)),
        snd r))).
  { unfold enqueue, addPrefix.
    destruct (insertIndex index (length entries) w) as [idx w0].
    cbn [fst snd].
    destruct (fold_left addEntry entries _) as [[w1 q1] a1].
    reflexivity. }
  cbv zeta in Henq.
  destruct (addEntries_fresh entries
              (snd (insertIndex index (length entries) w))
              (addPrefix index entries w) [] Hf)
    as (w' & Hfold & Hl & Hct & Hs & Hn & Hold & Hnew).
  rewrite Hfold in Henq. cbn [fst snd app] in Henq.
  assert (Hlen : length (store (snd (insertIndex index (length entries) w)))
                 = length (store w)) by (rewrite Hst; reflexivity).
  rewrite Hlen in *.
  rewrite add_unfold, Henq. cbn [fst snd]. split; [reflexivity|].
  split.
  - match goal with
    | |- context [if ?c then playNext ?x else ?x] =>
        destruct c; rewrite ?nextId_playNext
    end; cbn [nextId set_events]; rewrite Hn, Hni; reflexivity.
  - intros i e Hie. destruct (Hnew i e Hie) as (wi & Hsi & Hnii & Hgi).
    exists wi. split; [congruence|]. split; [congruence|].
    intros T g Hg.
    match goal with
    | |- context [if ?c then playNext ?x else ?x] =>
        destruct c; rewrite ?playNext_field by exact Hg
    end;
    (unfold getP in *; cbn [store set_events]; rewrite Hgi; reflexivity).
Qed.
Lemma configured_id (w : World) (queue : list ref) (e : Entry) :
  p_id (configured w queue e) = Some (nextId w).
Proof. reflexivity. Qed.

Lemma entryBase_fn (w : World) (e : Entry) : p_fn (entryBase w e) = entryFn w e.
Proof. destruct e; reflexivity. Qed.

Lemma entryBase_type (w : World) (e : Entry) :
  p_type (entryBase w e) = entryType w e.
Proof. destruct e; reflexivity. Qed.

Lemma entry_fresh_views (w wi : World) (e : Entry) :
  isFresh e = true ->
  entryFn wi e = entryFn w e /\ entryType wi e = entryType w e.
Proof. destruct e; cbn; intros H; try discriminate; auto. Qed.

(** X12. One playable per entry, in order, with consecutive ids.  For
    entries that are numbers, functions or config objects, [add] returns
    the next addresses of the store in the order of the entries and
    moves the id counter on by their number; the playable of entry [i]
    has the [i]-th next id and the function and the type its entry
    gives. *)
Theorem add_numbers_new_playables (index : option nat)
  (entries : list Entry) (w : World) :
  Forall (fun e => isFresh e = true) entries ->
  let w' := fst (add index entries w) in
  let n := length (store w) in
  snd (add index entries w) = seq n (length entries)
  /\ nextId w' = nextId w + Z.of_nat (length entries)
  /\ forall i e, entries !! i = Some e ->
       p_id (getP (n + i) w') = Some (nextId w + Z.of_nat i)
       /\ p_fn (getP (n + i) w') = entryFn w e
       /\ p_type (getP (n + i) w') = entryType w e.
Proof.
  intros Hf. destruct (add_fresh index entries w Hf) as (Hs & Hn & Hg).
  cbv zeta. split; [exact Hs|]. split; [exact Hn|].
  intros i e Hie. destruct (Hg i e Hie) as (wi & Hsi & Hni & Hgi).
  assert (He : isFresh e = true).
  { exact (Forall_lookup_1 _ _ _ _ Hf Hie). }
  destruct (entry_fresh_views w wi e He) as (Hfn & Hty).
  rewrite (Hgi _ p_id), (Hgi _ p_fn), (Hgi _ p_type) by reflexivity.
  rewrite configured_id, Hni.
  rewrite (configured_steady p_fn) by apply addSteady_fn.
  rewrite (configured_steady p_type) by apply addSteady_type.
  rewrite entryBase_fn, entryBase_type, Hfn, Hty. auto.
Qed.

Lemma add_numbers_new_playables_witness :
  snd (add None [syncFn []; eventOn "click" "#btn" None] player0)
  = [0; 1]%nat
  /\ p_id (getP 1%nat (fst (add None [syncFn []; eventOn "click" "#btn" None]
                                player0))) = Some 2.
Proof.
  assert (Hf : Forall (fun e : Entry => isFresh e = true)
                      [syncFn []; eventOn "click" "#btn" None])
    by (repeat constructor).
  destruct (add_numbers_new_playables None
              [syncFn []; eventOn "click" "#btn" None] player0 Hf)
    as (Hs & _ & Hg).
  split; [vm_compute in Hs; vm_compute; exact Hs|].
  destruct (Hg 1%nat (eventOn "click" "#btn" None) eq_refl) as (Hid & _).
  vm_compute in Hid. vm_compute. exact Hid.
Defined.




Lemma configured_defaults (w : World) (queue : list ref) (c : Config) :
  let p := configured w queue (ent_config c) in
  p_timeout p
  = (if negb (truthyZ (opt_timeout (options w))) then Some 0
     else Some (default (default (opt_timeout (options w)) (pl_timeout w))
                        (cfg_timeout c)))
  /\ p_delay p
     = match cfg_delay c with
       | Some d => Some d
       | None => if isSome (cfg_fn c) then Some 0
                 else if isEventType (cfg_type c) then eventDelay w else None
       end
  /\ p_animation p = Some (default (pauseForAnimations w) (cfg_animation c)).
Proof.
  unfold configured, enlistP, defaultsP, targetsP. cbn [entryTargets fst snd].
  destruct (promote queue (cfg_target c) w) as [[t1 e1] w1].
  destruct (promote queue (cfg_relatedTarget c) w1) as [[t2 e2] w2].
  cbn [entryBase].
  destruct c as [ty tg rt dl to an vi av rd fn py].
  cbn [cfg_type cfg_delay cfg_timeout cfg_animation cfg_fn].
  destruct e1, e2, dl, to, an, fn; cbn;
    destruct (isEventType ty), (truthyZ (opt_timeout (options w)));
    repeat split; reflexivity.
Qed.

(** X14. The defaults [add] gives a config object when
    [ST.options.timeout] is not 0: the timeout is the entry's own, else
    the player's, else [ST.options.timeout]; the delay is the entry's
    own, else 0 for a function, else the player's [eventDelay] for an
    event type other than 'wait', else none; [animation] is the entry's
    own, else the player's [pauseForAnimations]. *)
Theorem add_applies_defaults (index : option nat) (entries : list Entry)
  (w : World) (i : nat) (c : Config) :
  Forall (fun e => isFresh e = true) entries ->
  entries !! i = Some (ent_config c) ->
  opt_timeout (options w) <> 0 ->
  let p := getP (length (store w) + i) (fst (add index entries w)) in
  p_timeout p
  = Some (default (default (opt_timeout (options w)) (pl_timeout w))
                  (cfg_timeout c))
  /\ p_delay p
     = match cfg_delay c with
       | Some d => Some d
       | None => if isSome (cfg_fn c) then Some 0
                 else if isEventType (cfg_type c) then eventDelay w else None
       end
  /\ p_animation p = Some (default (pauseForAnimations w) (cfg_animation c)).
Proof.
  intros Hf Hie Hto. cbv zeta.
  destruct (add_fresh index entries w Hf) as (_ & _ & Hg).
  destruct (Hg i _ Hie) as (wi & Hsi & _ & Hgi).
  rewrite (Hgi _ p_timeout), (Hgi _ p_delay), (Hgi _ p_animation)
    by reflexivity.
  destruct (configured_defaults wi (addPrefix index entries w
                                    ++ seq (length (store w)) i) c)
    as (H1 & H2 & H3).
  rewrite H1, H2, H3. unfold settings in Hsi.
  injection Hsi as Ho _ Hpt Hed _ Hpa _.
  rewrite Ho, Hpt, Hed, Hpa.
  assert (Htr : truthyZ (opt_timeout (options w)) = true).
  { unfold truthyZ. apply negb_true_iff, Z.eqb_neq, Hto. }
  rewrite Htr. auto.
Qed.

Lemma add_applies_defaults_witness :
  p_timeout (getP 0%nat clickQueued) = Some 5000
  /\ p_delay (getP 0%nat clickQueued) = Some 0
  /\ p_animation (getP 0%nat clickQueued) = Some true.
Proof.
  assert (Hf : Forall (fun e : Entry => isFresh e = true)
                      [eventOn "click" "#btn" None])
    by (repeat constructor).
  assert (Hto : opt_timeout (options player0) <> 0) by discriminate.
  pose proof (add_applies_defaults None [eventOn "click" "#btn" None] player0
                0%nat _ Hf eq_refl Hto) as H.
  vm_compute in H. vm_compute. exact H.
Defined.
(** ** Typing *)

Lemma lookup_pairs {A B} (f g : A -> B) (l : list A) (i : nat) (x : A) :
  l !! i = Some x ->
  concat (map (fun k => [f k; g k]) l) !! (2 * i)%nat = Some (f x)
  /\ concat (map (fun k => [f k; g k]) l) !! (2 * i + 1)%nat = Some (g x).
Proof.
  revert i. induction l as [|y l IH]; intros i Hi; [discriminate|].
  destruct i as [|i]; cbn in Hi.
  - injection Hi as ->. cbn. auto.
  - replace (2 * S i)%nat with (S (S (2 * i))) by lia.
    replace (S (S (2 * i)) + 1)%nat with (S (S (2 * i + 1))) by lia.
    cbn [map concat app lookup list_lookup]. apply IH, Hi.
Qed.

Lemma length_pairs {A B} (f g : A -> B) (l : list A) :
  length (concat (map (fun k => [f k; g k]) l)) = (2 * length l)%nat.
Proof. induction l as [|y l IH]; cbn [map concat app length]; lia. Qed.

Lemma map_lookup_Some {A B} (f : A -> B) (l : list A) (i : nat) (x : A) :
  l !! i = Some x -> map f l !! i = Some (f x).
Proof.
  revert i. induction l as [|y l IH]; intros [|i] H; try discriminate.
  - injection H as ->. reflexivity.
  - cbn in *. apply IH, H.
Qed.

Lemma Forall_map_all {A B} (P : B -> Prop) (f : A -> B) (l : list A) :
  (forall x, P (f x)) -> Forall P (map f l).
Proof. intros H. induction l; constructor; auto. Qed.

Lemma withFirst_length (delay caret : option Z) (l : list Config) :
  length (withFirst delay caret l) = length l.
Proof. destruct l; reflexivity. Qed.

Lemma withFirst_later (delay caret : option Z) (l : list Config) (j : nat) :
  withFirst delay caret l !! S j = l !! S j.
Proof. destruct l; reflexivity. Qed.

Lemma withFirst_first (delay caret : option Z) (l : list Config) (c : Config) :
  l !! 0%nat = Some c ->
  exists c', withFirst delay caret l !! 0%nat = Some c'
    /\ cfg_type c' = cfg_type c /\ cfg_target c' = cfg_target c
    /\ cfg_fn c' = cfg_fn c /\ cfg_delay c' = delay
    /\ pay_key (cfg_payload c') = pay_key (cfg_payload c)
    /\ pay_caret (cfg_payload c')
       = (if isSome caret then caret else pay_caret (cfg_payload c)).
Proof.
  destruct l as [|c0 l]; [discriminate|]. cbn. intros [= ->].
  eexists. split; [reflexivity|]. destruct caret; cbn; auto 10.
Qed.

Lemma configured_key (w : World) (queue : list ref) (c : Config)
  (target : option elref) :
  cfg_target c = match target with
                 | Some e => Some (ct_loc (loc_el e))
                 | None => None
                 end ->
  cfg_relatedTarget c = None ->
  let p := configured w queue (ent_config c) in
  p_targetEl p = target /\ p_type p = cfg_type c
  /\ p_payload p = cfg_payload c.
Proof.
  intros Ht Hr. cbv zeta.
  rewrite (configured_steady p_type) by apply addSteady_type.
  rewrite (configured_steady p_payload) by apply addSteady_payload.
  split; [|split; reflexivity].
  unfold configured, enlistP, defaultsP, targetsP. cbn [entryTargets fst snd].
  rewrite Ht, Hr.
  destruct target as [e|]; cbn [promote setIf entryBase];
    repeat match goal with
           | |- context [if ?c then _ else _] => destruct c
           end; reflexivity.
Qed.

(** X15. Typing a text.  A 'type' playable with a text of [N]
    characters, whose target is not a locator string, puts [2 N]
    playables at the head of the queue: for each character in order a
    'keydown' and a 'keyup' carrying it as [key], on the element the
    'type' playable resolved.  The first 'keydown' waits the playable's
    own delay, else the player's [eventDelay]; the later ones wait
    [typingDelay], else [eventDelay]; every 'keyup' follows at once. *)
Theorem expandType_types_each_character (env : Env) (event : ref)
  (w : World) (text : string) :
  pay_text (p_payload (getP event w)) = Some text -> truthyStr text = true ->
  (forall s, p_target (getP event w) <> Some (tgt_loc (loc_str s))) ->
  let n := length (store w) in
  let keys := chars text in
  exists w',
    expandType env event w = Some w'
    /\ lineup w'
       = option_list (pendingEvent w) ++ seq n (2 * length keys) ++ events w
    /\ forall i k, keys !! i = Some k ->
         let down := getP (n + 2 * i) w' in
         let up := getP (n + 2 * i + 1) w' in
         (p_type down = Some "keydown" /\ pay_key (p_payload down) = Some k
          /\ p_targetEl down = p_targetEl (getP event w)
          /\ p_delay down
             = (if (i =? 0)%nat
                then orZ (p_delay (getP event w)) (eventDelay w)
                else match typingDelay w with
                     | Some d => Some d
                     | None => eventDelay w
                     end))
         /\ (p_type up = Some "keyup" /\ pay_key (p_payload up) = Some k
             /\ p_targetEl up = p_targetEl (getP event w)
             /\ p_delay up = Some 0).
Proof.
  intros Htext Htr Hnostr n keys.
  set (p := getP event w) in *.
  set (down := fun k => keyConfig "keydown" (p_targetEl p) k (typingDelay w)).
  set (up := fun k => keyConfig "keyup" (p_targetEl p) k (Some 0)).
  set (cfgs := withFirst (orZ (p_delay p) (eventDelay w))
                         (pay_caret (p_payload p))
                         (concat (map (fun k => [down k; up k]) keys))).
  assert (Hexp : expandType env event w
                 = Some (fst (add (Some 0%nat) (map ent_config cfgs) w))).
  { unfold expandType. fold p. rewrite Htext.
    change (default EmptyString (Some text)) with text. rewrite Htr.
    destruct (p_target p) as [[r|[s| | | |]]|] eqn:Et; try reflexivity.
    exfalso. exact (Hnostr s eq_refl). }
  assert (Hlen : length cfgs = (2 * length keys)%nat).
  { subst cfgs. rewrite withFirst_length. apply length_pairs. }
  assert (Hf : Forall (fun e : Entry => isFresh e = true)
                      (map ent_config cfgs)).
  { apply Forall_map_all. reflexivity. }
  assert (Hok : Forall (entryOk w) (map ent_config cfgs)).
  { apply Forall_map_all. intros c. exact I. }
  destruct (add_fresh (Some 0%nat) (map ent_config cfgs) w Hf)
    as (Hs & _ & Hg).
  rewrite length_map in Hs.
  apply (fun H => eq_trans H (f_equal (seq (length (store w))) Hlen)) in Hs.
  fold n in Hs, Hg.
  exists (fst (add (Some 0%nat) (map ent_config cfgs) w)).
  split; [exact Hexp|]. split.
  - destruct (enqueue_spec (Some 0%nat) (map ent_config cfgs) w Hok)
      as (w1 & Hq & Hev & _ & (Hpe & _) & _).
    cbn [insertIndex fst] in Hev. rewrite take_0, drop_0 in Hev.
    cbn [app] in Hev.
    assert (Hnews : entryRefs (length (store w)) (map ent_config cfgs)
                    = seq n (2 * length keys)).
    { rewrite <- Hs. rewrite add_unfold, Hq. reflexivity. }
    rewrite Hnews in Hev.
    rewrite add_unfold, Hq. cbn [fst].
    assert (Hl1 : lineup w1 = option_list (pendingEvent w)
                              ++ seq n (2 * length keys) ++ events w).
    { unfold lineup. rewrite Hpe, Hev. destruct (pendingEvent w); reflexivity. }
    destruct (active w1 && negb (isSome (pendingEvent w1)));
      rewrite ?lineup_playNext; exact Hl1.
  - intros i k Hk. cbv zeta.
    destruct (lookup_pairs down up keys i k Hk) as (Hd & Hu).
    assert (Hup : map ent_config cfgs !! (2 * i + 1)%nat
                  = Some (ent_config (up k))).
    { apply map_lookup_Some. subst cfgs.
      replace (2 * i + 1)%nat with (S (2 * i)) in * by lia.
      rewrite withFirst_later. exact Hu. }
    assert (Hdn : exists c, map ent_config cfgs !! (2 * i)%nat
                            = Some (ent_config c)
                  /\ cfg_type c = Some "keydown"
                  /\ cfg_target c = cfg_target (down k)
                  /\ cfg_relatedTarget c = None /\ cfg_fn c = None
                  /\ pay_key (cfg_payload c) = Some k
                  /\ cfg_delay c = if (i =? 0)%nat
                                   then orZ (p_delay p) (eventDelay w)
                                   else typingDelay w).
    { destruct i as [|i].
      - destruct (withFirst_first (orZ (p_delay p) (eventDelay w))
                    (pay_caret (p_payload p)) _ _ Hd)
          as (c' & Hc' & Hty & Htg & Hfn & Hdl & Hky & _).
        exists c'. fold cfgs in Hc'.
        change (2 * 0)%nat with 0%nat.
        split; [apply map_lookup_Some, Hc'|].
        rewrite Hty, Htg, Hfn, Hky, Hdl.
        assert (Hrel : cfg_relatedTarget c' = None).
        { revert Hc'. subst cfgs. destruct keys as [|k0 ks]; [discriminate|].
          cbn. intros [= <-]. reflexivity. }
        auto 10.
      - exists (down k). split.
        + apply map_lookup_Some. subst cfgs.
          replace (2 * S i)%nat with (S (S (2 * i))) in * by lia.
          rewrite withFirst_later. exact Hd.
        + cbn. auto 10. }
    destruct Hdn as (c & Hc & Hty & Htg & Hrel & Hfn & Hky & Hdl).
    destruct (Hg _ _ Hc) as (wd & Hsd & _ & Hgd).
    destruct (Hg _ _ Hup) as (wu & Hsu & _ & Hgu).
    assert (Hed : eventDelay wd = eventDelay w)
      by (unfold settings in Hsd; congruence).
    split.
    + rewrite (Hgd _ p_type), (Hgd _ p_payload), (Hgd _ p_targetEl),
        (Hgd _ p_delay) by reflexivity.
      destruct (configured_key wd (addPrefix (Some 0%nat)
                                     (map ent_config cfgs) w
                                   ++ seq n (2 * i)) c (p_targetEl p))
        as (H1 & H2 & H3); [exact Htg|exact Hrel|].
      destruct (configured_defaults wd (addPrefix (Some 0%nat)
                                          (map ent_config cfgs) w
                                        ++ seq n (2 * i)) c)
        as (_ & H4 & _).
      rewrite H1, H2, H3, H4, Hty, Hky, Hdl, Hfn, Hed.
      cbn [isSome isEventType truthyStr String.eqb Ascii.eqb Bool.eqb negb
           andb].
      repeat split.
      destruct (i =? 0)%nat.
      * unfold orZ. destruct (truthyOptZ (p_delay p)) eqn:Ep.
        -- destruct (p_delay p); [reflexivity|discriminate].
        -- destruct (eventDelay w); reflexivity.
      * reflexivity.
    + replace (n + 2 * i + 1)%nat with (n + (2 * i + 1))%nat by lia.
      rewrite (Hgu _ p_type), (Hgu _ p_payload), (Hgu _ p_targetEl),
        (Hgu _ p_delay) by reflexivity.
      destruct (configured_key wu (addPrefix (Some 0%nat)
                                     (map ent_config cfgs) w
                                   ++ seq n (2 * i + 1)) (up k)
                  (p_targetEl p))
        as (H1 & H2 & H3); [reflexivity|reflexivity|].
      destruct (configured_defaults wu (addPrefix (Some 0%nat)
                                          (map ent_config cfgs) w
                                        ++ seq n (2 * i + 1)) (up k))
        as (_ & H4 & _).
      rewrite H1, H2, H3, H4. repeat split.
Qed.

Lemma expandType_types_each_character_witness :
  exists w', expandType (pageAt 1000 None) 0%nat typing = Some w'
             /\ lineup w' = [1; 2; 3; 4; 0]%nat.
Proof.
  assert (Ht : pay_text (p_payload (getP 0%nat typing)) = Some "ab")
    by (vm_compute; reflexivity).
  assert (Hn : forall s, p_target (getP 0%nat typing)
                         <> Some (tgt_loc (loc_str s)))
    by (intros s; vm_compute; discriminate).
  destruct (expandType_types_each_character (pageAt 1000 None) 0%nat typing
              "ab" Ht eq_refl Hn) as (w' & He & Hl & _).
  exists w'. split; [exact He|]. vm_compute in Hl. exact Hl.
Defined.
(** ** Playing a queue of plain playables *)

Lemma sameCore_refl (w : World) : sameCore w w.
Proof. repeat split. Qed.

Lemma sameCore_trans (w w1 w2 : World) :
  sameCore w w1 -> sameCore w1 w2 -> sameCore w w2.
Proof.
  intros (Hl & He & Hg & Hc) (Hl' & He' & Hg' & Hc').
  split; [congruence|]. split; [congruence|]. split; [congruence|].
  intros r. rewrite Hc'. apply Hc.
Qed.

Lemma sameCore_updP (r : ref) (f : Playable -> Playable) (w : World) :
  (forall p, coreFields (f p) = coreFields p) -> sameCore w (updP r f w).
Proof.
  intros Hf. split; [apply length_store_updP|]. repeat split.
  intros r'. apply (getP_updP_field coreFields). exact Hf.
Qed.

Lemma sameCore_plain (w w1 : World) (r : ref) :
  sameCore w w1 -> plain w r -> plain w1 r.
Proof.
  intros (Hl & _ & _ & Hc) (Hr & H). specialize (Hc r).
  unfold coreFields in Hc. injection Hc as Hfn Hrd Htg Hrt Hty _ _.
  unfold plain. rewrite Hl, Hfn, Hrd, Htg, Hrt, Hty. auto.
Qed.

Lemma sameCore_injectionOf (w w1 : World) (r : ref) :
  sameCore w w1 -> injectionOf w1 r = injectionOf w r.
Proof.
  intros (_ & He & _ & Hc). specialize (Hc r).
  unfold coreFields in Hc. injection Hc as _ _ _ _ Hty Hte Hre.
  unfold injectionOf, withDom, elDom. rewrite Hty, Hte, Hre, He. reflexivity.
Qed.

Lemma sameCore_endEvents (w w1 : World) :
  sameCore w w1 -> endEvents w1 = endEvents w.
Proof. intros (_ & _ & Hg & _). unfold endEvents. rewrite Hg. reflexivity. Qed.

Lemma sameCore_setWaiting (r : ref) (a b : option string) (w : World) :
  sameCore w (snd (setWaiting r a b w)).
Proof. apply sameCore_updP. reflexivity. Qed.

(** The readiness check of a plain playable in a calm page is true. *)
Lemma callReady_plain (env : Env) (e : ref) (w : World) :
  plain w e -> calm env ->
  fst (callReady env e w) = rr_true /\ sameCore w (snd (callReady env e w)).
Proof.
  intros (Hr & Hfn & Hrd & Htg & Hrt & _) Hcalm.
  set (clr := fun p => set_p_waitingState None (set_p_waitingFor None p)).
  set (w1 := updP e clr w). set (w2 := updP e clr w1).
  set (w3 := updP e clr w2).
  assert (Ha : animationsDone env e w = (true, w1)).
  { unfold animationsDone. rewrite Hcalm.
    destruct (p_animation (getP e w)) as [[|]|]; reflexivity. }
  assert (H1 : targetReady env which_target e w1 = (true, w2)).
  { unfold targetReady.
    replace (getTarget which_target (getP e w1)) with (@None Target);
      [reflexivity|].
    subst w1. cbn [getTarget].
    rewrite (getP_updP_field p_target) by reflexivity. auto. }
  assert (H2 : targetReady env which_related e w2 = (true, w3)).
  { unfold targetReady.
    replace (getTarget which_related (getP e w2)) with (@None Target);
      [reflexivity|].
    subst w2 w1. cbn [getTarget].
    rewrite !(getP_updP_field p_relatedTarget) by reflexivity. auto. }
  unfold callReady. rewrite Hrd. unfold defaultReady.
  rewrite Ha. cbv beta iota zeta. rewrite H1. cbv beta iota zeta.
  rewrite H2. cbn [fst snd].
  split; [reflexivity|].
  apply (sameCore_trans _ w1); [apply sameCore_updP; reflexivity|].
  apply (sameCore_trans _ w2); apply sameCore_updP; reflexivity.
Qed.

Lemma not_expanded (t : option string) :
  t <> Some "tap" -> t <> Some "type" ->
  String.eqb (default EmptyString t) "tap" = false
  /\ String.eqb (default EmptyString t) "type" = false.
Proof.
  intros H1 H2. destruct t as [s|]; [|split; reflexivity].
  cbn [default from_option id].
  split; apply String.eqb_neq; congruence.
Qed.
Lemma sameCore_store (w w1 : World) :
  store w1 = store w -> els w1 = els w -> gestureQueue w1 = gestureQueue w ->
  sameCore w w1.
Proof.
  intros Hs He Hg. unfold sameCore, getP. rewrite Hs. auto.
Qed.

Lemma injectEvent_frame (env : Env) (e : ref) (type : string)
  (target related : option elref) (w : World) :
  let w1 := injectEvent env e type target related w in
  store w1 = store w /\ els w1 = els w /\ gestureQueue w1 = gestureQueue w
  /\ pendingEvent w1 = pendingEvent w /\ events w1 = events w
  /\ paused w1 = paused w /\ host w1 = host w
  /\ trace w1 = trace w ++ [ev_inject e type (withDom target w)
                                      (withDom related w)].
Proof.
  unfold injectEvent, emit.
  destruct (gestureStartEvents type); [|destruct (gestureEndEvents type)];
    cbn; repeat split; reflexivity.
Qed.

(** Playing a plain playable that is ready: the injector is handed its
    event, if it has one, and the player goes on to the next. *)
Lemma playReady_plain (env : Env) (e : ref) (w : World) :
  plain w e ->
  exists x, playReady env e w = playNext x
    /\ pendingEvent x = None /\ events x = events w /\ paused x = paused w
    /\ host x = host w /\ trace x = trace w ++ injectionOf w e
    /\ sameCore w x.
Proof.
  intros (Hr & Hfn & Hrd & Htg & Hrt & Htap & Htype).
  destruct (not_expanded _ Htap Htype) as (E1 & E2).
  unfold playReady. rewrite Hfn. cbn [isSome]. rewrite E1, E2.
  unfold injectionOf.
  set (w2 := set_pendingEvent None (updP e (set_p_state st_playing) w)).
  assert (Hs2 : sameCore w w2).
  { apply (sameCore_trans _ (updP e (set_p_state st_playing) w));
      [apply sameCore_updP; reflexivity|]. repeat split. }
  assert (Hw2 : pendingEvent w2 = None /\ events w2 = events w
                /\ paused w2 = paused w /\ host w2 = host w
                /\ trace w2 = trace w /\ els w2 = els w).
  { subst w2. cbn. repeat split; reflexivity. }
  destruct Hw2 as (Hp2 & He2 & Hn2 & Hh2 & Ht2 & Hl2).
  destruct (isEventType (p_type (getP e w))).
  - eexists. split; [reflexivity|].
    destruct (injectEvent_frame env e (default EmptyString (p_type (getP e w)))
                (p_targetEl (getP e w)) (p_relatedEl (getP e w)) w2)
      as (Hs & He & Hg & Hp & Hev & Hn & Hh & Ht).
    set (w3 := injectEvent env e (default EmptyString (p_type (getP e w)))
                 (p_targetEl (getP e w)) (p_relatedEl (getP e w)) w2) in *.
    change (pendingEvent (updP e (set_p_state st_done) w3))
      with (pendingEvent w3).
    change (events (updP e (set_p_state st_done) w3)) with (events w3).
    change (paused (updP e (set_p_state st_done) w3)) with (paused w3).
    change (host (updP e (set_p_state st_done) w3)) with (host w3).
    change (trace (updP e (set_p_state st_done) w3)) with (trace w3).
    rewrite Hp, Hev, Hn, Hh, Ht, Hp2, He2, Hn2, Hh2, Ht2.
    unfold withDom, elDom. rewrite Hl2.
    repeat (split; [reflexivity|]).
    apply (sameCore_trans _ w2); [exact Hs2|].
    apply (sameCore_trans _ w3); [apply sameCore_store; assumption|].
    apply sameCore_updP. reflexivity.
  - eexists. split; [reflexivity|].
    change (pendingEvent (updP e (set_p_state st_done) w2))
      with (pendingEvent w2).
    change (events (updP e (set_p_state st_done) w2)) with (events w2).
    change (paused (updP e (set_p_state st_done) w2)) with (paused w2).
    change (host (updP e (set_p_state st_done) w2)) with (host w2).
    change (trace (updP e (set_p_state st_done) w2)) with (trace w2).
    rewrite Hp2, He2, Hn2, Hh2, Ht2, app_nil_r.
    repeat (split; [reflexivity|]).
    apply (sameCore_trans _ w2); [exact Hs2|].
    apply sameCore_updP. reflexivity.
Qed.

Lemma onEnd_frame (w : World) :
  paused (onEnd w) = paused w /\ host (onEnd w) = host w
  /\ sameCore w (onEnd w).
Proof.
  unfold onEnd, emit. destruct (gestureQueue w) eqn:E; cbn;
    (split; [reflexivity|]); (split; [reflexivity|]);
    apply sameCore_store; try reflexivity; exact E.
Qed.

(** One tick of the player's timer for a plain pending playable. *)
Lemma plain_step (env : Env) (e : ref) (rest : list ref) (w : World) :
  pendingEvent w = Some e -> events w = rest -> paused w = 0%nat ->
  hostOk (host w) -> pollPending e w -> plain w e -> calm env ->
  let w1 := hostStep env (he_timer (eventTimer w)) w in
  trace w1 = trace w ++ injectionOf w e
             ++ (match rest with [] => endEvents w | _ => [] end)
  /\ sameCore w w1 /\ paused w1 = 0%nat /\ hostOk (host w1)
  /\ match rest with
     | [] => pendingEvent w1 = None /\ events w1 = []
     | e' :: rest' =>
         pendingEvent w1 = Some e' /\ events w1 = rest' /\ pollPending e' w1
     end.
Proof.
  intros Hpe Hev Hpa Hok Hpoll Hplain Hcalm. cbv zeta.
  rewrite (hostStep_poll env e w Hpoll).
  set (w0 := entering w).
  assert (H0 : sameCore w w0 /\ events w0 = rest /\ paused w0 = 0%nat
               /\ trace w0 = trace w /\ hostOk (host w0)).
  { subst w0. unfold entering. cbn.
    split; [apply sameCore_store; reflexivity|]. repeat split; auto.
    apply hostOk_deferCancel, Hok. }
  destruct H0 as (Hs0 & He0 & Hn0 & Ht0 & Hh0).
  pose proof (sameCore_plain w w0 e Hs0 Hplain) as Hp0.
  destruct (callReady_plain env e w0 Hp0 Hcalm) as (Hrr & Hsc).
  destruct (callReady env e w0) as [rr wc] eqn:Ecr. cbn [fst snd] in Hrr, Hsc.
  subst rr. rewrite (playEvent_ready env e w0 wc Ecr).
  pose proof (readyFrame_callReady env e w0) as Hrf. rewrite Ecr in Hrf.
  cbn [snd] in Hrf. destruct Hrf as (Hctl & _).
  unfold control in Hctl.
  injection Hctl as Hevc _ _ Hpac _ _ Hhc _ Htc.
  pose proof (sameCore_plain w0 wc e Hsc Hp0) as Hpc.
  destruct (playReady_plain env e wc Hpc)
    as (x & Hx & Hpx & Hex & Hnx & Hhx & Htx & Hsx).
  rewrite Hx.
  assert (Hsw : sameCore w x).
  { apply (sameCore_trans _ w0); [exact Hs0|].
    apply (sameCore_trans _ wc); assumption. }
  assert (Hinj : injectionOf wc e = injectionOf w e).
  { apply sameCore_injectionOf.
    apply (sameCore_trans _ w0); assumption. }
  rewrite Hinj, Htc in Htx. rewrite Hevc, Hev in Hex.
  rewrite Hpac, Hpa in Hnx.
  assert (Hokc : hostOk (host x)).
  { rewrite Hhx, Hhc. apply hostOk_deferCancel, Hok. }
  destruct rest as [|e' rest'].
  - rewrite (playNext_empty x Hpx Hnx Hex).
    destruct (onEnd_spec x) as (Ht & He & Hp & _).
    destruct (onEnd_frame x) as (Hn & Hh & Hs).
    rewrite Ht, He, Hp, Hn, Hh, Htx, Hex, Hpx, Hnx, <- app_assoc.
    rewrite (sameCore_endEvents w x Hsw).
    split; [reflexivity|].
    split; [apply (sameCore_trans _ x); assumption|]. auto.
  - unfold playNext. rewrite Hpx, Hnx, Hex. cbn [isSome negb Nat.eqb andb].
    set (x1 := updP e' (set_p_state st_pending)
                 (set_pendingEvent (Some e') (set_events rest' x))).
    assert (H1 : sameCore x x1 /\ trace x1 = trace x /\ host x1 = host x
                 /\ paused x1 = paused x /\ events x1 = rest'
                 /\ pendingEvent x1 = Some e').
    { subst x1. split; [|cbn; repeat split; reflexivity].
      apply (sameCore_trans _ (set_pendingEvent (Some e')
                                 (set_events rest' x)));
        [apply sameCore_store; reflexivity
        |apply sameCore_updP; reflexivity]. }
    destruct H1 as (Hs1 & Ht1 & Hh1 & Hn1 & He1 & Hp1).
    unfold playEventSoon.
    destruct (defer (ta_playEvent e')
                (default (waitInterval x1)
                   (Some (default 0 (p_delay (getP e' x1))))) (host x1))
      as [id h] eqn:Ed.
    cbn [trace events pendingEvent paused host eventTimer set_eventTimer
         set_host].
    rewrite Ht1, He1, Hp1, Hn1, Htx, Hnx, app_nil_r.
    assert (Hokx : hostOk (host x1)) by (rewrite Hh1; exact Hokc).
    split; [reflexivity|]. split; [|split; [reflexivity|split; [|split;
      [reflexivity|split; [reflexivity|]]]]].
    + apply (sameCore_trans _ x); [exact Hsw|].
      apply (sameCore_trans _ x1); [exact Hs1|].
      apply sameCore_store; reflexivity.
    + pose proof (hostOk_defer (ta_playEvent e')
                    (default (waitInterval x1)
                       (Some (default 0 (p_delay (getP e' x1)))))
                    (host x1) Hokx) as Hd.
      rewrite Ed in Hd. exact Hd.
    + unfold pollPending.
      cbn [eventTimer host set_eventTimer set_host].
      pose proof (pendingTimer_defer (ta_playEvent e')
                    (default (waitInterval x1)
                       (Some (default 0 (p_delay (getP e' x1)))))
                    (host x1) Hokx) as Hd.
      rewrite Ed in Hd. cbn [snd] in Hd.
      assert (Hid : id = Z.pos (next_timer (host x1))).
      { unfold defer in Ed. injection Ed as <- _. reflexivity. }
      rewrite Hid. eexists. split; [exact Hd|reflexivity].
Qed.
Lemma playNext_take (w : World) (e : ref) (rest : list ref) :
  pendingEvent w = None -> paused w = 0%nat -> events w = e :: rest ->
  hostOk (host w) ->
  let w1 := playNext w in
  sameCore w w1 /\ trace w1 = trace w /\ paused w1 = 0%nat
  /\ hostOk (host w1) /\ pendingEvent w1 = Some e /\ events w1 = rest
  /\ pollPending e w1.
Proof.
  intros Hpe Hpa Hev Hok. cbv zeta.
  unfold playNext. rewrite Hpe, Hpa, Hev. cbn [isSome negb Nat.eqb andb].
  set (x1 := updP e (set_p_state st_pending)
               (set_pendingEvent (Some e) (set_events rest w))).
  assert (H1 : sameCore w x1 /\ trace x1 = trace w /\ host x1 = host w
               /\ paused x1 = paused w /\ events x1 = rest
               /\ pendingEvent x1 = Some e).
  { subst x1. split; [|cbn; repeat split; reflexivity].
    apply (sameCore_trans _ (set_pendingEvent (Some e) (set_events rest w)));
      [apply sameCore_store; reflexivity|apply sameCore_updP; reflexivity]. }
  destruct H1 as (Hs1 & Ht1 & Hh1 & Hn1 & He1 & Hp1).
  unfold playEventSoon.
  destruct (defer (ta_playEvent e)
              (default (waitInterval x1)
                 (Some (default 0 (p_delay (getP e x1))))) (host x1))
    as [id h] eqn:Ed.
  cbn [trace events pendingEvent paused host eventTimer set_eventTimer
       set_host].
  assert (Hokx : hostOk (host x1)) by (rewrite Hh1; exact Hok).
  pose proof (hostOk_defer (ta_playEvent e)
                (default (waitInterval x1)
                   (Some (default 0 (p_delay (getP e x1)))))
                (host x1) Hokx) as Hd1.
  pose proof (pendingTimer_defer (ta_playEvent e)
                (default (waitInterval x1)
                   (Some (default 0 (p_delay (getP e x1)))))
                (host x1) Hokx) as Hd2.
  rewrite Ed in Hd1, Hd2. cbn [snd] in Hd1, Hd2.
  assert (Hid : id = Z.pos (next_timer (host x1))).
  { unfold defer in Ed. injection Ed as <- _. reflexivity. }
  split; [apply (sameCore_trans _ x1);
          [exact Hs1|apply sameCore_store; reflexivity]|].
  split; [exact Ht1|]. split; [congruence|]. split; [exact Hd1|].
  split; [exact Hp1|]. split; [exact He1|].
  unfold pollPending. cbn [eventTimer host set_eventTimer set_host].
  rewrite Hid. eexists. split; [exact Hd2|reflexivity].
Qed.

Lemma plain_run (rest : list ref) :
  forall (e : ref) (envs : list Env) (w : World),
  pendingEvent w = Some e -> events w = rest -> paused w = 0%nat ->
  hostOk (host w) -> pollPending e w -> Forall (plain w) (e :: rest) ->
  Forall calm envs -> length envs = S (length rest) ->
  trace (polls envs w)
  = trace w ++ concat (map (injectionOf w) (e :: rest)) ++ endEvents w
  /\ lineup (polls envs w) = [].
Proof.
  induction rest as [|e' rest' IH];
    intros e envs w Hpe Hev Hpa Hok Hpoll Hpl Hcalm Hlen;
    destruct envs as [|env envs]; try discriminate;
    inversion Hpl as [|? ? Hple Hplr]; subst;
    inversion Hcalm as [|? ? Hc Hcs]; subst;
    destruct (plain_step env e _ w Hpe Hev Hpa Hok Hpoll Hple Hc)
      as (Ht & Hs & Hn & Hh & Hnext);
    cbn [polls].
  - destruct envs; [|discriminate]. cbn [polls].
    destruct Hnext as (Hp1 & He1).
    rewrite Ht. cbn [map concat]. rewrite app_nil_r.
    split; [reflexivity|]. unfold lineup. rewrite Hp1, He1. reflexivity.
  - destruct Hnext as (Hp1 & He1 & Hpoll1).
    set (w1 := hostStep env (he_timer (eventTimer w)) w) in *.
    assert (Hpl1 : Forall (plain w1) (e' :: rest')).
    { eapply Forall_impl; [exact Hplr|]. intros r. apply sameCore_plain, Hs. }
    destruct (IH e' envs w1 Hp1 He1 Hn Hh Hpoll1 Hpl1 Hcs) as (Ht1 & Hl1);
      [cbn in Hlen; lia|].
    split; [|exact Hl1]. rewrite Ht1, Ht, app_nil_r.
    rewrite (sameCore_endEvents w w1 Hs).
    rewrite (map_ext (injectionOf w1) (injectionOf w))
      by (intros r; apply sameCore_injectionOf, Hs).
    cbn [map concat]. rewrite <- !app_assoc. reflexivity.
Qed.

(** X16. A queue of plain playables plays in order.  On a player that
    is neither paused nor busy, whose queue holds playables without
    function, [ready], target or related target and of no expanded
    type, taking up the queue and then one tick of the player's timer
    per playable, in pages without running animations, hands the
    injector the events of the playables in queue order (delays hand it
    nothing), then fires 'end', and nothing else; the player is left
    without playables. *)
Theorem plain_playables_play_in_order (queue : list ref) (envs : list Env)
  (w : World) :
  pendingEvent w = None -> paused w = 0%nat -> events w = queue ->
  queue <> [] -> hostOk (host w) -> Forall (plain w) queue ->
  Forall calm envs -> length envs = length queue ->
  let w' := polls envs (playNext w) in
  trace w' = trace w ++ concat (map (injectionOf w) queue) ++ endEvents w
  /\ lineup w' = [].
Proof.
  intros Hpe Hpa Hev Hne Hok Hpl Hcalm Hlen. cbv zeta.
  destruct queue as [|e rest]; [contradiction|].
  destruct (playNext_take w e rest Hpe Hpa Hev Hok)
    as (Hs & Ht & Hn & Hh & Hp & He & Hpoll).
  assert (Hpl1 : Forall (plain (playNext w)) (e :: rest)).
  { eapply Forall_impl; [exact Hpl|]. intros r. apply sameCore_plain, Hs. }
  destruct (plain_run rest e envs (playNext w) Hp He Hn Hh Hpoll Hpl1 Hcalm
              Hlen) as (Ht1 & Hl1).
  split; [|exact Hl1]. rewrite Ht1, Ht.
  rewrite (sameCore_endEvents w _ Hs).
  rewrite (map_ext (injectionOf (playNext w)) (injectionOf w))
    by (intros r; apply sameCore_injectionOf, Hs).
  reflexivity.
Qed.

Lemma plain_playables_play_in_order_witness :
  trace (polls [pageAt 1000 None; pageAt 1010 None; pageAt 1070 None]
               (playNext keysQueued))
  = [ev_inject 0%nat "keydown" None None; ev_inject 2%nat "keyup" None None;
     ev_end].
Proof.
  assert (Hpl : Forall (plain keysQueued) [0; 1; 2]%nat).
  { repeat constructor; vm_compute; try lia; try reflexivity;
      discriminate. }
  assert (Hc : Forall calm [pageAt 1000 None; pageAt 1010 None;
                            pageAt 1070 None])
    by (repeat constructor).
  assert (Hok : hostOk (host keysQueued)) by constructor.
  assert (Hne : [0; 1; 2]%nat <> []) by discriminate.
  assert (Hpe : pendingEvent keysQueued = None) by (vm_compute; reflexivity).
  assert (Hpa : paused keysQueued = 0%nat) by (vm_compute; reflexivity).
  assert (Hev : events keysQueued = [0; 1; 2]%nat)
    by (vm_compute; reflexivity).
  destruct (plain_playables_play_in_order [0; 1; 2]%nat _ keysQueued
              Hpe Hpa Hev Hne Hok Hpl Hc eq_refl) as (Ht & _).
  vm_compute in Ht. vm_compute. exact Ht.
Defined.
(** * ST.Test *)

Lemma getT_lookup (t : nat) (s : TestStore) :
  (t < length (ts_tests s))%nat -> ts_tests s !! t = Some (getT t s).
Proof.
  intros Ht. unfold getT.
  destruct (lookup_lt_is_Some_2 (ts_tests s) t Ht) as [me Hme].
  rewrite Hme. reflexivity.
Qed.

Lemma wf_parent (s : TestStore) (t p : nat) :
  wfTests s -> (t < length (ts_tests s))%nat ->
  t_parent (getT t s) = Some p -> (p < t)%nat.
Proof.
  intros (_ & _ & _ & Hwf) Ht Hp.
  destruct (Hwf t _ (getT_lookup t s Ht)) as (H & _). apply H, Hp.
Qed.

Lemma wf_results (s : TestStore) (t : nat) :
  wfTests s -> (t < length (ts_tests s))%nat ->
  (default EMPTY (t_results (getT t s)) < length (ts_arrays s))%nat
  /\ getA (default EMPTY (t_results (getT t s))) s = ownResults t s.
Proof.
  intros (He & Hl & _ & Hwf) Ht.
  destruct (Hwf t _ (getT_lookup t s Ht)) as (_ & H).
  unfold ownResults. destruct (t_results (getT t s)) as [a|].
  - cbn. split; [apply (H a eq_refl)|reflexivity].
  - cbn. split; [exact Hl|exact He].
Qed.

Lemma no_results_above (s : TestStore) :
  wfTests s ->
  forall fuelB fuelA p,
  (p < length (ts_tests s))%nat -> (p < fuelA)%nat ->
  hasResultsFrom fuelA p s = false ->
  concat (map (fun a => ownResults a s) (lineage fuelB p s)) = [].
Proof.
  intros Hwf. induction fuelB as [|fuelB IH]; intros fuelA p Hp Hf Hno;
    [reflexivity|].
  destruct fuelA as [|fuelA]; [lia|].
  cbn [hasResultsFrom] in Hno. cbn [lineage].
  assert (Hown : ownResults p s = []).
  { unfold ownResults. destruct (t_results (getT p s)); [discriminate|].
    reflexivity. }
  destruct (t_results (getT p s)); [discriminate|]. cbn [isSome] in Hno.
  destruct (t_parent (getT p s)) as [q|] eqn:Eq.
  - pose proof (wf_parent s p q Hwf Hp Eq) as Hq.
    rewrite map_app, concat_app. cbn [map concat]. rewrite Hown.
    rewrite (IH fuelA q) by (try lia; assumption). reflexivity.
  - cbn [map concat]. rewrite Hown. reflexivity.
Qed.

Lemma getA_pushAll_other (ret results a : nat) (s : TestStore) :
  a <> ret -> getA a (pushAll ret results s) = getA a s.
Proof.
  intros Hne. unfold getA, pushAll. cbn [ts_arrays].
  rewrite list_lookup_alter_ne by congruence. reflexivity.
Qed.

Lemma getA_pushAll_eq (ret results : nat) (s : TestStore) :
  (ret < length (ts_arrays s))%nat ->
  getA ret (pushAll ret results s) = getA ret s ++ getA results s.
Proof.
  intros Hr. unfold getA, pushAll. cbn [ts_arrays].
  rewrite list_lookup_alter_eq.
  destruct (lookup_lt_is_Some_2 (ts_arrays s) ret Hr) as [l Hl].
  rewrite Hl. reflexivity.
Qed.

Lemma slice_spec (a : nat) (s : TestStore) :
  let ret := fst (slice a s) in
  let s1 := snd (slice a s) in
  ret = length (ts_arrays s) /\ getA ret s1 = getA a s
  /\ ts_tests s1 = ts_tests s /\ ts_current s1 = ts_current s
  /\ (forall b, (b < length (ts_arrays s))%nat -> getA b s1 = getA b s)
  /\ length (ts_arrays s1) = S (length (ts_arrays s)).
Proof.
  unfold slice. cbn [fst snd]. split; [reflexivity|].
  split.
  { unfold getA at 1. cbn [ts_arrays].
    rewrite lookup_app_r, Nat.sub_diag by lia. reflexivity. }
  split; [reflexivity|]. split; [reflexivity|]. split.
  - intros b Hb. unfold getA. cbn [ts_arrays].
    rewrite lookup_app_l by exact Hb. reflexivity.
  - cbn [ts_arrays]. rewrite length_app. cbn. lia.
Qed.

Lemma getResultsFrom_spec (s : TestStore) :
  wfTests s ->
  forall fuel t fork,
  (t < fuel)%nat -> (t < length (ts_tests s))%nat ->
  exists ret s1,
    getResultsFrom fuel fork t s = Some (ret, s1)
    /\ getA ret s1 = concat (map (fun a => ownResults a s) (lineage fuel t s))
    /\ ts_tests s1 = ts_tests s /\ ts_current s1 = ts_current s
    /\ (forall a, (a < length (ts_arrays s))%nat -> getA a s1 = getA a s)
    /\ (length (ts_arrays s) <= length (ts_arrays s1))%nat
    /\ (ret < length (ts_arrays s1))%nat
    /\ (fork = true -> (length (ts_arrays s) <= ret)%nat).
Proof.
  intros Hwf. induction fuel as [|fuel IH]; intros t fork Hf Ht; [lia|].
  destruct (wf_results s t Hwf Ht) as (Hrl & Hown).
  cbn [getResultsFrom lineage].
  set (results := default EMPTY (t_results (getT t s))) in *.
  assert (Hleaf : forall b : bool,
    exists ret s1,
      (if b then Some (slice results s) else Some (results, s))
      = Some (ret, s1)
      /\ getA ret s1 = ownResults t s
      /\ ts_tests s1 = ts_tests s /\ ts_current s1 = ts_current s
      /\ (forall a, (a < length (ts_arrays s))%nat -> getA a s1 = getA a s)
      /\ (length (ts_arrays s) <= length (ts_arrays s1))%nat
      /\ (ret < length (ts_arrays s1))%nat
      /\ (b = true -> (length (ts_arrays s) <= ret)%nat)).
  { intros [|].
    - destruct (slice_spec results s) as (H1 & H2 & H3 & H4 & H5 & H6).
      exists (fst (slice results s)), (snd (slice results s)).
      split; [destruct (slice results s); reflexivity|].
      rewrite H2, Hown, H1, H6. repeat split; auto; lia.
    - exists results, s. repeat split; auto. discriminate. }
  destruct (t_parent (getT t s)) as [p|] eqn:Ep.
  - pose proof (wf_parent s t p Hwf Ht Ep) as Hp.
    destruct (hasResults p s) eqn:Eh.
    + destruct (IH p (fork || (0 <? length (getA results s))%nat))
        as (ret & s1 & Hg & Hc & Hts & Hcu & Hold & Hlen & Hret & Hfresh);
        [lia|lia|].
      rewrite Hg. rewrite map_app, concat_app. cbn [map concat].
      rewrite app_nil_r, <- Hc, <- Hown.
      destruct (0 <? length (getA results s))%nat eqn:En.
      * rewrite orb_true_r in Hfresh. specialize (Hfresh eq_refl).
        exists ret, (pushAll ret results s1).
        split; [reflexivity|].
        split; [rewrite getA_pushAll_eq by exact Hret;
                rewrite (Hold results Hrl); reflexivity|].
        split; [exact Hts|]. split; [exact Hcu|]. split.
        { intros a Ha. rewrite getA_pushAll_other by lia. apply Hold, Ha. }
        unfold pushAll. cbn [ts_arrays]. rewrite length_alter.
        repeat split; auto.
      * exists ret, s1. split; [reflexivity|].
        apply Nat.ltb_ge in En.
        assert (Hnil : getA results s = [])
          by (destruct (getA results s); [reflexivity|cbn in En; lia]).
        rewrite Hnil, app_nil_r.
        rewrite orb_false_r in Hfresh. repeat split; auto.
    + destruct (Hleaf fork)
        as (ret & s1 & Hg & Hc & Hts & Hcu & Hold & Hlen & Hret & Hfresh).
      exists ret, s1. split; [exact Hg|].
      rewrite map_app, concat_app. cbn [map concat]. rewrite app_nil_r.
      unfold hasResults in Eh.
      rewrite (no_results_above s Hwf fuel (S (length (ts_tests s))) p)
        by (try lia; assumption).
      repeat split; auto.
  - destruct (Hleaf fork)
      as (ret & s1 & Hg & Hc & Hts & Hcu & Hold & Hlen & Hret & Hfresh).
    exists ret, s1. split; [exact Hg|]. cbn [map concat].
    rewrite app_nil_r. repeat split; auto.
Qed.

(** X17. [getResults] collects without disturbing.  For a test of a
    store as the constructor and [addResult] make them, [getResults]
    returns an array holding the results of the test's ancestors, the
    outermost first, followed by its own.  No array that existed before
    the call is changed by it, no test is, and when a fork is asked for
    the array returned is a new one, which the caller may change. *)
Theorem getResults_collects_without_disturbing (s : TestStore) (t : nat)
  (fork : bool) :
  wfTests s -> (t < length (ts_tests s))%nat ->
  exists ret s1,
    getResults fork t s = Some (ret, s1)
    /\ getA ret s1
       = concat (map (fun a => ownResults a s)
                     (lineage (S (length (ts_tests s))) t s))
    /\ ts_tests s1 = ts_tests s /\ ts_current s1 = ts_current s
    /\ (forall a, (a < length (ts_arrays s))%nat -> getA a s1 = getA a s)
    /\ (fork = true -> (length (ts_arrays s) <= ret)%nat).
Proof.
  intros Hwf Ht.
  destruct (getResultsFrom_spec s Hwf (S (length (ts_tests s))) t fork)
    as (ret & s1 & Hg & Hc & Hts & Hcu & Hold & _ & _ & Hfresh);
    [lia|exact Ht|].
  exists ret, s1. unfold getResults. auto 10.
Qed.
Lemma wf_testStore0 : wfTests testStore0.
Proof.
  split; [reflexivity|]. split; [cbn; lia|]. split; [discriminate|].
  intros t me H. destruct t; discriminate.
Qed.

Lemma wf_newTest (s : TestStore) : wfTests s -> wfTests (snd (newTest s)).
Proof.
  intros (He & Hl & Hc & Hwf). unfold newTest. cbn [snd].
  split; [exact He|]. split; [exact Hl|]. split.
  { cbn [ts_current ts_tests]. intros c [= <-]. rewrite length_app. cbn. lia. }
  cbn [ts_tests ts_arrays]. intros t me Hme.
  destruct (decide (t < length (ts_tests s))%nat) as [Ht|Ht].
  - rewrite lookup_app_l in Hme by exact Ht. apply Hwf, Hme.
  - rewrite lookup_app_r in Hme by lia.
    destruct (t - length (ts_tests s))%nat as [|k] eqn:Ek;
      [|destruct k; discriminate].
    cbn in Hme. injection Hme as <-. cbn [t_parent t_results].
    split; [|discriminate]. intros p Hp. specialize (Hc p Hp). lia.
Qed.

Lemma wf_addResult (t : nat) (r : Result) (s : TestStore) :
  wfTests s -> (t < length (ts_tests s))%nat -> wfTests (addResult t r s).
Proof.
  intros Hwf Ht. pose proof Hwf as (He & Hl & Hc & Hall).
  destruct (Hall t _ (getT_lookup t s Ht)) as (Hpar & Hres).
  unfold addResult.
  destruct (t_results (getT t s)) as [a|] eqn:Er.
  - specialize (Hres a eq_refl).
    split.
    { unfold getA, EMPTY. cbn [ts_arrays].
      rewrite list_lookup_alter_ne by lia. exact He. }
    cbn [ts_arrays ts_tests ts_current]. rewrite length_alter, length_insert.
    split; [exact Hl|]. split; [exact Hc|].
    intros u me Hme. destruct (decide (u = t)) as [->|Hne].
    + rewrite list_lookup_insert_eq in Hme by exact Ht.
      injection Hme as <-. cbn [t_parent t_results].
      split; [exact Hpar|]. intros b [= <-]. exact Hres.
    + rewrite list_lookup_insert_ne in Hme by congruence. apply Hall, Hme.
  - split.
    { unfold getA, EMPTY. cbn [ts_arrays].
      rewrite list_lookup_alter_ne by lia.
      rewrite lookup_app_l by exact Hl. exact He. }
    cbn [ts_arrays ts_tests ts_current].
    rewrite length_alter, length_insert, length_app. cbn [length].
    split; [lia|]. split; [exact Hc|].
    intros u me Hme. destruct (decide (u = t)) as [->|Hne].
    + rewrite list_lookup_insert_eq in Hme by exact Ht.
      injection Hme as <-. cbn [t_parent t_results].
      split; [exact Hpar|]. intros b [= <-]. lia.
    + rewrite list_lookup_insert_ne in Hme by congruence.
      destruct (Hall u me Hme) as (H1 & H2). split; [exact H1|].
      intros b Hb. specialize (H2 b Hb). lia.
Qed.

Lemma wf_threeTests : wfTests threeTests.
Proof.
  unfold threeTests. cbv zeta.
  apply wf_newTest, wf_addResult; [|cbn; lia].
  apply wf_newTest, wf_addResult; [|cbn; lia].
  apply wf_newTest, wf_testStore0.
Qed.

Lemma getResults_collects_without_disturbing_witness :
  exists ret s1,
    getResults true 1 threeTests = Some (ret, s1)
    /\ map res_message (getA ret s1) = ["set up"; "expected 1 to be 2"]
    /\ (3 <= ret)%nat.
Proof.
  assert (Ht : (1 < length (ts_tests threeTests))%nat) by (vm_compute; lia).
  destruct (getResults_collects_without_disturbing threeTests 1 true
              wf_threeTests Ht) as (ret & s1 & Hg & Hc & _ & _ & _ & Hf).
  exists ret, s1. split; [exact Hg|]. split.
  - rewrite Hc. vm_compute. reflexivity.
  - specialize (Hf eq_refl). vm_compute in Hf. exact Hf.
Defined.

Lemma addResult_tests (c : nat) (r : Result) (s : TestStore) (a : nat) :
  (c < length (ts_tests s))%nat ->
  length (ts_tests (addResult c r s)) = length (ts_tests s)
  /\ t_parent (getT a (addResult c r s)) = t_parent (getT a s)
  /\ t_failures (getT a (addResult c r s))
     = (if bool_decide (a = c)
        then if res_passed r then t_failures (getT c s)
             else S (t_failures (getT c s))
        else t_failures (getT a s)).
Proof.
  intros Hc. unfold addResult.
  destruct (match t_results (getT c s) with
            | Some a0 => (a0, ts_arrays s)
            | None => (length (ts_arrays s), ts_arrays s ++ [[]])
            end) as [a0 arrays].
  cbn [ts_tests]. rewrite length_insert. split; [reflexivity|].
  unfold getT. cbn [ts_tests].
  destruct (bool_decide_reflect (a = c)) as [->|Hne].
  - rewrite list_lookup_insert_eq by exact Hc. cbn. auto.
  - rewrite list_lookup_insert_ne by congruence. auto.
Qed.

Lemma isFailureFrom_addResult (c : nat) (r : Result) (s : TestStore) :
  (c < length (ts_tests s))%nat ->
  forall fuel t,
  isFailureFrom fuel t (addResult c r s)
  = isFailureFrom fuel t s
    || (negb (res_passed r) && bool_decide (c ∈ lineage fuel t s)).
Proof.
  intros Hc. induction fuel as [|fuel IH]; intros t.
  - cbn. rewrite andb_false_r. reflexivity.
  - cbn [isFailureFrom lineage].
    destruct (addResult_tests c r s t Hc) as (_ & Hp & Hf).
    rewrite Hp, Hf.
    assert (Hin : forall l, bool_decide (c ∈ l ++ [t])
                            = bool_decide (c ∈ l) || bool_decide (c = t)).
    { intros l. destruct (bool_decide_reflect (c ∈ l)) as [H1|H1];
        destruct (bool_decide_reflect (c = t)) as [H2|H2]; cbn;
        [apply bool_decide_eq_true|apply bool_decide_eq_true
        |apply bool_decide_eq_true|apply bool_decide_eq_false];
        rewrite elem_of_app, list_elem_of_singleton; tauto. }
    assert (Hin1 : bool_decide (c ∈ [t]) = bool_decide (c = t)).
    { apply bool_decide_ext. apply list_elem_of_singleton. }
    destruct (bool_decide_reflect (t = c)) as [->|Hne].
    + rewrite (bool_decide_eq_true_2 (c = c)) in * by reflexivity.
      destruct (res_passed r); cbn [negb andb].
      * rewrite orb_false_r.
        destruct (negb (t_failures (getT c s) =? 0)%nat); [reflexivity|].
        destruct (t_parent (getT c s)); [|reflexivity].
        rewrite IH. cbn. apply orb_false_r.
      * cbn [Nat.eqb negb].
        destruct (t_parent (getT c s));
          rewrite ?Hin, ?Hin1, ?orb_true_r; reflexivity.
    + rewrite (bool_decide_eq_false_2 (c = t)) in * by congruence.
      destruct (negb (t_failures (getT t s) =? 0)%nat); [reflexivity|].
      destruct (t_parent (getT t s)).
      * rewrite IH, Hin, orb_false_r. reflexivity.
      * rewrite Hin1, andb_false_r. reflexivity.
Qed.

(** X18. A failed result marks the test and everything below it.
    After [addResult] on a test, [isFailure] of any test is what it was
    before, or true if the result did not pass and the test that
    received it is the test asked about or one of its ancestors: a
    result that passed changes no answer, and a failure in a suite makes
    failures of all the specs in it. *)
Theorem failed_result_marks_descendants (s : TestStore) (c t : nat)
  (r : Result) :
  (c < length (ts_tests s))%nat ->
  isFailure t (addResult c r s)
  = isFailure t s
    || (negb (res_passed r)
        && bool_decide (c ∈ lineage (S (length (ts_tests s))) t s)).
Proof.
  intros Hc. unfold isFailure.
  destruct (addResult_tests c r s t Hc) as (Hl & _). rewrite Hl.
  apply isFailureFrom_addResult, Hc.
Qed.

Lemma failed_result_marks_descendants_witness :
  isFailure 2 (addResult 0 (mkResult false false "beforeAll threw" None)
                         (snd (newTest
                                 (snd (newTest (snd (newTest testStore0)))))))
  = true.
Proof.
  pose (s := snd (newTest (snd (newTest (snd (newTest testStore0)))))).
  assert (Hc : (0 < length (ts_tests s))%nat) by (vm_compute; lia).
  pose proof (failed_result_marks_descendants s 0 2
                (mkResult false false "beforeAll threw" None) Hc) as H.
  vm_compute in H. vm_compute. exact H.
Defined.
(** * ST.globRegex *)

Section GlobRegexFacts.
Import Stdlib.Strings.Ascii.

Lemma globBody_no_star (extended inGroup : bool) (str rest : string) :
  globBody extended inGroup str <> String "*" rest.
Proof.
  destruct str as [|c str]; [discriminate|].
  destruct c as [[|] [|] [|] [|] [|] [|] [|] [|]];
    destruct extended, inGroup; cbn [globBody globChar];
    cbv [String.append]; discriminate.
Qed.

Lemma unglob_dot (re : string) :
  (forall rest, re <> String "*" rest) ->
  unglob (String "." re) = String "?" (unglob re).
Proof.
  intros H. destruct re as [|c re]; [reflexivity|].
  destruct c as [[|] [|] [|] [|] [|] [|] [|] [|]]; try reflexivity.
  exfalso. apply (H re). reflexivity.
Qed.

Lemma unglob_globBody (extended : bool) (str : string) :
  forall inGroup, extended = true \/ inGroup = false ->
  unglob (globBody extended inGroup str) = str.
Proof.
  induction str as [|c str IH]; intros inGroup Hg; [reflexivity|].
  assert (Hq : forall g, unglob (String "." (globBody extended g str))
                         = String "?" (unglob (globBody extended g str))).
  { intros g. apply unglob_dot. intros rest. apply globBody_no_star. }
  destruct c as [[|] [|] [|] [|] [|] [|] [|] [|]];
    destruct Hg as [->| ->]; try destruct inGroup; try destruct extended;
    cbn [globBody globChar]; cbv [String.append];
    rewrite ?Hq; cbn [unglob]; rewrite IH by auto; reflexivity.
Qed.

Lemma append_char_inj (c : ascii) (s1 s2 : string) :
  s1 +:+ String c EmptyString = s2 +:+ String c EmptyString -> s1 = s2.
Proof.
  revert s2. induction s1 as [|a s1 IH]; intros [|b s2] H;
    cbv [String.append] in H; fold String.append in H.
  - reflexivity.
  - injection H as _ H. destruct s2; discriminate.
  - injection H as _ H. destruct s1; discriminate.
  - injection H as -> H. f_equal. apply IH, H.
Qed.

End GlobRegexFacts.

(** X19. The glob can be read back from the expression made of it.
    Whether extended or not and whatever the flags, two globs that
    [globRegex] turns into the same regular expression are the same
    glob: every character that means something in a regular expression
    is escaped or stands for exactly one glob construct. *)
Theorem globRegex_tells_globs_apart (glob1 glob2 : string) (extended : bool)
  (flags : option string) :
  globRegex (Some glob1) extended flags = globRegex (Some glob2) extended flags
  -> glob1 = glob2.
Proof.
  unfold globRegex. intros H. injection H as H.
  assert (Hb : globBody extended false glob1 = globBody extended false glob2).
  { match type of H with
    | (if ?c then _ else _) = _ => destruct c; [|exact H]
    end.
    cbv [String.append] in H; fold String.append in H.
    injection H as H. apply append_char_inj in H. exact H. }
  apply (f_equal unglob) in Hb.
  rewrite !unglob_globBody in Hb by auto. exact Hb.
Qed.

Lemma globRegex_tells_globs_apart_witness : "*.js" = "*.js".
Proof.
  apply (globRegex_tells_globs_apart "*.js" "*.js" true (Some "i")).
  reflexivity.
Defined.
(** * ST.Tests *)

Lemma fileOpenAfter_app (open : option string) (a b : list TOut) :
  fileOpenAfter open (a ++ b)
  = match fileOpenAfter open a with
    | Some open' => fileOpenAfter open' b
    | None => None
    end.
Proof.
  revert open. induction a as [|o a IH]; intros open; [reflexivity|].
  destruct o; cbn [app fileOpenAfter]; try apply IH.
  - destruct (bool_decide (open = Some file)); [apply IH|reflexivity].
  - destruct open; [reflexivity|apply IH].
  - destruct (bool_decide (currentTestFile = open)); [apply IH|reflexivity].
Qed.

Lemma runsOf_app (a b : list TOut) : runsOf (a ++ b) = runsOf a ++ runsOf b.
Proof. apply omap_app. Qed.

Lemma setFile_some (f : string) (s : TestsQ) :
  truthyStr f = true ->
  setFile (Some f) s
  = mkTestsQ (tq_evaluateTestsOnReady s) (Some f) (Some f) (tq_queue s)
             (tq_running s) (tq_out s ++ opening (tq_lastFile s) f).
Proof.
  intros Hf. unfold setFile, opening.
  destruct (bool_decide_reflect (tq_lastFile s = Some f)) as [E|E];
    cbn [negb].
  - unfold tq_setCurrent. rewrite E, app_nil_r. reflexivity.
  - cbn [truthyFile]. rewrite Hf.
    destruct (truthyFile (tq_lastFile s));
      unfold tq_setCurrent, tq_emit, tq_setLast;
      cbn [tq_evaluateTestsOnReady tq_lastFile tq_currentTestFile tq_queue
           tq_running tq_out app];
      rewrite <- ?app_assoc; reflexivity.
Qed.

Lemma opening_reads (last : option string) (f : string) :
  last = None \/ truthyFile last = true ->
  fileOpenAfter last (opening last f) = Some (Some f).
Proof.
  intros H. unfold opening.
  destruct (bool_decide_reflect (last = Some f)) as [E|E];
    [rewrite E; reflexivity|].
  destruct H as [->|H]; [reflexivity|]. rewrite H.
  destruct last as [l|]; [|discriminate]. cbn.
  rewrite bool_decide_eq_true_2 by reflexivity. reflexivity.
Qed.

Lemma runsOf_opening (last : option string) (f : string) :
  runsOf (opening last f) = [].
Proof.
  unfold opening. destruct (bool_decide (last = Some f)); [reflexivity|].
  destruct (truthyFile last); reflexivity.
Qed.

Lemma unblocks_app (a b : list TOut) :
  unblocks (a ++ b) = (unblocks a + unblocks b)%nat.
Proof. unfold unblocks. rewrite omap_app. apply length_app. Qed.

Lemma unblocks_opening (last : option string) (f : string) :
  unblocks (opening last f) = 0%nat.
Proof.
  unfold opening. destruct (bool_decide (last = Some f)); [reflexivity|].
  destruct (truthyFile last); reflexivity.
Qed.

Lemma nextTest_run (q : list (option string * nat)) :
  forall s,
  tq_queue s = q -> q <> [] -> tq_running s = 0%nat ->
  Forall (fun x => truthyFile (fst x) = true) q ->
  tq_lastFile s = None \/ truthyFile (tq_lastFile s) = true ->
  let s' := Nat.iter (length q) nextTest s in
  exists added,
    tq_out s' = tq_out s ++ added
    /\ runsOf added = map (fun x => (snd x, fst x)) q
    /\ fileOpenAfter (tq_lastFile s) added = Some None
    /\ last added = Some to_unblock
    /\ unblocks added = 1%nat
    /\ tq_queue s' = [] /\ tq_lastFile s' = None
    /\ tq_currentTestFile s' = None /\ tq_running s' = 0%nat.
Proof.
  induction q as [|[file fn] rest IH]; intros s Hq Hne Hrun Hfiles Hlast;
    [contradiction|].
  inversion Hfiles as [|? ? Hfile Hrest]; subst.
  destruct file as [f|]; [|discriminate]. cbn [fst truthyFile] in Hfile.
  cbn [length]. rewrite Nat.iter_succ_r. cbv zeta.
  assert (Hstep : nextTest s
    = let s1 := mkTestsQ (tq_evaluateTestsOnReady s) (Some f) (Some f) rest
                         0 (tq_out s ++ opening (tq_lastFile s) f
                            ++ [to_run fn (Some f)]) in
      if negb (length rest =? 0)%nat
      then tq_emit (to_deferNext 10) (tq_setCurrent None s1)
      else tq_emit to_unblock (setFile None s1)).
  { unfold nextTest. rewrite Hq.
    rewrite setFile_some by exact Hfile.
    unfold runTestFn, tq_setRunning, tq_setQueue, tq_emit.
    cbn [tq_evaluateTestsOnReady tq_lastFile tq_currentTestFile tq_queue
         tq_running tq_out Nat.pred].
    rewrite Hrun, <- app_assoc. reflexivity. }
  rewrite Hstep. cbv zeta.
  pose proof (opening_reads (tq_lastFile s) f Hlast) as Hopen.
  destruct rest as [|r rest'].
  - cbn [length Nat.eqb negb Nat.iter nat_rect].
    exists (opening (tq_lastFile s) f
            ++ [to_run fn (Some f); to_afterFile f; to_unblock]).
    unfold setFile, tq_emit, tq_setCurrent, tq_setLast.
    cbn [tq_lastFile tq_out tq_queue tq_running tq_currentTestFile
         tq_evaluateTestsOnReady truthyFile].
    rewrite (bool_decide_eq_false_2 (Some f = None)) by discriminate.
    cbn [negb]. rewrite Hfile.
    cbn [tq_lastFile tq_out tq_queue tq_running tq_currentTestFile
         tq_evaluateTestsOnReady truthyFile default from_option id].
    split; [rewrite <- !app_assoc; reflexivity|].
    rewrite runsOf_app, runsOf_opening, fileOpenAfter_app, Hopen.
    cbn [fileOpenAfter runsOf omap app map fst snd].
    rewrite !bool_decide_eq_true_2 by reflexivity.
    split; [reflexivity|]. split; [reflexivity|].
    split; [rewrite last_app; reflexivity|].
    split; [|repeat split].
    rewrite unblocks_app, unblocks_opening. reflexivity.
  - cbn [length Nat.eqb negb].
    set (s1 := tq_emit (to_deferNext 10) _).
    destruct (IH s1) as (added & Hout & Hruns & Hopen1 & Hlastu & Hcount
                         & Hq1 & Hl1 & Hc1 & Hr1);
      [reflexivity|discriminate|reflexivity|exact Hrest
      |right; cbn; exact Hfile|].
    cbn [length] in *.
    exists (opening (tq_lastFile s) f
            ++ [to_run fn (Some f); to_deferNext 10] ++ added).
    rewrite Hout. subst s1.
    cbn [tq_out tq_emit tq_setCurrent tq_lastFile] in *.
    split; [rewrite <- !app_assoc; reflexivity|].
    rewrite runsOf_app, runsOf_opening, fileOpenAfter_app, Hopen.
    cbn [app fileOpenAfter]. rewrite bool_decide_eq_true_2 by reflexivity.
    split.
    { change (runsOf (to_run fn (Some f) :: to_deferNext 10 :: added))
        with ((fn, Some f) :: runsOf added).
      rewrite Hruns. reflexivity. }
    split; [exact Hopen1|].
    split.
    { rewrite last_app.
      change (to_run fn (Some f) :: to_deferNext 10 :: added)
        with ([to_run fn (Some f); to_deferNext 10] ++ added).
      rewrite last_app, Hlastu. reflexivity. }
    split; [|auto].
    rewrite unblocks_app, unblocks_opening. exact Hcount.
Qed.

Lemma loadTests_queue (q : list (option string * nat)) :
  forall s,
  tq_evaluateTestsOnReady s = true -> tq_running s = 0%nat ->
  let s' := loadTests q s in
  tq_queue s' = tq_queue s ++ q /\ tq_running s' = 0%nat
  /\ tq_lastFile s' = tq_lastFile s
  /\ tq_out s'
     = tq_out s ++ (if (length (tq_queue s) =? 0)%nat
                    then match q with
                         | [] => []
                         | _ => [to_block; to_onReady]
                         end
                    else []).
Proof.
  induction q as [|[file fn] rest IH]; intros s He Hr; cbv zeta.
  - cbn [loadTests fold_left]. rewrite !app_nil_r.
    destruct (length (tq_queue s) =? 0)%nat; rewrite ?app_nil_r; auto.
  - cbn [loadTests fold_left fst snd].
    set (s1 := enqueueTest fn (tq_setCurrent file s)).
    assert (H1 : tq_evaluateTestsOnReady s1 = true /\ tq_running s1 = 0%nat
                 /\ tq_queue s1 = tq_queue s ++ [(file, fn)]
                 /\ tq_lastFile s1 = tq_lastFile s
                 /\ tq_out s1
                    = tq_out s ++ (if (length (tq_queue s) =? 0)%nat
                                   then [to_block; to_onReady] else [])).
    { subst s1. unfold enqueueTest.
      cbn [tq_setCurrent tq_evaluateTestsOnReady tq_running tq_queue].
      rewrite He, Hr. cbn [negb Nat.eqb orb].
      destruct (length (tq_queue s) =? 0)%nat; cbn;
        rewrite <- ?app_assoc, ?app_nil_r; auto. }
    destruct H1 as (He1 & Hr1 & Hq1 & Hl1 & Ho1).
    destruct (IH s1 He1 Hr1) as (Hq & Hrun & Hl & Ho).
    fold (loadTests rest s1).
    rewrite Hq, Hrun, Hl, Ho, Hq1, Hl1, Ho1, <- !app_assoc.
    repeat split.
    rewrite length_app. cbn [length].
    replace (length (tq_queue s) + 1 =? 0)%nat with false
      by (symmetry; apply Nat.eqb_neq; lia).
    destruct (length (tq_queue s) =? 0)%nat; rewrite ?app_nil_r; reflexivity.
Qed.

(** X20. Test functions run in the order enqueued, inside their files.
    When test functions are enqueued under their files before the tests
    start, the gate is blocked once; the calls of [next], one per
    function, then call the functions in the order they were enqueued,
    each finding [ST.currentTestFile] to be its file, between the
    'beforeFile' of that file and its 'afterFile'; no file is opened
    while another is open, consecutive functions of one file share one
    pair of messages, and the gate is unblocked once, at the very end,
    with every file closed. *)
Theorem tests_run_in_order_inside_their_files
  (q : list (option string * nat)) :
  q <> [] -> Forall (fun x => truthyFile (fst x) = true) q ->
  let s := loadTests q testsQ0 in
  let s' := Nat.iter (length q) nextTest s in
  tq_queue s = q /\ tq_out s = [to_block; to_onReady]
  /\ exists added,
       tq_out s' = tq_out s ++ added
       /\ runsOf added = map (fun x => (snd x, fst x)) q
       /\ fileOpenAfter None added = Some None
       /\ last added = Some to_unblock /\ unblocks added = 1%nat
       /\ tq_queue s' = [] /\ tq_lastFile s' = None
       /\ tq_currentTestFile s' = None.
Proof.
  intros Hne Hfiles. cbv zeta.
  destruct (loadTests_queue q testsQ0 eq_refl eq_refl)
    as (Hq & Hrun & Hl & Ho).
  cbn [testsQ0 tq_queue tq_lastFile tq_out app length Nat.eqb] in Hq, Hl, Ho.
  assert (Ho' : tq_out (loadTests q testsQ0) = [to_block; to_onReady])
    by (rewrite Ho; destruct q; [contradiction|reflexivity]).
  split; [exact Hq|]. split; [exact Ho'|].
  destruct (nextTest_run q (loadTests q testsQ0) Hq Hne Hrun Hfiles)
    as (added & H1 & H2 & H3 & H4 & H5 & H6 & H7 & H8 & _);
    [left; exact Hl|].
  rewrite Hl in H3. exists added. auto 10.
Qed.

Lemma tests_run_in_order_inside_their_files_witness :
  exists added,
    tq_out (Nat.iter 3 nextTest (loadTests threeFns testsQ0))
    = [to_block; to_onReady] ++ added
    /\ runsOf added
       = [(0%nat, Some "a.js"); (1%nat, Some "a.js"); (2%nat, Some "b.js")]
    /\ fileOpenAfter None added = Some None.
Proof.
  assert (Hne : threeFns <> []) by discriminate.
  assert (Hf : Forall (fun x : option string * nat =>
                         truthyFile (fst x) = true) threeFns)
    by (repeat constructor).
  destruct (tests_run_in_order_inside_their_files threeFns Hne Hf)
    as (_ & Ho & added & Hout & Hruns & Hopen & _).
  exists added. rewrite Ho in Hout.
  split; [exact Hout|]. split; [exact Hruns|exact Hopen].
Defined.
(** * Time-out messages and selections *)

Lemma walkLocator_refersTo (w : World) (which : Which) (r : ref) (s : string) :
  refersTo w which r s ->
  forall fuel, (r < fuel)%nat -> walkLocator fuel which r w = (None, Some s).
Proof.
  induction 1 as [r s Ht Hs|r t s Ht Hlt _ IH]; intros fuel Hf;
    (destruct fuel as [|fuel]; [lia|]); cbn [walkLocator]; rewrite Ht.
  - cbn [truthyTarget]. rewrite Hs. reflexivity.
  - cbn [truthyTarget negb]. apply IH. lia.
Qed.

Lemma append_empty_r (s : string) : s +:+ EmptyString = s.
Proof.
  induction s as [|c s IH]; [reflexivity|].
  cbv [String.append]; fold String.append. f_equal. exact IH.
Qed.

Lemma append_assoc (a b c : string) : (a +:+ b) +:+ c = a +:+ (b +:+ c).
Proof.
  induction a as [|x a IH]; [reflexivity|].
  cbv [String.append]; fold String.append. f_equal. exact IH.
Qed.

Lemma refersTo_truthy (w : World) (which : Which) (r : ref) (s : string) :
  refersTo w which r s -> truthyStr s = true.
Proof. induction 1; assumption. Qed.

(** X21. The time-out message names the locator a back reference
    stands for.  When a playable that waits for its target, or for its
    related target, refers through earlier playables to a locator
    string, the message of its time-out is 'Timeout waiting for target
    (' or 'relatedTarget (', the locator string, ') to be ', the state
    waited for, or 'ready' when there is none, and ' for ' and the type
    of the playable if it has one. *)
Theorem timeout_message_names_the_locator (env : Env) (which : Which)
  (r : ref) (w : World) (s : string) :
  (r < length (store w))%nat -> refersTo w which r s ->
  p_waitingFor (getP r w) = Some (whichName which) ->
  timeoutMessage env r w
  = "Timeout waiting for " +:+ whichName which +:+ " (" +:+ s +:+ ")"
    +:+ " to be " +:+ orStr (p_waitingState (getP r w)) "ready"
    +:+ (if truthyStr (default EmptyString (p_type (getP r w)))
         then " for " +:+ default EmptyString (p_type (getP r w))
         else EmptyString).
Proof.
  intros Hr Href Hw. unfold timeoutMessage. rewrite Hw.
  pose proof (refersTo_truthy w which r s Href) as Hs.
  pose proof (walkLocator_refersTo w which r s Href
                (S (length (store w))) ltac:(lia)) as Hwalk.
  assert (Hty : (match p_type (getP r w) with
                 | Some type =>
                     if truthyStr type
                     then orStr (p_waitingState (getP r w)) "ready"
                          +:+ " for " +:+ type
                     else orStr (p_waitingState (getP r w)) "ready"
                 | None => orStr (p_waitingState (getP r w)) "ready"
                 end)
                = orStr (p_waitingState (getP r w)) "ready"
                  +:+ (if truthyStr (default EmptyString (p_type (getP r w)))
                       then " for "
                            +:+ default EmptyString (p_type (getP r w))
                       else EmptyString)).
  { destruct (p_type (getP r w)) as [ty|]; cbn [default from_option id];
      [destruct (truthyStr ty)|]; cbn [truthyStr];
      rewrite ?append_empty_r; reflexivity. }
  rewrite Hty.
  destruct which; cbn [whichName orStr truthyStr] in *.
  - change (String.eqb "target" "target") with true. cbv iota.
    rewrite Hwalk, Hs, !append_assoc. reflexivity.
  - change (String.eqb "relatedTarget" "target") with false.
    change (String.eqb "relatedTarget" "relatedTarget") with true. cbv iota.
    rewrite Hwalk, Hs, !append_assoc. reflexivity.
Qed.

Lemma timeout_message_names_the_locator_witness :
  timeoutMessage (pageAt 1300 None) 1%nat tapWaiting
  = "Timeout waiting for target (#btn) to be available for pointerup".
Proof.
  assert (Hr : (1 < length (store tapWaiting))%nat) by (vm_compute; lia).
  assert (Href : refersTo tapWaiting which_target 1%nat "#btn").
  { apply (refers_back _ _ 1%nat 0%nat); [vm_compute; reflexivity|lia|].
    apply refers_here; [vm_compute; reflexivity|reflexivity]. }
  assert (Hw : p_waitingFor (getP 1%nat tapWaiting)
               = Some (whichName which_target))
    by (vm_compute; reflexivity).
  pose proof (timeout_message_names_the_locator (pageAt 1300 None)
                which_target 1%nat tapWaiting "#btn" Hr Href Hw) as H.
  vm_compute in H. vm_compute. exact H.
Defined.

Lemma countSelected_membership {R : Type} `{EqDecision R}
  (s1 s2 records : list R) :
  (forall r, r ∈ s1 <-> r ∈ s2) ->
  countSelected s1 records = countSelected s2 records.
Proof.
  intros H. induction records as [|r rest IH]; [reflexivity|].
  cbn [countSelected]. rewrite IH.
  rewrite (bool_decide_ext (r ∈ s1) (r ∈ s2)) by apply H. reflexivity.
Qed.

(** X22. Only membership in the selection counts.  The answer of the
    selection validator is the same for two selections that hold the
    same records, in whatever order and however often: it depends on the
    selection only through which of the requested records are in it. *)
Theorem validateSelections_by_membership {R K V : Type} `{EqDecision R}
  `{EqDecision V} (store : Store R K V) (selections1 selections2 : list R)
  (config : SelConfig K V) :
  (forall r, r ∈ selections1 <-> r ∈ selections2) ->
  validateSelections store selections1 config
  = validateSelections store selections2 config.
Proof.
  intros H. unfold validateSelections.
  destruct (getRecords store config) as [records|]; [|reflexivity].
  rewrite (countSelected_membership selections1 selections2 records H).
  reflexivity.
Qed.

Lemma validateSelections_by_membership_witness :
  validateSelections smallStore [1; 3]%nat oneAndThree
  = validateSelections smallStore [3; 1; 1]%nat oneAndThree.
Proof.
  apply validateSelections_by_membership.
  intros r. rewrite !elem_of_cons, !elem_of_nil. tauto.
Defined.
